(** * A model of [src/vector.h]: [RawMemory<T>] and [Vector<T>]

    The container is a class template, so the model is parameterised by the
    element type [T] and by what its special member functions do.  Raw storage
    is a list of slots, each either uninitialised ([None]) or holding a live
    object ([Some x]); [Capacity()] is the number of slots.  Member functions
    are programs of a state-and-exception monad whose state is the stack frame
    of the call: the object [this], the local [new_data], the [const]
    argument ([other]/[rhs]) and the environment observed by the element
    type.  The state survives a [throw], so that what a failed call leaves
    behind can be stated.  Whole programs (several vectors, aliasing between
    [this] and an argument) run on a store of objects, at the end of the
    model.

    Sizes, capacities and offsets are natural numbers: [size_t] arithmetic is
    taken without wrap-around.  This is exact for every vector that fits in
    memory.  It is not exact for a caller's request [Vector(n)], [Reserve(n)]
    or [Resize(n)] with [n * sizeof(T)] beyond the range of [size_t]: there
    the source hands [operator new] a wrapped byte count and gets a block
    too small for its [capacity_].  Where a property depends on the block
    having room for the [n] objects asked for, it carries the hypothesis
    [fits n]. *)

From stdpp Require Import base option list gmap.

Set Default Proof Using "Type".

(** ** Outcomes and the monad *)

(** A C++ call returns, throws, or has undefined behaviour (a violated
    contract: an [assert] of the source, an access to a slot that holds no
    object, pointer arithmetic outside the block). *)
Inductive outcome (A : Type) : Type :=
  | Ok (a : A)
  | Throw
  | Undef.
Arguments Ok {A} a.
Arguments Throw {A}.
Arguments Undef {A}.

Definition St (S A : Type) : Type := S → outcome A * S.

Definition st_ret {S A} (a : A) : St S A := λ s, (Ok a, s).

Definition st_bind {S A B} (m : St S A) (k : A → St S B) : St S B :=
  λ s, match m s with
       | (Ok a, s') => k a s'
       | (Throw, s') => (Throw, s')
       | (Undef, s') => (Undef, s')
       end.

Definition throw {S A} : St S A := λ s, (Throw, s).
Definition undefined {S A} : St S A := λ s, (Undef, s).
Definition gets {S A} (f : S → A) : St S A := λ s, (Ok (f s), s).
Definition modify {S} (f : S → S) : St S unit := λ s, (Ok tt, f s).

(** [try { m } catch (...) { handler }]: the handler runs in the state the
    throw left behind. *)
Definition try_catch {S A} (m : St S A) (handler : St S A) : St S A :=
  λ s, match m s with
       | (Throw, s') => handler s'
       | r => r
       end.

(** Scope exit: [cleanup] runs however [m] ends (a destructor of a local). *)
Definition finally {S A} (m : St S A) (cleanup : S → S) : St S A :=
  λ s, let '(r, s') := m s in (r, cleanup s').

Declare Scope cpp_scope.
Delimit Scope cpp_scope with cpp.
Notation "x <- m ;; k" := (st_bind m (λ x, k))
  (at level 100, m at next level, k at level 200, right associativity) : cpp_scope.
Notation "m ;;; k" := (st_bind m (λ _, k))
  (at level 100, k at level 200, right associativity) : cpp_scope.
Local Open Scope cpp_scope.

(** ** The element type *)

(** What the container asks of [T].  [U] is whatever program state the
    special members of [T] read and write (instance counters, a schedule of
    injected failures); every member takes it and returns it.  A constructor
    either yields the new object or throws ([None]).  A move also returns the
    state in which it leaves its source object; an assignment returns whether
    it completed and the state of the operands afterwards. *)
Class Element (T U : Type) : Type := {
  sizeof_T : positive;                            (* sizeof(T)      *)
  is_nothrow_move_constructible : bool;
  is_copy_constructible : bool;
  value_construct : U → option T * U;             (* T()            *)
  copy_construct : T → U → option T * U;          (* T(const T&)    *)
  move_construct : T → U → option T * T * U;      (* T(T&&)         *)
  copy_assign : T → T → U → bool * T * U;         (* dst = src      *)
  move_assign : T → T → U → bool * T * T * U;     (* dst = move(src) *)
  destroy : T → U → U;                            (* ~T(), noexcept *)
  can_allocate : nat → U → bool                   (* operator new(n * sizeof(T)) *)
}.

(** Every call of a special member is recorded, in program order. *)
Inductive event (T : Type) : Type :=
  | EvValue                      (* T()                      *)
  | EvCopy (src : T)             (* T(const T&)              *)
  | EvMove (src : T)             (* T(T&&)                   *)
  | EvCopyAssign (dst src : T)   (* operator=(const T&)      *)
  | EvMoveAssign (dst src : T)   (* operator=(T&&)           *)
  | EvDestroy (x : T).           (* ~T()                     *)
Arguments EvValue {T}.
Arguments EvCopy {T} src.
Arguments EvMove {T} src.
Arguments EvCopyAssign {T} dst src.
Arguments EvMoveAssign {T} dst src.
Arguments EvDestroy {T} x.

Record Env (T U : Type) : Type := MkEnv {
  user : U;
  trace : list (event T)
}.
Arguments MkEnv {T U} user trace.
Arguments user {T U} e.
Arguments trace {T U} e.

(** ** Storage, vectors, frames *)

(** [RawMemory<T>]: [buffer_] as the list of its [capacity_] slots. *)
Abbreviation RawMemory T := (list (option T)).

Record Vector (T : Type) : Type := MkVector {
  data_ : RawMemory T;
  size_ : nat
}.
Arguments MkVector {T} data_ size_.
Arguments data_ {T} v.
Arguments size_ {T} v.

(** The three blocks a member function can address. *)
Inductive place : Type :=
  | Data       (* this->data_                         *)
  | NewData    (* the local RawMemory<T> new_data     *)
  | Other.     (* the data_ of the const& argument    *)

#[global] Instance place_eq_dec : EqDecision place.
Proof. solve_decision. Defined.

(** [T*]: a block and an offset into it. *)
Record ptr : Type := MkPtr { base : place; off : nat }.

#[global] Instance ptr_eq_dec : EqDecision ptr.
Proof. solve_decision. Defined.

Definition ptr_add (p : ptr) (n : nat) : ptr := MkPtr (base p) (off p + n).
Infix "+ₚ" := ptr_add (at level 50, left associativity).

Record frame (T U : Type) : Type := MkFrame {
  this : Vector T;
  new_data : RawMemory T;
  other : Vector T;
  env : Env T U
}.
Arguments MkFrame {T U} this new_data other env.
Arguments this {T U} f.
Arguments new_data {T U} f.
Arguments other {T U} f.
Arguments env {T U} f.

Section VectorModel.
Context {T U : Type} `{!Element T U}.

Local Abbreviation Env := (Env T U).
Local Abbreviation frame := (frame T U).
Local Abbreviation M := (St frame).
(** An action of the element type alone, such as the constructor call
    [T(std::forward<Args>(args)...)] that [Emplace] is handed. *)
Local Abbreviation E A := (Env → option A * Env).

Definition record (ev : event T) (e : Env) : Env :=
  MkEnv (user e) (trace e ++ [ev]).

Definition T_value : E T := λ e,
  let e := record EvValue e in
  let '(r, u) := value_construct (user e) in (r, MkEnv u (trace e)).

Definition T_copy (x : T) : E T := λ e,
  let e := record (EvCopy x) e in
  let '(r, u) := copy_construct x (user e) in (r, MkEnv u (trace e)).

(** Move construction from [x]: the new object (or a throw) and the state in
    which the source is left. *)
Definition T_move (x : T) : Env → option T * T * Env := λ e,
  let e := record (EvMove x) e in
  let '(r, x', u) := move_construct x (user e) in (r, x', MkEnv u (trace e)).

Definition T_copy_assign (d s : T) : Env → bool * T * Env := λ e,
  let e := record (EvCopyAssign d s) e in
  let '(ok, d', u) := copy_assign d s (user e) in (ok, d', MkEnv u (trace e)).

Definition T_move_assign (d s : T) : Env → bool * T * T * Env := λ e,
  let e := record (EvMoveAssign d s) e in
  let '(ok, d', s', u) := move_assign d s (user e) in (ok, d', s', MkEnv u (trace e)).

Definition T_destroy (x : T) (e : Env) : Env :=
  let e := record (EvDestroy x) e in
  MkEnv (destroy x (user e)) (trace e).

(** [PushBack(const T&)] and [PushBack(T&&)] forward their argument to the
    copy and the move constructor; the moved-from argument is the caller's.
    [EmplaceBack] constructs the new element before it touches an element
    of the vector, so that [value] stands for the object the reference
    designates, also when that is an element of the vector. *)
Definition by_copy (x : T) : E T := T_copy x.
Definition by_move (x : T) : E T := λ e,
  let '(r, _, e') := T_move x e in (r, e').

(** ** Frame accessors *)

Definition set_this (v : Vector T) (st : frame) : frame :=
  MkFrame v (new_data st) (other st) (env st).
Definition set_new_data (b : RawMemory T) (st : frame) : frame :=
  MkFrame (this st) b (other st) (env st).
Definition set_env (e : Env) (st : frame) : frame :=
  MkFrame (this st) (new_data st) (other st) e.
Definition set_data (b : RawMemory T) (st : frame) : frame :=
  set_this (MkVector b (size_ (this st))) st.
Definition set_size (n : nat) (st : frame) : frame :=
  set_this (MkVector (data_ (this st)) n) st.

Definition slots (p : place) (st : frame) : RawMemory T :=
  match p with
  | Data => data_ (this st)
  | NewData => new_data st
  | Other => data_ (other st)
  end.

(** The argument is [const]: nothing is written through it. *)
Definition set_slots (p : place) (b : RawMemory T) (st : frame) : frame :=
  match p with
  | Data => set_data b st
  | NewData => set_new_data b st
  | Other => st
  end.

Definition writable (p : place) : bool :=
  match p with Other => false | _ => true end.

(** Reading the object a pointer designates. *)
Definition load (p : ptr) : M T := λ st,
  match slots (base p) st !! off p with
  | Some (Some x) => (Ok x, st)
  | _ => (Undef, st)
  end.

(** Writing a slot (an object, or [None] once it is destroyed). *)
Definition store (p : ptr) (s : option T) : M unit := λ st,
  if writable (base p) && bool_decide (off p < length (slots (base p) st))
  then (Ok tt, set_slots (base p) (<[off p := s]> (slots (base p) st)) st)
  else (Undef, st).

Definition liftE {A} (m : E A) : M A := λ st,
  match m (env st) with
  | (Some a, e) => (Ok a, set_env e st)
  | (None, e) => (Throw, set_env e st)
  end.

(** A call of a special member that reports its result without throwing. *)
Definition lift_env {A} (f : Env → A * Env) : M A := λ st,
  let '(a, e) := f (env st) in (Ok a, set_env e st).

(** [p - n] and [last - first] on pointers into one block. *)
Definition ptr_sub (p : ptr) (n : nat) : M ptr :=
  if bool_decide (n ≤ off p) then st_ret (MkPtr (base p) (off p - n)) else undefined.

Definition ptr_diff (last first : ptr) : M nat :=
  if bool_decide (base last = base first) && bool_decide (off first ≤ off last)
  then st_ret (off last - off first) else undefined.

(** [a - b] on [size_t] where the source relies on [b <= a]; the wrapped
    difference would send the following loop far outside the block. *)
Definition size_sub (a b : nat) : M nat :=
  if bool_decide (b ≤ a) then st_ret (a - b) else undefined.

(** ** Object-level primitives *)

(** [new (p) T(args...)] *)
Definition construct_at (p : ptr) (mk : E T) : M unit :=
  x <- liftE mk ;; store p (Some x).

(** [new (d) T(s[0])]: copy construction from the object at [s] *)
Definition construct_copy_at (d s : ptr) : M unit :=
  x <- load s ;; construct_at d (T_copy x).

(** [new (d) T(std::move(s[0]))]: move construction from the object at [s],
    which is left in its moved-from state whether or not the move throws. *)
Definition construct_move_at (d s : ptr) : M unit :=
  x <- load s ;;
  r <- lift_env (T_move x) ;;
  store s (Some r.2) ;;;
  match r.1 with
  | Some y => store d (Some y)
  | None => throw
  end.

(** [d[0] = s[0]] *)
Definition assign_copy (d s : ptr) : M unit :=
  dv <- load d ;;
  sv <- load s ;;
  r <- lift_env (T_copy_assign dv sv) ;;
  store d (Some r.2) ;;;
  if r.1 then st_ret tt else throw.

(** [d[0] = std::move(s[0])] *)
Definition assign_move (d s : ptr) : M unit :=
  dv <- load d ;;
  sv <- load s ;;
  r <- lift_env (T_move_assign dv sv) ;;
  store s (Some r.2) ;;;
  store d (Some r.1.2) ;;;
  if r.1.1 then st_ret tt else throw.

(** [std::destroy_at(p)] *)
Definition destroy_at (p : ptr) : M unit :=
  x <- load p ;;
  lift_env (λ e, (tt, T_destroy x e)) ;;;
  store p None.

(** ** The algorithms of <memory> and <algorithm>

    As the C++ standard specifies them: the [uninitialized_*] family
    constructs left to right and, when a construction throws, destroys what it
    has constructed so far and rethrows; [copy_n], [move], [move_backward]
    assign element by element and give no such guarantee. *)

Fixpoint destroy_n (first : ptr) (n : nat) : M unit :=
  match n with
  | 0 => st_ret tt
  | S n' => destroy_at first ;;; destroy_n (first +ₚ 1) n'
  end.

(** The common loop: [construct i cur] builds the [i]-th object at [cur]. *)
Fixpoint uninitialized_n (construct : nat → ptr → M unit)
    (result : ptr) (i n : nat) : M unit :=
  match n with
  | 0 => st_ret tt
  | S n' =>
      try_catch (construct i (result +ₚ i)) (destroy_n result i ;;; throw) ;;;
      uninitialized_n construct result (S i) n'
  end.

Definition uninitialized_value_construct_n (first : ptr) (n : nat) : M unit :=
  uninitialized_n (λ _ cur, construct_at cur T_value) first 0 n.

Definition uninitialized_copy_n (first : ptr) (n : nat) (result : ptr) : M unit :=
  uninitialized_n (λ i cur, construct_copy_at cur (first +ₚ i)) result 0 n.

Definition uninitialized_move_n (first : ptr) (n : nat) (result : ptr) : M unit :=
  uninitialized_n (λ i cur, construct_move_at cur (first +ₚ i)) result 0 n.

Fixpoint copy_n (first : ptr) (n : nat) (result : ptr) : M unit :=
  match n with
  | 0 => st_ret tt
  | S n' => assign_copy result first ;;; copy_n (first +ₚ 1) n' (result +ₚ 1)
  end.

Fixpoint move_n (first : ptr) (n : nat) (d_first : ptr) : M unit :=
  match n with
  | 0 => st_ret tt
  | S n' => assign_move d_first first ;;; move_n (first +ₚ 1) n' (d_first +ₚ 1)
  end.

(** [std::move(first, last, d_first)] *)
Definition std_move (first last d_first : ptr) : M unit :=
  n <- ptr_diff last first ;; move_n first n d_first.

Fixpoint move_backward_n (last : ptr) (n : nat) (d_last : ptr) : M unit :=
  match n with
  | 0 => st_ret tt
  | S n' =>
      d <- ptr_sub d_last 1 ;;
      l <- ptr_sub last 1 ;;
      assign_move d l ;;;
      move_backward_n l n' d
  end.

(** [std::move_backward(first, last, d_last)] *)
Definition move_backward (first last d_last : ptr) : M unit :=
  n <- ptr_diff last first ;; move_backward_n last n d_last.

(** ** [RawMemory<T>] *)

(** [n * sizeof(T)] as [Allocate(n)] computes it, in the 64 bits of
    [size_t]. *)
Definition byte_count (n : nat) : N := ((N.of_nat n * N.pos sizeof_T) mod 2 ^ 64)%N.

(** The byte count of [Allocate(n)] did not wrap: it is the product itself,
    and the block that [operator new] returns has room for [n] objects. *)
Definition fits (n : nat) : Prop := byte_count n = (N.of_nat n * N.pos sizeof_T)%N.

(** [RawMemory(size_t capacity)]: [Allocate] returns [nullptr] for zero slots
    and calls [operator new] otherwise, which may throw.  The block has [n]
    slots, those of a byte count that did not wrap ([fits n]). *)
Definition Allocate (n : nat) : M (RawMemory T) :=
  if bool_decide (n ≠ 0)
  then ok <- gets (λ st, can_allocate n (user (env st))) ;;
       if ok : bool then st_ret (replicate n None) else throw
  else st_ret [].

Definition GetAddress (p : place) : ptr := MkPtr p 0.

(** [RawMemory::operator+]: [assert(offset <= capacity_)]. *)
Definition RawMemory_plus (p : place) (offset : nat) : M ptr :=
  cap <- gets (λ st, length (slots p st)) ;;
  if bool_decide (offset ≤ cap) then st_ret (MkPtr p offset) else undefined.

(** [RawMemory::operator[]]: [assert(index < capacity_)]. *)
Definition RawMemory_index (p : place) (index : nat) : M ptr :=
  cap <- gets (λ st, length (slots p st)) ;;
  if bool_decide (index < cap) then st_ret (MkPtr p index) else undefined.

(** [data_.Swap(new_data)] *)
Definition RawMemory_Swap : M unit :=
  modify (λ st, set_new_data (data_ (this st)) (set_data (new_data st) st)).

(** The scope of a local [RawMemory<T> new_data(capacity)]: its destructor
    releases the block, whatever it holds, on every way out. *)
Definition with_new_data {A} (capacity : nat) (body : M A) : M A :=
  b <- Allocate capacity ;;
  modify (set_new_data b) ;;;
  finally body (set_new_data []).

(** ** [Vector<T>] *)

Definition begin_ : ptr := GetAddress Data.
Definition Size : M nat := gets (λ st, size_ (this st)).
Definition Capacity : M nat := gets (λ st, length (data_ (this st))).
Definition end_ : M ptr := size <- Size ;; st_ret (GetAddress Data +ₚ size).

(** The decision of the [if constexpr] in [MoveOrCopyData] and
    [EmplaceRealloc]. *)
Definition moves_on_realloc : bool :=
  is_nothrow_move_constructible || negb is_copy_constructible.

(** [Vector()] *)
Definition Vector_default : M unit :=
  modify (set_this (MkVector [] 0)).

(** [explicit Vector(size_t size)] *)
Definition Vector_sized (size : nat) : M unit :=
  b <- Allocate size ;;
  modify (set_this (MkVector b size)) ;;;
  uninitialized_value_construct_n (GetAddress Data) size.

(** [Vector(const Vector& other)] *)
Definition Vector_copy : M unit :=
  osize <- gets (λ st, size_ (other st)) ;;
  b <- Allocate osize ;;
  modify (set_this (MkVector b osize)) ;;;
  uninitialized_copy_n (GetAddress Other) osize (GetAddress Data).

(** [~Vector()] *)
Definition Vector_destructor : M unit :=
  size <- Size ;; destroy_n (GetAddress Data) size.

Definition MoveOrCopyData (data new_data : place) (size : nat) : M unit :=
  if moves_on_realloc
  then uninitialized_move_n (GetAddress data) size (GetAddress new_data)
  else uninitialized_copy_n (GetAddress data) size (GetAddress new_data).

Definition Reserve (new_capacity : nat) : M unit :=
  cap <- Capacity ;;
  if bool_decide (new_capacity ≤ cap) then st_ret tt
  else with_new_data new_capacity (
    size <- Size ;;
    MoveOrCopyData Data NewData size ;;;
    destroy_n (GetAddress Data) size ;;;
    RawMemory_Swap).

Definition Resize (new_size : nat) : M unit :=
  size <- Size ;;
  (if bool_decide (new_size < size)
   then destroy_n (GetAddress Data +ₚ new_size) (size - new_size)
   else Reserve new_size ;;;
        uninitialized_value_construct_n (GetAddress Data +ₚ size) (new_size - size)) ;;;
  modify (set_size new_size).

(** The growth rule of [EmplaceBack] and [EmplaceRealloc]. *)
Definition grown (size : nat) : nat := if bool_decide (size = 0) then 1 else size * 2.

(** Returns the address of the new element, which after the swap lies in
    [data_] in both branches. *)
Definition EmplaceBack (args : E T) : M ptr :=
  size <- Size ;;
  cap <- Capacity ;;
  (if bool_decide (size = cap)
   then with_new_data (grown size) (
     p <- RawMemory_plus NewData size ;;
     construct_at p args ;;;
     MoveOrCopyData Data NewData size ;;;
     destroy_n (GetAddress Data) size ;;;
     RawMemory_Swap)
   else
     p <- RawMemory_plus Data size ;;
     construct_at p args) ;;;
  modify (set_size (size + 1)) ;;;
  st_ret (MkPtr Data size).

Definition PushBack (value : T) : M unit :=
  EmplaceBack (by_copy value) ;;; st_ret tt.

Definition PushBack_move (value : T) : M unit :=
  EmplaceBack (by_move value) ;;; st_ret tt.

Definition PopBack : M unit :=
  e <- end_ ;;
  last <- ptr_sub e 1 ;;
  destroy_at last ;;;
  size <- Size ;;
  modify (set_size (size - 1)).

(** *** [Emplace]

    The emplace functions are templates over the arguments [args...] of the
    new element's constructor.  Their bodies are given once, for any
    placement-new expression [construct p], which stands for
    [new (p) T(std::forward<Args>(args)...)]: it runs where the source has
    it, in the state the vector is in at that point. *)

Definition EmplaceRealloc_with (pos : ptr) (construct : ptr → M unit) : M ptr :=
  index_ <- ptr_diff pos begin_ ;;
  size <- Size ;;
  with_new_data (grown size) (
    p <- RawMemory_plus NewData index_ ;;
    construct p ;;;
    (if moves_on_realloc
     then uninitialized_move_n begin_ index_ (GetAddress NewData)
     else try_catch
            (uninitialized_copy_n begin_ index_ (GetAddress NewData))
            (destroy_at (GetAddress NewData +ₚ index_) ;;; throw)) ;;;
    rest <- size_sub size index_ ;;
    (if moves_on_realloc
     then uninitialized_move_n (begin_ +ₚ index_) rest (GetAddress NewData +ₚ index_ +ₚ 1)
     else try_catch
            (uninitialized_copy_n (begin_ +ₚ index_) rest (GetAddress NewData +ₚ index_ +ₚ 1))
            (destroy_n (GetAddress NewData) index_ ;;; throw)) ;;;
    destroy_n begin_ size ;;;
    RawMemory_Swap) ;;;
  modify (set_size (size + 1)) ;;;
  st_ret (MkPtr Data index_).

Definition EmplaceMove_with (pos : ptr) (construct : ptr → M unit) : M ptr :=
  index_ <- ptr_diff pos begin_ ;;
  size <- Size ;;
  (if bool_decide (size ≠ 0)
   then
     p <- RawMemory_plus Data size ;;
     last <- ptr_sub (begin_ +ₚ size) 1 ;;
     construct_move_at p last ;;;
     try_catch
       (move_backward (begin_ +ₚ index_) (begin_ +ₚ size) (begin_ +ₚ size +ₚ 1))
       (destroy_at (begin_ +ₚ size) ;;; throw) ;;;
     destroy_at (begin_ +ₚ index_)
   else st_ret tt) ;;;
  p <- RawMemory_plus Data index_ ;;
  construct p ;;;
  modify (set_size (size + 1)) ;;;
  st_ret p.

Definition Emplace_with (pos : ptr) (construct : ptr → M unit) : M ptr :=
  size <- Size ;;
  cap <- Capacity ;;
  if bool_decide (size = cap) then EmplaceRealloc_with pos construct
  else EmplaceMove_with pos construct.

(** With arguments that are the caller's own and do not refer to the
    vector, the constructor call is an action [args] of the element type
    alone. *)
Definition EmplaceRealloc (pos : ptr) (args : E T) : M ptr :=
  EmplaceRealloc_with pos (λ p, construct_at p args).

Definition EmplaceMove (pos : ptr) (args : E T) : M ptr :=
  EmplaceMove_with pos (λ p, construct_at p args).

Definition Emplace (pos : ptr) (args : E T) : M ptr :=
  Emplace_with pos (λ p, construct_at p args).

(** The [const T&] argument of [Insert]: a reference to an object of the
    caller's, outside the vector, or to the element of this vector at an
    index, as in [v.Insert(pos, v[j])]. *)
Inductive cref : Type :=
  | Outside (x : T)
  | Inside (index : nat).

(** [new (p) T(value)] for [const T& value]: the copy constructor reads the
    object the reference designates when it runs. *)
Definition construct_from (value : cref) (p : ptr) : M unit :=
  match value with
  | Outside x => construct_at p (by_copy x)
  | Inside index => construct_copy_at p (begin_ +ₚ index)
  end.

(** [Insert(pos, const T& value)] forwards the reference to [Emplace]. *)
Definition Insert (pos : ptr) (value : cref) : M ptr :=
  Emplace_with pos (construct_from value).

(** [Insert(pos, T&& value)], for an rvalue that is the caller's. *)
Definition Insert_move (pos : ptr) (value : T) : M ptr := Emplace pos (by_move value).

Definition Erase (pos : ptr) : M ptr :=
  e <- end_ ;;
  std_move (pos +ₚ 1) e pos ;;;
  PopBack ;;;
  st_ret pos.

(** [operator[]]: [assert(index < size_)], then the element's address. *)
Definition Vector_index (index : nat) : M ptr :=
  size <- Size ;;
  if bool_decide (index < size) then RawMemory_index Data index else undefined.

(** Reading [v[index]]. *)
Definition at_ (index : nat) : M T :=
  p <- Vector_index index ;; load p.

(** *** Calls on another object from inside a member function *)

(** Runs [body] with [v] as its [this]; the argument and the environment
    are shared with the caller.  Returns what [v] has become. *)
Definition in_object {A} (v : Vector T) (body : M A) : M (A * Vector T) := λ st,
  match body (MkFrame v [] (other st) (env st)) with
  | (Ok a, st') => (Ok (a, this st'), set_env (env st') st)
  | (Throw, st') => (Throw, set_env (env st') st)
  | (Undef, st') => (Undef, set_env (env st') st)
  end.

(** [Vector::Swap] between two distinct objects: [data_.Swap(other.data_)],
    then [std::swap(size_, other.size_)]. *)
Definition Vector_Swap (a b : Vector T) : Vector T * Vector T :=
  let '(da, db) := (data_ b, data_ a) in
  let '(sa, sb) := (size_ b, size_ a) in
  (MkVector da sa, MkVector db sb).

Definition Swap_local (v : Vector T) : M (Vector T) := λ st,
  let '(a, b) := Vector_Swap (this st) v in (Ok b, set_this a st).

(** The body of [operator=(const Vector& rhs)] under [if (this != &rhs)];
    the test itself is [Vector_assign] below, where objects have addresses.
    [rhs] is the frame's [other]. *)
Definition assign_from_other : M unit :=
  rsize <- gets (λ st, size_ (other st)) ;;
  cap <- Capacity ;;
  if bool_decide (cap < rsize)
  then
    (* Vector rhs_copy(rhs); Swap(rhs_copy); and the destructor of rhs_copy *)
    c <- in_object (MkVector [] 0) Vector_copy ;;
    rhs_copy <- Swap_local c.2 ;;
    in_object rhs_copy Vector_destructor ;;;
    st_ret tt
  else
    size <- Size ;;
    copy_size <-
      (if bool_decide (rsize ≤ size)
       then destroy_n (GetAddress Data +ₚ rsize) (size - rsize) ;;; st_ret rsize
       else uninitialized_copy_n (GetAddress Other +ₚ size) (rsize - size)
              (GetAddress Data +ₚ size) ;;;
            st_ret size) ;;
    copy_n (GetAddress Other) copy_size (GetAddress Data) ;;;
    modify (set_size rsize).

(** ** Programs over several vectors *)

(** Objects live at addresses; two names may denote one object. *)
Record machine : Type := MkMachine {
  objs : gmap nat (Vector T);
  world : Env
}.

Local Abbreviation P := (St machine).

Definition obj (a : nat) : P (Vector T) := λ m,
  match objs m !! a with
  | Some v => (Ok v, m)
  | None => (Undef, m)
  end.

Definition put (a : nat) (v : Vector T) : P unit :=
  modify (λ m, MkMachine (<[a := v]> (objs m)) (world m)).

(** A member function call [a.body(arg)]: the frame is built from the
    object at [a], and whatever the call made of it is written back, also
    when the call throws. *)
Definition method {A} (a : nat) (arg : Vector T) (body : M A) : P A := λ m,
  match objs m !! a with
  | None => (Undef, m)
  | Some v =>
      let '(r, st) := body (MkFrame v [] arg (world m)) in
      (r, MkMachine (<[a := this st]> (objs m)) (env st))
  end.

(** A constructor call at address [a]: members start from their default
    initialisers; when the constructor throws there is no object. *)
Definition constructor (a : nat) (arg : Vector T) (body : M unit) : P unit := λ m,
  match body (MkFrame (MkVector [] 0) [] arg (world m)) with
  | (Ok _, st) => (Ok tt, MkMachine (<[a := this st]> (objs m)) (env st))
  | (r, st) => (r, MkMachine (objs m) (env st))
  end.

(** [a.Swap(b)], field by field through the store, so that [a.Swap(a)]
    is what the two [std::swap]s make of it. *)
Definition Swap (a b : nat) : P unit :=
  va <- obj a ;; vb <- obj b ;;
  put a (MkVector (data_ vb) (size_ va)) ;;;
  vb <- obj b ;;
  put b (MkVector (data_ va) (size_ vb)) ;;;
  va <- obj a ;; vb <- obj b ;;
  put a (MkVector (data_ va) (size_ vb)) ;;;
  vb' <- obj b ;;
  put b (MkVector (data_ vb') (size_ va)).

(** [Vector(Vector&& other) noexcept { Swap(other); }] *)
Definition Vector_move (a b : nat) : P unit :=
  constructor a (MkVector [] 0) Vector_default ;;;
  Swap a b.

(** [operator=(Vector&& rhs) noexcept { Swap(rhs); return *this; }] *)
Definition Vector_move_assign (a b : nat) : P unit := Swap a b.

(** [operator=(const Vector& rhs)] *)
Definition Vector_assign (a b : nat) : P unit :=
  _ <- obj a ;;
  rhs <- obj b ;;
  if bool_decide (a ≠ b) then method a rhs assign_from_other
  else st_ret tt.

(** The end of an object's lifetime: [~Vector()], then its storage goes. *)
Definition Vector_delete (a : nat) : P unit :=
  method a (MkVector [] 0) Vector_destructor ;;;
  modify (λ m, MkMachine (delete a (objs m)) (world m)).

(** The public interface, as calls a program can make. *)
Inductive call : Type :=
  | CDefault (a : nat)
  | CSized (a n : nat)
  | CCopy (a b : nat)
  | CMove (a b : nat)
  | CAssign (a b : nat)
  | CMoveAssign (a b : nat)
  | CSwap (a b : nat)
  | CDelete (a : nat)
  | CReserve (a n : nat)
  | CResize (a n : nat)
  | CEmplaceBack (a : nat) (args : E T)
  | CPopBack (a : nat)
  | CEmplace (a index : nat) (args : E T)
  | CErase (a index : nat).

Definition nobody : Vector T := MkVector [] 0.

Definition exec (c : call) : P unit :=
  match c with
  | CDefault a => constructor a nobody Vector_default
  | CSized a n => constructor a nobody (Vector_sized n)
  | CCopy a b => o <- obj b ;; constructor a o Vector_copy
  | CMove a b => Vector_move a b
  | CAssign a b => Vector_assign a b
  | CMoveAssign a b => Vector_move_assign a b
  | CSwap a b => Swap a b
  | CDelete a => Vector_delete a
  | CReserve a n => method a nobody (Reserve n)
  | CResize a n => method a nobody (Resize n)
  | CEmplaceBack a args => method a nobody (EmplaceBack args ;;; st_ret tt)
  | CPopBack a => method a nobody PopBack
  | CEmplace a index args => method a nobody (Emplace (begin_ +ₚ index) args ;;; st_ret tt)
  | CErase a index => method a nobody (Erase (begin_ +ₚ index) ;;; st_ret tt)
  end.

Fixpoint run (cs : list call) : P unit :=
  match cs with
  | [] => st_ret tt
  | c :: cs' => exec c ;;; run cs'
  end.

(** The empty state: no live element. *)
Definition left_empty (m : machine) (a : nat) : Prop :=
  ∃ v, objs m !! a = Some v ∧ size_ v = 0.

(** The machines a program can be in: it starts without objects and makes
    calls; a call that throws is caught and the program goes on. *)
Inductive reachable : machine → Prop :=
  | reachable_start e : reachable (MkMachine ∅ e)
  | reachable_call m c r m' :
      reachable m → exec c m = (r, m') → r ≠ Undef → reachable m'.

(** ** Abstract view *)

(** The vector that holds the objects [xs] and has [spare] free slots. *)
Definition rep (xs : list T) (spare : nat) : Vector T :=
  MkVector ((Some <$> xs) ++ replicate spare None) (length xs).

(** The representation invariant of section 3 of the specification: slots
    below [size_] hold objects, slots from [size_] on are uninitialised. *)
Definition wf (v : Vector T) : Prop := ∃ xs spare, v = rep xs spare.

(** The objects of the vector, when every slot below [size_] holds one. *)
Definition elements (v : Vector T) : option (list T) :=
  mapM id (take (size_ v) (data_ v)).

Definition capacity (v : Vector T) : nat := length (data_ v).

(** The invariant [size <= capacity] of section 3 of the specification. *)
Definition size_le_capacity (v : Vector T) : Prop := size_ v ≤ capacity v.

Definition all_size_le_capacity (m : machine) : Prop :=
  ∀ a v, objs m !! a = Some v → size_le_capacity v.

(** The representation invariant for every vector of the program. *)
Definition all_wf (m : machine) : Prop :=
  ∀ a v, objs m !! a = Some v → wf v.

(** The precondition of a call on its iterator argument: [Emplace] takes a
    position in [[begin(), end()]]. *)
Definition in_contract (c : call) (m : machine) : Prop :=
  match c with
  | CEmplace a index _ => ∀ v, objs m !! a = Some v → index ≤ size_ v
  | _ => True
  end.

(** The numbers of objects that a call asks storage for are within
    [size_t] once multiplied by [sizeof(T)]. *)
Definition request_fits (c : call) : Prop :=
  match c with
  | CSized _ n | CReserve _ n | CResize _ n => fits n
  | _ => True
  end.

(** The calls that leave every vector well formed also when they throw. *)
Definition keeps_on_throw (c : call) : bool :=
  match c with
  | CEmplace _ _ _ | CAssign _ _ => false
  | _ => true
  end.

(** The calls that work within the storage of their vector or replace it
    by a larger one: all but construction, destruction, [Swap] and the move
    operations, which hand storage over. *)
Definition keeps_storage (c : call) : bool :=
  match c with
  | CReserve _ _ | CResize _ _ | CEmplaceBack _ _ | CPopBack _
  | CEmplace _ _ _ | CErase _ _ | CAssign _ _ => true
  | _ => false
  end.

(** What a program can change of the frame without touching an object:
    the size and the slot counts. *)
Definition shape (st : frame) : nat * nat * nat :=
  (size_ (this st), length (data_ (this st)), length (new_data st)).

(** A program that changes neither the size nor the number of slots of any
    block, nor the argument. *)
Definition preserves {A} (m : M A) : Prop :=
  ∀ st, shape (m st).2 = shape st ∧ other (m st).2 = other st.

(** Partial correctness with an exceptional postcondition: from a frame in
    [P], a call that returns [a] ends in [Q a], a call that throws ends in
    [R]; nothing is said of a call with undefined behaviour. *)
Definition hoare {A} (P : frame → Prop) (m : M A)
    (Q : A → frame → Prop) (R : frame → Prop) : Prop :=
  ∀ st, P st →
    match m st with
    | (Ok a, st') => Q a st'
    | (Throw, st') => R st'
    | (Undef, _) => True
    end.

(** The frame has this shape and this argument. *)
Definition shaped (size cap nd : nat) (o : Vector T) : frame → Prop :=
  λ st, shape st = (size, cap, nd) ∧ other st = o.

(** The frame on entry to a member function of [v], with argument [o]. *)
Definition enter (v : Vector T) (o : Vector T) (e : Env) : frame :=
  MkFrame v [] o e.

(** ** Test programs and assumptions on the element type *)

(** [for (args : argss) v.EmplaceBack(args);] *)
Fixpoint EmplaceBack_all (argss : list (E T)) : M unit :=
  match argss with
  | [] => st_ret tt
  | args :: rest => EmplaceBack args ;;; EmplaceBack_all rest
  end.

(** [for (x : xs) v.PushBack(x);] *)
Fixpoint PushBack_all (xs : list T) : M unit :=
  match xs with
  | [] => st_ret tt
  | x :: rest => PushBack x ;;; PushBack_all rest
  end.

(** [for (x : xs) v.PushBack(std::move(x));] *)
Fixpoint PushBack_move_all (xs : list T) : M unit :=
  match xs with
  | [] => st_ret tt
  | x :: rest => PushBack_move x ;;; PushBack_move_all rest
  end.

(** The capacity after [n] appends to an empty vector, by the rule of
    section 4.2: unchanged while there is room, [max(1, 2 * capacity)] when
    the vector is full. *)
Fixpoint cap_after (n : nat) : nat :=
  match n with
  | 0 => 0
  | S n' =>
      if bool_decide (n' = cap_after n') then Nat.max 1 (2 * cap_after n')
      else cap_after n'
  end.

(** A copy equals its source; the object made by a move equals what its
    source was; an assignment that completes leaves the destination equal
    to the source; [T()] is [dflt]. *)
Definition copies_faithfully : Prop :=
  ∀ x u y u', copy_construct x u = (Some y, u') → y = x.
Definition moves_faithfully : Prop :=
  ∀ x u y x' u', move_construct x u = (Some y, x', u') → y = x.
Definition assigns_faithfully : Prop :=
  ∀ d s u d' u', copy_assign d s u = (true, d', u') → d' = s.
Definition value_is (dflt : T) : Prop :=
  ∀ u y u', value_construct u = (Some y, u') → y = dflt.

(** No special member of [T] throws and every allocation succeeds, as for
    [int] while memory lasts. *)
Definition nothrow : Prop :=
  (∀ u, (value_construct u).1 ≠ None) ∧
  (∀ x u, (copy_construct x u).1 ≠ None) ∧
  (∀ x u, (move_construct x u).1.1 ≠ None) ∧
  (∀ d s u, (copy_assign d s u).1.1 = true) ∧
  (∀ d s u, (move_assign d s u).1.1.1 = true) ∧
  (∀ n u, can_allocate n u = true).

(** The constructor call [args] does not throw. *)
Definition constructs (args : E T) : Prop := ∀ e, (args e).1 ≠ None.

(** A move assignment that completes leaves the destination equal to what
    the source was. *)
Definition move_assigns_faithfully : Prop :=
  ∀ d s u d' s' u', move_assign d s u = (true, d', s', u') → d' = s.

(** The move constructor is declared [noexcept] and keeps its word, and
    every allocation succeeds: what [std::unique_ptr] offers while memory
    lasts. *)
Definition nothrow_movable : Prop :=
  is_nothrow_move_constructible = true ∧
  (∀ x u, (move_construct x u).1.1 ≠ None) ∧
  (∀ d s u, (move_assign d s u).1.1.1 = true) ∧
  (∀ n u, can_allocate n u = true).

(** Moving is copying, as for a trivially copyable type: the move
    constructor and the move assignment give the destination the value of
    the source and leave the source as it was. *)
Definition moves_are_copies : Prop :=
  (∀ x u, (move_construct x u).1 = (Some x, x)) ∧
  (∀ d s u, (move_assign d s u).1 = (true, s, s)).

(** Where [move_backward] leaves the objects [zs], followed by one more
    object [w], after shifting [zs] one slot to the right over [w]. *)
Definition shifted (zs : list T) (w : T) : list T :=
  match zs with
  | [] => [w]
  | z :: _ => z :: zs
  end.

(** The frame of [EmplaceMove] once slot [i] of the block has been vacated
    for the new element. *)
Definition vacated (xs : list T) (k i : nat) (o : Vector T) (e : Env) : frame :=
  MkFrame (MkVector ((Some <$> take i xs) ++ None :: (Some <$> drop i xs)
                     ++ replicate k None) (length xs)) [] o e.

(** What the [const T&] argument of an in-place [Insert] at index [i]
    designates when the new element is constructed, for an element type whose
    moves are copies and a vector that held [xs]: the object itself when it
    is outside the vector; for the element at index [j], the object in slot
    [j] after the shift, which is the element itself before [i], no object
    at [i], and the left neighbour of the element after [i]. *)
Definition read_after_shift (xs : list T) (i : nat) (value : cref) : option T :=
  match value with
  | Outside x => Some x
  | Inside j =>
      if bool_decide (j < i) then xs !! j
      else if bool_decide (j = i) then None
      else xs !! (j - 1)
  end.

(** A move constructor declared [noexcept] does not throw. *)
Definition noexcept_honoured : Prop :=
  is_nothrow_move_constructible = true →
  ∀ x u, (move_construct x u).1.1 ≠ None.

(** The transfer of a reallocation is protected when a failure in it can
    be rolled back: it copies, or it moves with a move constructor that does
    not throw.  What is left out is a move-only type whose move constructor
    throws. *)
Definition transfer_protected : Prop :=
  moves_on_realloc = true → ∀ x u, (move_construct x u).1.1 ≠ None.

(** The constructor calls that relocate the objects [xs], by the policy
    stated in section 4.2 of the specification. *)
Definition relocation (xs : list T) : list (event T) :=
  if is_nothrow_move_constructible || negb is_copy_constructible
  then EvMove <$> xs
  else EvCopy <$> xs.

(** ** What the loops compute, on lists

    The effect of the [<memory>] loops on the objects and on the
    environment, without the slots.  The lemmas [*_eq] below relate each
    loop to its function. *)

(** [destroy_n] over the objects [xs]. *)
Fixpoint destroy_list (xs : list T) (e : Env) : Env :=
  match xs with
  | [] => e
  | x :: xs' => destroy_list xs' (T_destroy x e)
  end.

(** Constructing one object per step, after [done]; when a step throws,
    the objects constructed so far are destroyed. *)
Fixpoint build_list (steps : list (E T)) (done : list T) (e : Env)
    : option (list T) * Env :=
  match steps with
  | [] => (Some done, e)
  | mk :: steps' =>
      match mk e with
      | (Some y, e') => build_list steps' (done ++ [y]) e'
      | (None, e') => (None, destroy_list done e')
      end
  end.

(** [uninitialized_copy_n] from the objects [xs]. *)
Definition copy_list (xs : list T) : E (list T) := build_list (T_copy <$> xs) [].

(** [uninitialized_value_construct_n] of [n] objects. *)
Definition value_list (n : nat) : E (list T) := build_list (replicate n T_value) [].

(** [uninitialized_move_n] from the objects [xs]: also returns the sources
    as the moves leave them ([left] for those already moved from). *)
Fixpoint move_list (xs done left : list T) (e : Env)
    : option (list T) * list T * Env :=
  match xs with
  | [] => (Some done, left, e)
  | x :: xs' =>
      match T_move x e with
      | (Some y, x', e') => move_list xs' (done ++ [y]) (left ++ [x']) e'
      | (None, x', e') => (None, left ++ x' :: xs', destroy_list done e')
      end
  end.

(** [copy_n] assigning the objects [ss] over the objects [ds]: whether it
    completed, and the destination objects afterwards. *)
Fixpoint assign_list (ds ss done : list T) (e : Env) : bool * list T * Env :=
  match ds, ss with
  | d :: ds', s :: ss' =>
      match T_copy_assign d s e with
      | (true, d', e') => assign_list ds' ss' (done ++ [d']) e'
      | (false, d', e') => (false, done ++ d' :: ds', e')
      end
  | _, _ => (true, done ++ ds, e)
  end.

(** [std::move(first + 1, last, first)] over the object [d] followed by the
    objects [ss], as in [Erase]: each object is move-assigned from its right
    neighbour, left to right.  Whether it completed, and the objects
    afterwards; the last one is the moved-from source of the last step. *)
Fixpoint erase_list (d : T) (ss : list T) (e : Env) : bool * list T * Env :=
  match ss with
  | [] => (true, [d], e)
  | s :: ss' =>
      match T_move_assign d s e with
      | (true, d', s', e') =>
          let '(ok, r, e'') := erase_list s' ss' e' in (ok, d' :: r, e'')
      | (false, d', s', e') => (false, d' :: s' :: ss', e')
      end
  end.

(** The transfer of [MoveOrCopyData], by the policy of the element type:
    the new objects (unless it threw), the old ones afterwards, the
    environment. *)
Definition transfer_list (xs : list T) (e : Env) : option (list T) * list T * Env :=
  if moves_on_realloc then move_list xs [] [] e
  else let '(r, e') := copy_list xs e in (r, xs, e').

End VectorModel.

(** ** Element types used in the examples *)

(** A type whose copy assignment throws while the flag of the program state
    is set; its constructors and moves do not throw. *)
Module Stubborn.
#[global] Instance stubborn_element : Element nat bool := {|
  sizeof_T := 4;
  is_nothrow_move_constructible := true;
  is_copy_constructible := true;
  value_construct := λ u, (Some 0, u);
  copy_construct := λ x u, (Some x, u);
  move_construct := λ x u, (Some x, x, u);
  copy_assign := λ d s (u : bool), (negb u, if u then d else s, u);
  move_assign := λ _ s u, (true, s, s, u);
  destroy := λ _ u, u;
  can_allocate := λ _ _, true
|}.
End Stubborn.

(** [int]: trivially copyable, nothing throws, [int()] is [0]. *)
Module IntElement.
#[global] Instance int_element : Element nat unit := {|
  sizeof_T := 4;
  is_nothrow_move_constructible := true;
  is_copy_constructible := true;
  value_construct := λ u, (Some 0, u);
  copy_construct := λ x u, (Some x, u);
  move_construct := λ x u, (Some x, x, u);
  copy_assign := λ _ s u, (true, s, u);
  move_assign := λ _ s u, (true, s, s, u);
  destroy := λ _ u, u;
  can_allocate := λ _ _, true
|}.
End IntElement.

(** [std::unique_ptr<int>], as the integer it owns or [None] for null:
    move-only, moves cannot throw and leave the source null. *)
Module UniquePtr.
#[global] Instance unique_ptr_element : Element (option nat) unit := {|
  sizeof_T := 8;
  is_nothrow_move_constructible := true;
  is_copy_constructible := false;
  value_construct := λ u, (Some None, u);
  copy_construct := λ _ u, (None, u);
  move_construct := λ x u, (Some x, None, u);
  copy_assign := λ d _ u, (false, d, u);
  move_assign := λ _ s u, (true, s, None, u);
  destroy := λ _ u, u;
  can_allocate := λ _ _, true
|}.
End UniquePtr.

(** A test type in the style of section 8 of the specification: copyable,
    with a move constructor that is not [noexcept]; the program state is the
    number of constructions left before the next one throws. *)
Module Fragile.
Definition construct (x : nat) (budget : nat) : option nat * nat :=
  match budget with
  | 0 => (None, 0)
  | S b => (Some x, b)
  end.

#[global] Instance fragile_element : Element nat nat := {|
  sizeof_T := 4;
  is_nothrow_move_constructible := false;
  is_copy_constructible := true;
  value_construct := construct 0;
  copy_construct := construct;
  move_construct := λ x u, let '(r, u') := construct x u in (r, x, u');
  copy_assign := λ _ s u, (true, s, u);
  move_assign := λ _ s u, (true, s, s, u);
  destroy := λ _ u, u;
  can_allocate := λ _ _, true
|}.
End Fragile.

(** ** Vectors and programs used in the examples *)

Definition int_env : Env nat unit := MkEnv tt [].
Definition ptr_env : Env (option nat) unit := MkEnv tt [].

(** An environment in which the next [budget] constructions of a
    [Fragile] object succeed and the one after throws. *)
Definition fragile_env (budget : nat) : Env nat nat := MkEnv budget [].

(** Two [Vector<int>]: [[1]] at address 0 and [[2, 3]] at address 1, both
    full. *)
Definition two_vectors : machine (T:=nat) (U:=unit) :=
  MkMachine (<[0 := rep [1] 0]> (<[1 := rep [2; 3] 0]> ∅)) int_env.

(** Two vectors of the type whose copy assignment throws, with the flag
    set: [[1, 2]] at address 0 and [[3]] at address 1. *)
Definition stubborn_vectors : machine (T:=nat) (U:=bool) :=
  MkMachine (<[0 := rep [1; 2] 0]> (<[1 := rep [3] 0]> ∅)) (MkEnv true []).

(** A program on two [Vector<int>]. *)
Definition small_program : list (call (T:=nat) (U:=unit)) :=
  [CDefault 0; CEmplaceBack 0 (by_copy 7); CSized 1 2; CAssign 0 1; CPopBack 1].

(** * Facts *)

Local Open Scope cpp_scope.

Ltac frame_simpl :=
  unfold set_slots, set_data, set_size, set_this, set_new_data, set_env in *;
  simpl in *.

Section MonadFacts.
Context {S A B : Type}.
Implicit Types (m : St S A) (k : A → St S B).

Lemma bind_ok m k s a s' : m s = (Ok a, s') → st_bind m k s = k a s'.
Proof. unfold st_bind. by intros ->. Qed.

Lemma bind_throw m k s s' : m s = (Throw, s') → st_bind m k s = (Throw, s').
Proof. unfold st_bind. by intros ->. Qed.

Lemma bind_undef m k s s' : m s = (Undef, s') → st_bind m k s = (Undef, s').
Proof. unfold st_bind. by intros ->. Qed.

Lemma try_ok m (h : St S A) s a s' : m s = (Ok a, s') → try_catch m h s = (Ok a, s').
Proof. unfold try_catch. by intros ->. Qed.

Lemma try_throw m (h : St S A) s s' : m s = (Throw, s') → try_catch m h s = h s'.
Proof. unfold try_catch. by intros ->. Qed.

(** Two programs that differ in one step agree where that step does. *)
Lemma bind_congr m (k1 k2 : A → St S B) s :
  (∀ a s', m s = (Ok a, s') → k1 a s' = k2 a s') →
  st_bind m k1 s = st_bind m k2 s.
Proof.
  intros Hk. unfold st_bind. destruct (m s) as [[a| |] s'] eqn:Hm; [by apply Hk|done..].
Qed.

Lemma bind_congr_l (m1 m2 : St S A) (k : A → St S B) s :
  m1 s = m2 s → st_bind m1 k s = st_bind m2 k s.
Proof. intros Hm. unfold st_bind. by rewrite Hm. Qed.

Lemma finally_congr (m1 m2 : St S A) (cleanup : S → S) s :
  m1 s = m2 s → finally m1 cleanup s = finally m2 cleanup s.
Proof. intros Hm. unfold finally. by rewrite Hm. Qed.

End MonadFacts.

Lemma insert_middle {A} (pre : list A) x y post :
  <[length pre := y]> (pre ++ x :: post) = pre ++ y :: post.
Proof. by rewrite insert_app_r_alt, Nat.sub_diag by lia. Qed.

Create HintDb shape discriminated.

Section LoopFacts.
Context {T U : Type} `{!Element T U}.
Implicit Types (st : frame T U) (e : Env T U) (p q : place) (b : RawMemory T).
Implicit Types (xs ys done : list T) (pre post : RawMemory T).

Lemma slots_set_slots p q b st :
  writable p = true →
  slots q (set_slots p b st) = if decide (p = q) then b else slots q st.
Proof. by destruct p, q, st as [[] ? ? ?]. Qed.

Lemma slots_set_env p e st : slots p (set_env e st) = slots p st.
Proof. by destruct p. Qed.

Lemma env_set_slots p b st : env (set_slots p b st) = env st.
Proof. by destruct p. Qed.

Lemma env_set_env e st : env (set_env e st) = e.
Proof. done. Qed.

Lemma load_eq p i x st :
  slots p st !! i = Some (Some x) → load (MkPtr p i) st = (Ok x, st).
Proof. unfold load. simpl. by intros ->. Qed.

Lemma store_eq p pre s s' post st :
  writable p = true → slots p st = pre ++ s :: post →
  store (MkPtr p (length pre)) s' st = (Ok tt, set_slots p (pre ++ s' :: post) st).
Proof.
  intros Hw Hs. unfold store. simpl. rewrite Hw, Hs, insert_middle.
  rewrite bool_decide_true; [done|]. rewrite length_app. simpl. lia.
Qed.

Lemma destroy_at_eq p pre x post st :
  writable p = true → slots p st = pre ++ Some x :: post →
  destroy_at (MkPtr p (length pre)) st =
    (Ok tt, set_slots p (pre ++ None :: post) (set_env (T_destroy x (env st)) st)).
Proof.
  intros Hw Hs. unfold destroy_at.
  erewrite bind_ok; last by (apply load_eq; rewrite Hs; apply list_lookup_middle).
  unfold st_bind, lift_env. simpl.
  by erewrite store_eq; [|done|rewrite slots_set_env].
Qed.

Lemma destroy_n_eq p pre xs post st :
  writable p = true → slots p st = pre ++ (Some <$> xs) ++ post →
  destroy_n (MkPtr p (length pre)) (length xs) st =
    (Ok tt, set_slots p (pre ++ replicate (length xs) None ++ post)
              (set_env (destroy_list xs (env st)) st)).
Proof.
  intros Hw. revert pre st. induction xs as [|x xs IH]; intros pre st Hs; simpl in *.
  - unfold st_ret. f_equal. destruct p, st as [[] ? ? []]; frame_simpl; try done; by rewrite Hs.
  - erewrite bind_ok; last by apply destroy_at_eq.
    unfold ptr_add. simpl.
    replace (length pre + 1) with (length (pre ++ [None])) by (rewrite length_app; simpl; lia).
    rewrite (IH (pre ++ [None])).
    + f_equal. destruct p, st as [[] ? ? []]; frame_simpl; try done; by rewrite <- !app_assoc.
    + rewrite slots_set_slots by done. rewrite decide_True by done. by rewrite <- app_assoc.
Qed.

Lemma construct_at_eq p pre post mk st :
  writable p = true → slots p st = pre ++ None :: post →
  construct_at (MkPtr p (length pre)) mk st =
    match mk (env st) with
    | (Some y, e') => (Ok tt, set_slots p (pre ++ Some y :: post) (set_env e' st))
    | (None, e') => (Throw, set_env e' st)
    end.
Proof.
  intros Hw Hs. unfold construct_at, st_bind, liftE.
  destruct (mk (env st)) as [[y|] e']; [|done].
  by erewrite store_eq; [|done|rewrite slots_set_env].
Qed.

(** The loop of the [uninitialized_*] algorithms, for constructions that
    act on the destination alone; [I] is what they rely on elsewhere in the
    frame. *)
Lemma uninitialized_n_eq (construct : nat → ptr → St (frame T U) unit) p
    (I : frame T U → Prop) steps :
  writable p = true →
  (∀ st b, I st → I (set_slots p b st)) →
  (∀ st e, I st → I (set_env e st)) →
  ∀ done pre post st,
  I st →
  (∀ i mk cur st', steps !! i = Some mk → I st' →
     construct (length done + i) cur st' = construct_at cur mk st') →
  slots p st = pre ++ (Some <$> done) ++ replicate (length steps) None ++ post →
  uninitialized_n construct (MkPtr p (length pre)) (length done) (length steps) st =
    match build_list steps done (env st) with
    | (Some ys, e') =>
        (Ok tt, set_slots p (pre ++ (Some <$> ys) ++ post) (set_env e' st))
    | (None, e') =>
        (Throw, set_slots p (pre ++ replicate (length done + length steps) None ++ post)
                  (set_env e' st))
    end.
Proof.
  intros Hw Islots Ienv. induction steps as [|mk steps IH]; intros done pre post st HI Hc Hs.
  - simpl in *. unfold st_ret. f_equal.
    destruct p, st as [[] ? ? []]; frame_simpl; try done; by rewrite Hs.
  - simpl uninitialized_n. simpl build_list. simpl in Hs.
    specialize (Hc 0 mk) as Hc0. rewrite Nat.add_0_r in Hc0.
    unfold ptr_add; simpl.
    replace (length pre + length done) with (length (pre ++ (Some <$> done)))
      by (by rewrite length_app, length_fmap).
    unfold st_bind at 1. unfold try_catch.
    rewrite Hc0 by done.
    erewrite construct_at_eq; [|done|by rewrite Hs, <- app_assoc].
    destruct (mk (env st)) as [[y|] e1].
    + replace (S (length done)) with (length (done ++ [y])) by (rewrite length_app; simpl; lia).
      rewrite (IH (done ++ [y]) pre post).
      * rewrite env_set_slots, env_set_env.
        destruct (build_list steps (done ++ [y]) e1) as [[ys|] e2]; f_equal.
        -- destruct p, st as [[] ? ? []]; frame_simpl; done.
        -- rewrite length_app. simpl.
           replace (length done + 1 + length steps) with (length done + S (length steps)) by lia.
           destruct p, st as [[] ? ? []]; frame_simpl; done.
      * by apply Islots, Ienv.
      * intros i mk' cur st' Hi HI'. rewrite <- (Hc (S i) mk' cur st') by done.
        f_equal. rewrite length_app. simpl. lia.
      * rewrite slots_set_slots, decide_True by done.
        by rewrite fmap_app, <- !app_assoc.
    + unfold st_bind.
      assert (Hd := destroy_n_eq p pre done (replicate (S (length steps)) None ++ post)
                      (set_env e1 st) Hw).
      simpl in Hd.
      rewrite Hd by (by rewrite slots_set_env).
      unfold throw. f_equal.
      rewrite replicate_add, <- !app_assoc.
      destruct p, st as [[] ? ? []]; frame_simpl; done.
Qed.

Lemma uninitialized_copy_n_eq src dst spre xs spost pre post st :
  src ≠ dst → writable dst = true →
  slots src st = spre ++ (Some <$> xs) ++ spost →
  slots dst st = pre ++ replicate (length xs) None ++ post →
  uninitialized_copy_n (MkPtr src (length spre)) (length xs) (MkPtr dst (length pre)) st =
    match copy_list xs (env st) with
    | (Some ys, e') =>
        (Ok tt, set_slots dst (pre ++ (Some <$> ys) ++ post) (set_env e' st))
    | (None, e') => (Throw, set_env e' st)
    end.
Proof.
  intros Hne Hw Hsrc Hdst. unfold uninitialized_copy_n, copy_list.
  rewrite <- (length_fmap T_copy xs).
  rewrite (uninitialized_n_eq _ dst (λ st', slots src st' = slots src st)
             (T_copy <$> xs) Hw) with (done := []) (pre := pre) (post := post).
  - destruct (build_list _ _ _) as [[ys|] e']; [done|].
    f_equal. simpl. rewrite length_fmap, <- Hdst.
    destruct dst, st as [[] ? ? []]; frame_simpl; done.
  - intros st' b Hst'. by rewrite slots_set_slots, decide_False.
  - intros st' e Hst'. by rewrite slots_set_env.
  - done.
  - intros i mk cur st' Hi Hst'. simpl.
    apply list_lookup_fmap_Some_1 in Hi as (x & -> & Hx).
    unfold construct_copy_at, ptr_add. simpl. erewrite bind_ok; [done|].
    apply load_eq. rewrite Hst', Hsrc.
    rewrite lookup_app_r by lia. rewrite Nat.add_comm, Nat.add_sub.
    rewrite lookup_app_l_Some with (x := Some x); [done|].
    by rewrite list_lookup_fmap, Hx.
  - by rewrite length_fmap.
Qed.

Lemma uninitialized_value_construct_n_eq p pre n post st :
  writable p = true →
  slots p st = pre ++ replicate n None ++ post →
  uninitialized_value_construct_n (MkPtr p (length pre)) n st =
    match value_list n (env st) with
    | (Some ys, e') =>
        (Ok tt, set_slots p (pre ++ (Some <$> ys) ++ post) (set_env e' st))
    | (None, e') => (Throw, set_env e' st)
    end.
Proof.
  intros Hw Hs. unfold uninitialized_value_construct_n, value_list.
  rewrite <- (length_replicate n T_value) at 1.
  rewrite (uninitialized_n_eq _ p (λ _, True) (replicate n T_value) Hw)
    with (done := []) (pre := pre) (post := post); try done.
  - destruct (build_list _ _ _) as [[ys|] e']; [done|].
    f_equal. simpl. rewrite length_replicate, <- Hs.
    destruct p, st as [[] ? ? []]; frame_simpl; done.
  - intros i mk cur st' Hi _. by apply lookup_replicate in Hi as [-> _].
  - by rewrite length_replicate.
Qed.

Lemma construct_move_at_eq src dst spre x spost pre post st :
  src ≠ dst → writable src = true → writable dst = true →
  slots src st = spre ++ Some x :: spost →
  slots dst st = pre ++ None :: post →
  construct_move_at (MkPtr dst (length pre)) (MkPtr src (length spre)) st =
    match T_move x (env st) with
    | (Some y, x', e') =>
        (Ok tt, set_slots dst (pre ++ Some y :: post)
                  (set_slots src (spre ++ Some x' :: spost) (set_env e' st)))
    | (None, x', e') =>
        (Throw, set_slots src (spre ++ Some x' :: spost) (set_env e' st))
    end.
Proof.
  intros Hne Hws Hwd Hsrc Hdst. unfold construct_move_at.
  erewrite bind_ok; last by (apply load_eq; rewrite Hsrc; apply list_lookup_middle).
  unfold st_bind at 1. unfold lift_env.
  destruct (T_move x (env st)) as [[r x'] e']. simpl.
  erewrite bind_ok; last by (eapply store_eq; [done|rewrite slots_set_env]).
  destruct r as [y|]; [|done].
  erewrite store_eq; [done|done|].
  by rewrite slots_set_slots, decide_False, slots_set_env.
Qed.

Lemma uninitialized_move_n_loop src dst spre spost pre post xs :
  src ≠ dst → writable src = true → writable dst = true →
  ∀ done left st,
  length left = length done →
  slots src st = spre ++ (Some <$> left) ++ (Some <$> xs) ++ spost →
  slots dst st = pre ++ (Some <$> done) ++ replicate (length xs) None ++ post →
  uninitialized_n (λ i cur, construct_move_at cur (MkPtr src (length spre) +ₚ i))
      (MkPtr dst (length pre)) (length done) (length xs) st =
    match move_list xs done left (env st) with
    | (Some ys, left', e') =>
        (Ok tt, set_slots dst (pre ++ (Some <$> ys) ++ post)
                  (set_slots src (spre ++ (Some <$> left') ++ spost) (set_env e' st)))
    | (None, left', e') =>
        (Throw, set_slots dst (pre ++ replicate (length done + length xs) None ++ post)
                  (set_slots src (spre ++ (Some <$> left') ++ spost) (set_env e' st)))
    end.
Proof.
  intros Hne Hws Hwd. induction xs as [|x xs IH]; intros done left st Hlen Hsrc Hdst.
  - simpl in *. unfold st_ret. f_equal.
    destruct src, dst, st as [[] ? ? []]; frame_simpl; try done; by rewrite Hsrc, Hdst.
  - simpl uninitialized_n. simpl move_list. simpl in Hsrc, Hdst.
    unfold ptr_add; simpl.
    replace (length pre + length done) with (length (pre ++ (Some <$> done)))
      by (by rewrite length_app, length_fmap).
    replace (length spre + length done) with (length (spre ++ (Some <$> left)))
      by (by rewrite length_app, length_fmap, Hlen).
    unfold st_bind at 1. unfold try_catch.
    erewrite construct_move_at_eq;
      [|done|done|done|by rewrite Hsrc, <- app_assoc|by rewrite Hdst, <- app_assoc].
    destruct (T_move x (env st)) as [[[y|] x'] e1].
    + replace (S (length done)) with (length (done ++ [y])) by (rewrite length_app; simpl; lia).
      rewrite (IH (done ++ [y]) (left ++ [x'])).
      * rewrite env_set_slots, env_set_slots, env_set_env.
        destruct (move_list xs (done ++ [y]) (left ++ [x']) e1) as [[[ys|] left'] e2]; f_equal.
        -- destruct src, dst, st as [[] ? ? []]; frame_simpl; done.
        -- rewrite length_app. simpl.
           replace (length done + 1 + length xs) with (length done + S (length xs)) by lia.
           destruct src, dst, st as [[] ? ? []]; frame_simpl; done.
      * rewrite !length_app. simpl. lia.
      * rewrite slots_set_slots, decide_False by done.
        rewrite slots_set_slots, decide_True by done.
        by rewrite fmap_app, <- !app_assoc.
      * rewrite slots_set_slots, decide_True by done.
        by rewrite fmap_app, <- !app_assoc.
    + unfold st_bind.
      erewrite (destroy_n_eq dst pre done (replicate (S (length xs)) None ++ post) _ Hwd);
        [|by rewrite slots_set_slots, decide_False, slots_set_env].
      unfold throw. f_equal.
      rewrite replicate_add, fmap_app, <- !app_assoc. simpl.
      destruct src, dst, st as [[] ? ? []]; frame_simpl; done.
Qed.

Lemma uninitialized_move_n_eq src dst spre xs spost pre post st :
  src ≠ dst → writable src = true → writable dst = true →
  slots src st = spre ++ (Some <$> xs) ++ spost →
  slots dst st = pre ++ replicate (length xs) None ++ post →
  uninitialized_move_n (MkPtr src (length spre)) (length xs) (MkPtr dst (length pre)) st =
    match move_list xs [] [] (env st) with
    | (Some ys, old, e') =>
        (Ok tt, set_slots dst (pre ++ (Some <$> ys) ++ post)
                  (set_slots src (spre ++ (Some <$> old) ++ spost) (set_env e' st)))
    | (None, old, e') =>
        (Throw, set_slots src (spre ++ (Some <$> old) ++ spost) (set_env e' st))
    end.
Proof.
  intros Hne Hws Hwd Hsrc Hdst. unfold uninitialized_move_n.
  rewrite (uninitialized_move_n_loop src dst spre spost pre post xs Hne Hws Hwd [] []);
    [|done|done|done].
  destruct (move_list xs [] [] (env st)) as [[[ys|] old] e']; [done|].
  f_equal. simpl. rewrite <- Hdst.
  destruct src, dst, st as [[] ? ? []]; frame_simpl; done.
Qed.

(** The same equations with the offsets and counts as the callers have
    them. *)
Lemma destroy_at_at p i pre x post st :
  writable p = true → i = length pre → slots p st = pre ++ Some x :: post →
  destroy_at (MkPtr p i) st =
    (Ok tt, set_slots p (pre ++ None :: post) (set_env (T_destroy x (env st)) st)).
Proof. intros ? ->. by apply destroy_at_eq. Qed.

Lemma destroy_n_at p i n pre xs post st :
  writable p = true → i = length pre → n = length xs →
  slots p st = pre ++ (Some <$> xs) ++ post →
  destroy_n (MkPtr p i) n st =
    (Ok tt, set_slots p (pre ++ replicate (length xs) None ++ post)
              (set_env (destroy_list xs (env st)) st)).
Proof. intros ? -> ->. by apply destroy_n_eq. Qed.

Lemma construct_at_at p i pre post mk st :
  writable p = true → i = length pre → slots p st = pre ++ None :: post →
  construct_at (MkPtr p i) mk st =
    match mk (env st) with
    | (Some y, e') => (Ok tt, set_slots p (pre ++ Some y :: post) (set_env e' st))
    | (None, e') => (Throw, set_env e' st)
    end.
Proof. intros ? ->. by apply construct_at_eq. Qed.

Lemma uninitialized_copy_n_at src dst i j n spre xs spost pre post st :
  src ≠ dst → writable dst = true →
  i = length spre → j = length pre → n = length xs →
  slots src st = spre ++ (Some <$> xs) ++ spost →
  slots dst st = pre ++ replicate (length xs) None ++ post →
  uninitialized_copy_n (MkPtr src i) n (MkPtr dst j) st =
    match copy_list xs (env st) with
    | (Some ys, e') =>
        (Ok tt, set_slots dst (pre ++ (Some <$> ys) ++ post) (set_env e' st))
    | (None, e') => (Throw, set_env e' st)
    end.
Proof. intros ?? -> -> ->. by apply uninitialized_copy_n_eq. Qed.

Lemma uninitialized_move_n_at src dst i j n spre xs spost pre post st :
  src ≠ dst → writable src = true → writable dst = true →
  i = length spre → j = length pre → n = length xs →
  slots src st = spre ++ (Some <$> xs) ++ spost →
  slots dst st = pre ++ replicate (length xs) None ++ post →
  uninitialized_move_n (MkPtr src i) n (MkPtr dst j) st =
    match move_list xs [] [] (env st) with
    | (Some ys, old, e') =>
        (Ok tt, set_slots dst (pre ++ (Some <$> ys) ++ post)
                  (set_slots src (spre ++ (Some <$> old) ++ spost) (set_env e' st)))
    | (None, old, e') =>
        (Throw, set_slots src (spre ++ (Some <$> old) ++ spost) (set_env e' st))
    end.
Proof. intros ??? -> -> ->. by apply uninitialized_move_n_eq. Qed.

Lemma uninitialized_value_construct_n_at p i pre n post st :
  writable p = true → i = length pre →
  slots p st = pre ++ replicate n None ++ post →
  uninitialized_value_construct_n (MkPtr p i) n st =
    match value_list n (env st) with
    | (Some ys, e') =>
        (Ok tt, set_slots p (pre ++ (Some <$> ys) ++ post) (set_env e' st))
    | (None, e') => (Throw, set_env e' st)
    end.
Proof. intros ? ->. by apply uninitialized_value_construct_n_eq. Qed.

Lemma replicate_split {A} (x : A) n m :
  n < m → replicate m x = replicate n x ++ x :: replicate (m - n - 1) x.
Proof.
  intros Hnm. replace m with (n + S (m - n - 1)) at 1 by lia.
  by rewrite replicate_add.
Qed.

Lemma replicate_split_le {A} (x : A) n m :
  n ≤ m → replicate m x = replicate n x ++ replicate (m - n) x.
Proof. intros Hnm. rewrite <- replicate_add. f_equal. lia. Qed.

Lemma preserves_ret {A} (a : A) : preserves (T:=T) (U:=U) (st_ret a).
Proof. done. Qed.

Lemma preserves_throw {A} : preserves (T:=T) (U:=U) (throw (A:=A)).
Proof. done. Qed.

Lemma preserves_undefined {A} : preserves (T:=T) (U:=U) (undefined (A:=A)).
Proof. done. Qed.

Lemma preserves_gets {A} (f : frame T U → A) : preserves (T:=T) (U:=U) (gets f).
Proof. done. Qed.

Lemma preserves_bind {A B} (m : St (frame T U) A) (k : A → St (frame T U) B) :
  preserves m → (∀ a, preserves (k a)) → preserves (st_bind m k).
Proof.
  intros Hm Hk st. unfold st_bind. specialize (Hm st).
  destruct (m st) as [[a| |] st1]; simpl in *; [|done..].
  specialize (Hk a st1). destruct (k a st1) as [r st2]. simpl in *.
  destruct Hm, Hk. split; congruence.
Qed.

Lemma preserves_try {A} (m h : St (frame T U) A) :
  preserves m → preserves h → preserves (try_catch m h).
Proof.
  intros Hm Hh st. unfold try_catch. specialize (Hm st).
  destruct (m st) as [[a| |] st1]; simpl in *; [done| |done].
  specialize (Hh st1). destruct (h st1) as [r st2]. simpl in *.
  destruct Hm, Hh. split; congruence.
Qed.

Lemma preserves_if {A} (b : bool) (m1 m2 : St (frame T U) A) :
  preserves m1 → preserves m2 → preserves (if b then m1 else m2).
Proof. by destruct b. Qed.

Lemma preserves_load (p : ptr) : preserves (T:=T) (U:=U) (load p).
Proof. intros st. unfold load. by repeat case_match. Qed.

Lemma preserves_store (p : ptr) (s : option T) : preserves (T:=T) (U:=U) (store p s).
Proof.
  intros st. unfold store, shape. destruct p as [[] i]; simpl; [| |done].
  - case_bool_decide; simpl; [|done]. by rewrite length_insert.
  - case_bool_decide; simpl; [|done]. by rewrite length_insert.
Qed.

Lemma preserves_liftE {A} (m : Env T U → option A * Env T U) : preserves (T:=T) (U:=U) (liftE m).
Proof. intros st. unfold liftE. by destruct (m (env st)) as [[|] ?]. Qed.

Lemma preserves_lift_env {A} (f : Env T U → A * Env T U) : preserves (T:=T) (U:=U) (lift_env f).
Proof. intros st. unfold lift_env. by destruct (f (env st)). Qed.

Lemma preserves_ptr_sub (p : ptr) (n : nat) : preserves (T:=T) (U:=U) (ptr_sub p n).
Proof. unfold ptr_sub. apply preserves_if; [apply preserves_ret|apply preserves_undefined]. Qed.

Lemma preserves_ptr_diff (p : ptr) (q : ptr) : preserves (T:=T) (U:=U) (ptr_diff p q).
Proof. unfold ptr_diff. apply preserves_if; [apply preserves_ret|apply preserves_undefined]. Qed.

Lemma preserves_size_sub (a : nat) (b : nat) : preserves (T:=T) (U:=U) (size_sub a b).
Proof. unfold size_sub. apply preserves_if; [apply preserves_ret|apply preserves_undefined]. Qed.

#[local] Hint Resolve preserves_ret preserves_throw preserves_undefined preserves_gets
  preserves_load preserves_store preserves_liftE preserves_lift_env
  preserves_ptr_sub preserves_ptr_diff preserves_size_sub : shape.

Ltac preserves_tac :=
  repeat first
    [ apply preserves_bind; [|intros ?]
    | apply preserves_try
    | apply preserves_if
    | match goal with |- preserves (match ?x with _ => _ end) => destruct x end
    | solve [auto with shape] ].

Lemma preserves_construct_at (p : ptr) mk : preserves (T:=T) (U:=U) (construct_at p mk).
Proof. unfold construct_at. preserves_tac. Qed.

Lemma preserves_construct_copy_at (d : ptr) (s : ptr) : preserves (T:=T) (U:=U) (construct_copy_at d s).
Proof. unfold construct_copy_at. preserves_tac; apply preserves_construct_at. Qed.

Lemma preserves_construct_move_at (d : ptr) (s : ptr) : preserves (T:=T) (U:=U) (construct_move_at d s).
Proof. unfold construct_move_at. preserves_tac. Qed.

Lemma preserves_assign_copy (d : ptr) (s : ptr) : preserves (T:=T) (U:=U) (assign_copy d s).
Proof. unfold assign_copy. preserves_tac. Qed.

Lemma preserves_assign_move (d : ptr) (s : ptr) : preserves (T:=T) (U:=U) (assign_move d s).
Proof. unfold assign_move. preserves_tac. Qed.

Lemma preserves_destroy_at (p : ptr) : preserves (T:=T) (U:=U) (destroy_at p).
Proof. unfold destroy_at. preserves_tac. Qed.

#[local] Hint Resolve preserves_construct_at preserves_construct_copy_at
  preserves_construct_move_at preserves_assign_copy preserves_assign_move
  preserves_destroy_at : shape.

Lemma preserves_destroy_n (p : ptr) (n : nat) : preserves (T:=T) (U:=U) (destroy_n p n).
Proof. revert p. induction n as [|n IH]; intros p; simpl; preserves_tac; apply IH. Qed.

#[local] Hint Resolve preserves_destroy_n : shape.

Lemma preserves_uninitialized_n (construct : nat → ptr → St (frame T U) unit) (result : ptr) (i n : nat) :
  (∀ j cur, preserves (T:=T) (U:=U) (construct j cur)) →
  preserves (T:=T) (U:=U) (uninitialized_n construct result i n).
Proof.
  intros Hc. revert i. induction n as [|n IH]; intros i; simpl; preserves_tac;
    first [apply Hc|apply IH].
Qed.

Lemma preserves_uninitialized_value_construct_n (p : ptr) (n : nat) :
  preserves (T:=T) (U:=U) (uninitialized_value_construct_n p n).
Proof. apply preserves_uninitialized_n. auto with shape. Qed.

Lemma preserves_uninitialized_copy_n (p : ptr) (n : nat) (q : ptr) : preserves (T:=T) (U:=U) (uninitialized_copy_n p n q).
Proof. apply preserves_uninitialized_n. auto with shape. Qed.

Lemma preserves_uninitialized_move_n (p : ptr) (n : nat) (q : ptr) : preserves (T:=T) (U:=U) (uninitialized_move_n p n q).
Proof. apply preserves_uninitialized_n. auto with shape. Qed.

Lemma preserves_copy_n (p : ptr) (n : nat) (q : ptr) : preserves (T:=T) (U:=U) (copy_n p n q).
Proof. revert p q. induction n as [|n IH]; intros p q; simpl; preserves_tac; apply IH. Qed.

Lemma preserves_move_n (p : ptr) (n : nat) (q : ptr) : preserves (T:=T) (U:=U) (move_n p n q).
Proof. revert p q. induction n as [|n IH]; intros p q; simpl; preserves_tac; apply IH. Qed.

Lemma preserves_move_backward_n (p : ptr) (n : nat) (q : ptr) : preserves (T:=T) (U:=U) (move_backward_n p n q).
Proof. revert p q. induction n as [|n IH]; intros p q; simpl; preserves_tac; apply IH. Qed.

#[local] Hint Resolve preserves_uninitialized_value_construct_n preserves_uninitialized_copy_n
  preserves_uninitialized_move_n preserves_copy_n preserves_move_n
  preserves_move_backward_n : shape.

Lemma preserves_std_move (p : ptr) (q : ptr) (r : ptr) : preserves (T:=T) (U:=U) (std_move p q r).
Proof. unfold std_move. preserves_tac. Qed.

Lemma preserves_move_backward (p : ptr) (q : ptr) (r : ptr) : preserves (T:=T) (U:=U) (move_backward p q r).
Proof. unfold move_backward. preserves_tac. Qed.

Lemma preserves_MoveOrCopyData (p q : place) (n : nat) : preserves (T:=T) (U:=U) (MoveOrCopyData p q n).
Proof. unfold MoveOrCopyData. preserves_tac. Qed.

Lemma preserves_RawMemory_plus (p : place) (n : nat) : preserves (T:=T) (U:=U) (RawMemory_plus p n).
Proof. unfold RawMemory_plus. preserves_tac. Qed.

Lemma preserves_RawMemory_index (p : place) (n : nat) : preserves (T:=T) (U:=U) (RawMemory_index p n).
Proof. unfold RawMemory_index. preserves_tac. Qed.

#[local] Hint Resolve preserves_std_move preserves_move_backward preserves_MoveOrCopyData
  preserves_RawMemory_plus preserves_RawMemory_index : shape.

End LoopFacts.

#[global] Hint Resolve preserves_ret
  preserves_throw
  preserves_undefined
  preserves_gets
  preserves_load
  preserves_store
  preserves_liftE
  preserves_lift_env
  preserves_ptr_sub
  preserves_ptr_diff
  preserves_size_sub
  preserves_construct_at
  preserves_construct_copy_at
  preserves_construct_move_at
  preserves_assign_copy
  preserves_assign_move
  preserves_destroy_at
  preserves_destroy_n
  preserves_uninitialized_value_construct_n
  preserves_uninitialized_copy_n
  preserves_uninitialized_move_n
  preserves_copy_n
  preserves_move_n
  preserves_move_backward_n
  preserves_std_move
  preserves_move_backward
  preserves_MoveOrCopyData
  preserves_RawMemory_plus
  preserves_RawMemory_index : shape.

Ltac preserves_tac :=
  repeat first
    [ apply preserves_bind; [|intros ?]
    | apply preserves_try
    | apply preserves_if
    | match goal with |- preserves (match ?x with _ => _ end) => destruct x end
    | solve [auto with shape] ].

Section ListFacts.
Context {T U : Type} `{!Element T U}.
Implicit Types (e : Env T U) (xs ys done old : list T).

Lemma destroy_list_app xs ys e :
  destroy_list (xs ++ ys) e = destroy_list ys (destroy_list xs e).
Proof. revert e. induction xs as [|x xs IH]; intros e; simpl; [done|apply IH]. Qed.

Lemma build_list_length steps done e ys e' :
  build_list steps done e = (Some ys, e') → length ys = length done + length steps.
Proof.
  revert done e. induction steps as [|mk steps IH]; intros done e Hb; simpl in *.
  - injection Hb as <- _. lia.
  - destruct (mk e) as [[y|] e1]; [|done].
    apply IH in Hb. rewrite length_app in Hb. simpl in Hb. lia.
Qed.

Lemma copy_list_length xs e ys e' :
  copy_list xs e = (Some ys, e') → length ys = length xs.
Proof. intros Hc%build_list_length. by rewrite length_fmap in Hc. Qed.

Lemma value_list_length n e ys e' :
  value_list n e = (Some ys, e') → length ys = n.
Proof. intros Hc%build_list_length. by rewrite length_replicate in Hc. Qed.

Lemma move_list_length xs done old0 e r old e' :
  move_list xs done old0 e = (r, old, e') →
  length old = length old0 + length xs ∧
  ∀ ys, r = Some ys → length ys = length done + length xs.
Proof.
  revert done old0 e. induction xs as [|x xs IH]; intros done old0 e Hm; simpl in *.
  - injection Hm as <- <- _. split; [lia|]. intros ys [= <-]. lia.
  - destruct (T_move x e) as [[[y|] x'] e1].
    + apply IH in Hm as [Hold Hys]. rewrite length_app in Hold. simpl in Hold.
      split; [lia|]. intros ys Hr. rewrite (Hys ys Hr), length_app. simpl. lia.
    + injection Hm as <- <- _. rewrite length_app. simpl. split; [lia|done].
Qed.

Lemma transfer_list_length xs e r old e' :
  transfer_list xs e = (r, old, e') →
  length old = length xs ∧ ∀ ys, r = Some ys → length ys = length xs.
Proof.
  unfold transfer_list. destruct moves_on_realloc.
  - intros Hm%move_list_length. simpl in Hm. done.
  - destruct (copy_list xs e) as [r1 e1] eqn:Hc. intros [= <- <- <-].
    split; [done|]. intros ys ->. by eapply copy_list_length.
Qed.

Lemma move_list_nothrow xs done old0 e :
  (∀ x u, (move_construct x u).1.1 ≠ None) →
  (move_list xs done old0 e).1.1 ≠ None.
Proof.
  intros Hm. revert done old0 e. induction xs as [|x xs IH]; intros acc old0 e; simpl; [done|].
  unfold T_move. simpl. specialize (Hm x (user e)).
  destruct (move_construct x (user e)) as [[[y|] x'] u]; [apply IH|done].
Qed.

Lemma T_copy_constructs x : nothrow → constructs (T_copy x).
Proof.
  intros (_ & Hc & _) e. unfold T_copy. simpl. specialize (Hc x (user e)).
  by destruct (copy_construct x (user e)) as [[y|] u].
Qed.


Lemma by_move_constructs x : nothrow → constructs (by_move x).
Proof.
  intros (_ & _ & Hm & _) e. unfold by_move, T_move. simpl. specialize (Hm x (user e)).
  by destruct (move_construct x (user e)) as [[[y|] x'] u].
Qed.

Lemma build_list_constructs (steps : list (Env T U → option T * Env T U)) acc e :
  Forall constructs steps → (build_list steps acc e).1 ≠ None.
Proof.
  intros Hs. revert acc e. induction Hs as [|mk steps Hmk _ IH]; intros acc e; simpl; [done|].
  specialize (Hmk e). destruct (mk e) as [[y|] e1]; [apply IH|done].
Qed.

Lemma copy_list_nothrow xs e : nothrow → (copy_list xs e).1 ≠ None.
Proof.
  intros Hn. apply build_list_constructs, Forall_fmap, Forall_forall.
  intros x _. by apply T_copy_constructs.
Qed.


Lemma transfer_list_nothrow xs e : nothrow → (transfer_list xs e).1.1 ≠ None.
Proof.
  intros Hn. unfold transfer_list. destruct moves_on_realloc.
  - apply move_list_nothrow. apply Hn.
  - pose proof (copy_list_nothrow xs e Hn) as Hc. by destruct (copy_list xs e).
Qed.

Lemma transfer_list_movable xs e :
  nothrow ∨ nothrow_movable → (transfer_list xs e).1.1 ≠ None.
Proof.
  intros [Hn|(Hmv & Hm & _)]; [by apply transfer_list_nothrow|].
  unfold transfer_list, moves_on_realloc. rewrite Hmv. cbn [orb].
  by apply move_list_nothrow.
Qed.

Lemma can_allocate_movable n (u : U) :
  nothrow ∨ nothrow_movable → can_allocate (T:=T) n u = true.
Proof. intros [Hn|Hn]; apply Hn. Qed.

Lemma assign_list_nothrow ds ss acc e : nothrow → (assign_list ds ss acc e).1.1 = true.
Proof.
  intros Hn. revert ss acc e. induction ds as [|d ds IH]; intros [|s ss] acc e; simpl; try done.
  unfold T_copy_assign. simpl. destruct Hn as (_ & _ & _ & Ha & _).
  specialize (Ha d s (user e)).
  destruct (copy_assign d s (user e)) as [[[] d'] u]; [apply IH|done].
Qed.

End ListFacts.

Lemma frame_ext {T U} (d d' : RawMemory T) s s' (nd nd' : RawMemory T) o (e e' : Env T U) :
  d = d' → s = s' → nd = nd' → e = e' →
  MkFrame (MkVector d s) nd o e = MkFrame (MkVector d' s') nd' o e'.
Proof. by intros -> -> -> ->. Qed.

(** Frames are kept in constructor form between the steps of a proof. *)
Ltac norm :=
  unfold set_slots, set_data, set_size, set_this, set_new_data, set_env, enter;
  cbn [this new_data other env data_ size_ slots base off fst snd].
Ltac list_tac :=
  rewrite ?fmap_app, ?app_nil_r, ?length_app, ?length_fmap, ?length_replicate;
  rewrite <- ?app_assoc; simpl; try done; try lia.
Ltac slots_tac := norm; unfold rep; norm; list_tac.
Ltac len_tac := list_tac.
Ltac frame_eq :=
  norm; unfold rep; norm;
  lazymatch goal with
  | |- (_, _) = (_, _) => apply (f_equal2 pair); [try done|]
  | _ => idtac
  end;
  apply frame_ext; list_tac.

Ltac shaped_tac :=
  let st := fresh "st" in
  intros st [? ?]; unfold shaped, shape, size_le_capacity, capacity in *;
  norm; simplify_eq; simpl; repeat split; try done; repeat f_equal; try lia.

Section MethodFacts.
Context {T U : Type} `{!Element T U}.
Implicit Types (st : frame T U) (e : Env T U) (o : Vector T).
Implicit Types (xs ys old : list T) (post : RawMemory T).

Lemma rep_capacity xs k : length (data_ (rep xs k : Vector T)) = length xs + k.
Proof. simpl. by rewrite length_app, length_fmap, length_replicate. Qed.

Lemma MoveOrCopyData_eq n xs k post st :
  n = length xs →
  this st = rep xs k →
  new_data st = replicate (length xs) None ++ post →
  MoveOrCopyData Data NewData n st =
    match transfer_list xs (env st) with
    | (Some ys, old, e') =>
        (Ok tt, MkFrame (MkVector ((Some <$> old) ++ replicate k None) (length xs))
                  ((Some <$> ys) ++ post) (other st) e')
    | (None, old, e') =>
        (Throw, MkFrame (MkVector ((Some <$> old) ++ replicate k None) (length xs))
                  (replicate (length xs) None ++ post) (other st) e')
    end.
Proof.
  intros -> Hthis Hnew. unfold MoveOrCopyData, transfer_list, GetAddress.
  destruct moves_on_realloc.
  - rewrite (uninitialized_move_n_eq Data NewData [] xs (replicate k None) [] post);
      [|done|done|done|by simpl; rewrite Hthis|done].
    destruct (move_list xs [] [] (env st)) as [[[ys|] old] e'];
      destruct st as [[] ? ? []]; unfold rep in *; frame_simpl; by simplify_eq.
  - rewrite (uninitialized_copy_n_eq Data NewData [] xs (replicate k None) [] post);
      [|done|done|by simpl; rewrite Hthis|done].
    destruct (copy_list xs (env st)) as [[ys|] e'];
      destruct st as [[] ? ? []]; unfold rep in *; frame_simpl; by simplify_eq.
Qed.

Lemma Reserve_eq n xs k o e :
  Reserve n (enter (rep xs k) o e) =
    if bool_decide (n ≤ length xs + k) then (Ok tt, enter (rep xs k) o e)
    else if can_allocate n (user e) then
      match transfer_list xs e with
      | (Some ys, old, e') =>
          (Ok tt, enter (rep ys (n - length xs)) o (destroy_list old e'))
      | (None, old, e') => (Throw, enter (rep old k) o e')
      end
    else (Throw, enter (rep xs k) o e).
Proof.
  unfold Reserve. unfold st_bind at 1. unfold Capacity, gets.
  simpl. rewrite !length_app, !length_fmap, !length_replicate. case_bool_decide as Hn; [done|].
  unfold with_new_data, Allocate. rewrite bool_decide_true by lia.
  unfold st_bind at 1. unfold st_bind at 1. unfold gets. simpl.
  destruct (can_allocate n (user e)); [|done].
  unfold st_ret, st_bind at 1, modify, finally. simpl.
  replace (replicate n None) with
    (replicate (length xs) None ++ replicate (n - length xs) (@None T))
    by (rewrite <- replicate_add; f_equal; lia).
  unfold st_bind at 1. unfold Size, gets. simpl.
  unfold st_bind at 1.
  rewrite (MoveOrCopyData_eq _ xs k (replicate (n - length xs) None)) by done.
  simpl.
  destruct (transfer_list xs e) as [[[ys|] old] e'] eqn:Ht;
    apply transfer_list_length in Ht as [Hold Hys].
  - specialize (Hys ys eq_refl).
    unfold st_bind at 1, GetAddress.
    rewrite (destroy_n_at Data _ _ [] old (replicate k None)) by done.
    unfold RawMemory_Swap, modify, enter, rep. frame_simpl.
    by rewrite Hys.
  - unfold enter, rep. by rewrite Hold.
Qed.

Lemma grown_gt n : n < grown n.
Proof. unfold grown. case_bool_decide; lia. Qed.

Lemma EmplaceBack_eq args xs k o e :
  EmplaceBack args (enter (rep xs k) o e) =
    if bool_decide (k = 0) then
      if can_allocate (grown (length xs)) (user e) then
        match args e with
        | (Some y, e1) =>
            match transfer_list xs e1 with
            | (Some ys, old, e2) =>
                (Ok (MkPtr Data (length xs)),
                 enter (rep (ys ++ [y]) (grown (length xs) - length xs - 1)) o
                   (destroy_list old e2))
            | (None, old, e2) => (Throw, enter (rep old k) o e2)
            end
        | (None, e1) => (Throw, enter (rep xs k) o e1)
        end
      else (Throw, enter (rep xs k) o e)
    else
      match args e with
      | (Some y, e1) => (Ok (MkPtr Data (length xs)), enter (rep (xs ++ [y]) (k - 1)) o e1)
      | (None, e1) => (Throw, enter (rep xs k) o e1)
      end.
Proof.
  unfold EmplaceBack. unfold st_bind at 1. unfold Size, gets. simpl.
  unfold st_bind at 1. unfold Capacity, gets. simpl.
  rewrite !length_app, !length_fmap, !length_replicate.
  pose proof (grown_gt (length xs)) as Hg.
  destruct (decide (k = 0)) as [->|Hk].
  - rewrite !bool_decide_true by lia.
    unfold st_bind at 1. unfold with_new_data, Allocate.
    rewrite bool_decide_true by lia.
    unfold st_bind at 1. unfold st_bind at 1. unfold gets. simpl.
    destruct (can_allocate (grown (length xs)) (user e)); [|done].
    unfold st_ret, st_bind at 1, modify, finally. simpl.
    replace (replicate (grown (length xs)) None) with
      (replicate (length xs) None ++ None :: replicate (grown (length xs) - length xs - 1) (@None T)).
    2:{ by rewrite <- replicate_split. }
    unfold st_bind at 1. unfold RawMemory_plus, st_bind at 1, gets. simpl.
    rewrite length_app, length_replicate. simpl.
    rewrite bool_decide_true by lia. unfold st_ret.
    unfold st_bind at 1.
    rewrite (construct_at_at NewData _ (replicate (length xs) None)
               (replicate (grown (length xs) - length xs - 1) None));
      [|done|by rewrite length_replicate|done].
    simpl. destruct (args e) as [[y|] e1]; [|done].
    unfold st_bind at 1.
    rewrite (MoveOrCopyData_eq _ xs 0 (Some y :: replicate (grown (length xs) - length xs - 1) None))
      by done.
    simpl.
    destruct (transfer_list xs e1) as [[[ys|] old] e2] eqn:Ht;
      apply transfer_list_length in Ht as [Hold Hys].
    + specialize (Hys ys eq_refl).
      unfold st_bind at 1, GetAddress.
      rewrite (destroy_n_at Data _ _ [] old (replicate 0 None)) by done.
      unfold RawMemory_Swap, modify, enter, rep, st_bind, st_ret. frame_simpl.
      rewrite fmap_app, <- app_assoc, length_app, Hys. simpl. done.
    + unfold enter, rep. by rewrite Hold.
  - rewrite bool_decide_false, (bool_decide_false (k = 0)) by lia.
    unfold st_bind at 1. unfold st_bind at 1. unfold RawMemory_plus, st_bind at 1, gets. simpl.
    rewrite length_app, length_fmap, length_replicate.
    rewrite bool_decide_true by lia. unfold st_ret.
    destruct k as [|k]; [done|]. simpl replicate.
    rewrite (construct_at_at Data _ (Some <$> xs) (replicate k None));
      [|done|by rewrite length_fmap|done].
    simpl. destruct (args e) as [[y|] e1]; [|done].
    unfold modify, enter, rep, st_bind, st_ret. frame_simpl.
    by rewrite fmap_app, <- app_assoc, length_app, Nat.sub_0_r.
Qed.

Lemma build_list_faithful (steps : list (Env T U → option T * Env T U)) zs done e ys e' :
  Forall2 (λ mk z, ∀ e1 y e2, mk e1 = (Some y, e2) → y = z) steps zs →
  build_list steps done e = (Some ys, e') → ys = done ++ zs.
Proof.
  intros HF. revert done e. induction HF as [|mk z steps zs Hmk _ IH]; intros done e Hb; simpl in *.
  - injection Hb as <- _. by rewrite app_nil_r.
  - destruct (mk e) as [[y|] e1] eqn:Hy; [|done].
    apply Hmk in Hy as ->. apply IH in Hb. by rewrite <- app_assoc in Hb.
Qed.

Lemma T_copy_faithful x e y e' :
  copies_faithfully → T_copy x e = (Some y, e') → y = x.
Proof.
  intros Hc. unfold T_copy. simpl.
  destruct (copy_construct x (user e)) as [r u] eqn:Hx. intros [= -> _]. eauto.
Qed.

Lemma copy_list_faithful xs e ys e' :
  copies_faithfully → copy_list xs e = (Some ys, e') → ys = xs.
Proof.
  intros Hc Hb. eapply (build_list_faithful _ xs []) in Hb; [done|].
  apply Forall2_fmap_l, Forall_Forall2_diag, Forall_forall.
  intros x _ e1 y e2. by apply T_copy_faithful.
Qed.

Lemma move_list_faithful xs done old0 e ys old e' :
  moves_faithfully → move_list xs done old0 e = (Some ys, old, e') → ys = done ++ xs.
Proof.
  intros Hm. revert done old0 e. induction xs as [|x xs IH]; intros done old0 e Hb; simpl in *.
  - injection Hb as <- _ _. by rewrite app_nil_r.
  - unfold T_move in Hb. simpl in Hb.
    destruct (move_construct x (user e)) as [[r x'] u] eqn:Hx.
    destruct r as [y|]; [|done].
    apply Hm in Hx as ->. apply IH in Hb. by rewrite <- app_assoc in Hb.
Qed.

Lemma transfer_list_faithful xs e ys old e' :
  copies_faithfully → moves_faithfully →
  transfer_list xs e = (Some ys, old, e') → ys = xs.
Proof.
  intros Hc Hm. unfold transfer_list. destruct moves_on_realloc.
  - by apply move_list_faithful.
  - destruct (copy_list xs e) as [r e1] eqn:Hx. intros [= -> _ _].
    by eapply copy_list_faithful.
Qed.

Lemma at_rep xs k i x st :
  this st = rep xs k → xs !! i = Some x → at_ i st = (Ok x, st).
Proof.
  intros Hthis Hx. unfold at_, Vector_index, st_bind, Size, gets, RawMemory_index.
  simpl. rewrite Hthis. simpl.
  apply lookup_lt_Some in Hx as Hi.
  rewrite bool_decide_true by done. unfold st_bind, gets. simpl. rewrite Hthis. simpl.
  rewrite length_app, length_fmap, bool_decide_true by lia.
  unfold st_ret. apply load_eq. simpl. rewrite Hthis. simpl.
  rewrite lookup_app_l by (by rewrite length_fmap).
  by rewrite list_lookup_fmap, Hx.
Qed.

Lemma PushBack_all_rep ys xs k o e :
  copies_faithfully → moves_faithfully →
  match PushBack_all ys (enter (rep xs k) o e) with
  | (Ok _, st') => ∃ k' e', st' = enter (rep (xs ++ ys) k') o e'
  | (Throw, _) => True
  | (Undef, _) => False
  end.
Proof.
  intros Hc Hm. revert xs k e. induction ys as [|y ys IH]; intros xs k e; simpl.
  - exists k, e. by rewrite app_nil_r.
  - unfold PushBack. unfold st_bind at 1. unfold st_bind at 1.
    rewrite EmplaceBack_eq. unfold by_copy.
    unfold st_ret.
    destruct (bool_decide (k = 0)); [destruct (can_allocate _ _); [|done]|];
      (destruct (T_copy y e) as [[z|] e1] eqn:Hy; [|done]);
      (apply T_copy_faithful in Hy as ->; [|done]).
    + destruct (transfer_list xs e1) as [[[zs|] old] e2] eqn:Ht; [|done].
      apply transfer_list_faithful in Ht as ->; [|done..].
      specialize (IH (xs ++ [y]) (grown (length xs) - length xs - 1) (destroy_list old e2)).
      rewrite <- app_assoc in IH. apply IH.
    + specialize (IH (xs ++ [y]) (k - 1) e1).
      rewrite <- app_assoc in IH. apply IH.
Qed.

Lemma grown_max n : grown n = Nat.max 1 (2 * n).
Proof. unfold grown. case_bool_decide; lia. Qed.

Lemma EmplaceBack_grows args xs k o e :
  match EmplaceBack args (enter (rep xs k) o e) with
  | (Ok _, st') =>
      ∃ ys k' e', st' = enter (rep ys k') o e' ∧ length ys = length xs + 1 ∧
        length ys + k' =
          if bool_decide (k = 0) then Nat.max 1 (2 * (length xs + k)) else length xs + k
  | (Throw, _) => True
  | (Undef, _) => False
  end.
Proof.
  rewrite EmplaceBack_eq. pose proof (grown_gt (length xs)) as Hg.
  case_bool_decide as Hk.
  - subst k. destruct (can_allocate _ _); [|done].
    destruct (args e) as [[y|] e1]; [|done].
    destruct (transfer_list xs e1) as [[[ys|] old] e2] eqn:Ht; [|done].
    apply transfer_list_length in Ht as [_ Hys]. specialize (Hys ys eq_refl).
    eexists _, _, _. split; [done|]. rewrite length_app, Hys, Nat.add_0_r, <- grown_max.
    simpl. lia.
  - destruct (args e) as [[y|] e1]; [|done].
    eexists _, _, _. split; [done|]. rewrite length_app. simpl. lia.
Qed.

Lemma EmplaceBack_all_grows argss xs k o e :
  length xs + k = cap_after (length xs) →
  match EmplaceBack_all argss (enter (rep xs k) o e) with
  | (Ok _, st') =>
      size_ (this st') = length xs + length argss ∧
      capacity (this st') = cap_after (length xs + length argss)
  | (Throw, _) => True
  | (Undef, _) => False
  end.
Proof.
  revert xs k e. induction argss as [|args argss IH]; intros xs k e Hcap; simpl.
  - rewrite Nat.add_0_r. split; [done|]. unfold capacity. by rewrite rep_capacity.
  - unfold st_bind at 1.
    pose proof (EmplaceBack_grows args xs k o e) as Hstep.
    destruct (EmplaceBack args (enter (rep xs k) o e)) as [[p| |] st1]; [|done..].
    destruct Hstep as (ys & k' & e' & -> & Hlen & Hk').
    specialize (IH ys k' e').
    replace (length xs + S (length argss)) with (length ys + length argss) by lia.
    apply IH. rewrite Hk', Hlen, Nat.add_1_r. simpl.
    rewrite <- Hcap.
    destruct (decide (k = 0)) as [->|Hk].
    + rewrite !bool_decide_true by lia. lia.
    + rewrite !bool_decide_false by lia. lia.
Qed.

Lemma EmplaceBack_returns args xs k o e :
  nothrow → constructs args →
  ∃ p st', EmplaceBack args (enter (rep xs k) o e) = (Ok p, st').
Proof.
  intros Hn Hargs. rewrite EmplaceBack_eq.
  assert (∀ n u, can_allocate (T:=T) n u = true) as Ha by apply Hn.
  specialize (Hargs e).
  pose proof (transfer_list_nothrow xs) as Ht.
  case_bool_decide.
  - rewrite Ha. destruct (args e) as [[y|] e1]; [|done].
    specialize (Ht e1 Hn). destruct (transfer_list xs e1) as [[[ys|] old] e2]; [|done].
    eauto.
  - destruct (args e) as [[y|] e1]; [|done]. eauto.
Qed.

Lemma EmplaceBack_all_returns argss xs k o e :
  nothrow → Forall constructs argss →
  ∃ st', EmplaceBack_all argss (enter (rep xs k) o e) = (Ok tt, st').
Proof.
  intros Hn Hs. revert xs k e. induction Hs as [|args argss Hargs _ IH]; intros xs k e; simpl.
  - eauto.
  - unfold st_bind at 1.
    destruct (EmplaceBack_returns args xs k o e Hn Hargs) as (p & st1 & Hstep).
    pose proof (EmplaceBack_grows args xs k o e) as Hg. rewrite Hstep in *.
    destruct Hg as (ys & k' & e' & -> & _). apply IH.
Qed.

Lemma PushBack_all_returns ys xs k o e :
  nothrow → ∃ st', PushBack_all ys (enter (rep xs k) o e) = (Ok tt, st').
Proof.
  intros Hn. revert xs k e. induction ys as [|y ys IH]; intros xs k e; simpl.
  - eauto.
  - unfold PushBack. unfold st_bind at 1. unfold st_bind at 1.
    destruct (EmplaceBack_returns (by_copy y) xs k o e Hn (T_copy_constructs y Hn))
      as (p & st1 & Hstep).
    pose proof (EmplaceBack_grows (by_copy y) xs k o e) as Hg. rewrite Hstep in *.
    destruct Hg as (zs & k' & e' & -> & _). unfold st_ret. apply IH.
Qed.

Lemma Reserve_returns n xs k o e :
  nothrow → ∃ st', Reserve n (enter (rep xs k) o e) = (Ok tt, st').
Proof.
  intros Hn. rewrite Reserve_eq.
  assert (∀ n u, can_allocate (T:=T) n u = true) as Ha by apply Hn.
  case_bool_decide; [eauto|]. rewrite Ha.
  pose proof (transfer_list_nothrow xs e Hn) as Ht.
  destruct (transfer_list xs e) as [[[ys|] old] e1]; [eauto|done].
Qed.

(** C5: [n] successful appends to an empty vector leave [Size() = n]; an
    append with spare capacity keeps the capacity, an append to a full vector
    reallocates to [max(1, 2 * capacity)], so the capacities run
    0, 1, 2, 4, 8, ...; no append has undefined behaviour, and when nothing
    throws the appends do return. *)
Theorem C5_append_size_and_doubling :
  (∀ (args : Env T U → option T * Env T U) xs k o e,
     match EmplaceBack args (enter (rep xs k) o e) with
     | (Ok _, st') =>
         size_ (this st') = size_ (rep xs k) + 1 ∧
         capacity (this st') =
           if bool_decide (size_ (rep xs k) = capacity (rep xs k))
           then Nat.max 1 (2 * capacity (rep xs k))
           else capacity (rep xs k)
     | (Throw, _) => True
     | (Undef, _) => False
     end) ∧
  (∀ (argss : list (Env T U → option T * Env T U)) o e,
     match EmplaceBack_all argss (enter (MkVector [] 0) o e) with
     | (Ok _, st') =>
         size_ (this st') = length argss ∧
         capacity (this st') = cap_after (length argss)
     | (Throw, _) => True
     | (Undef, _) => False
     end) ∧
  (∀ (argss : list (Env T U → option T * Env T U)) o e,
     nothrow → Forall constructs argss →
     ∃ st', EmplaceBack_all argss (enter (MkVector [] 0) o e) = (Ok tt, st') ∧
            size_ (this st') = length argss ∧
            capacity (this st') = cap_after (length argss)) ∧
  (∀ n, 0 < n → ∃ j, cap_after n = 2 ^ j ∧ 2 ^ j < 2 * n ≤ 2 * 2 ^ j).
Proof.
  split; [|split; [|split]].
  - intros args xs k o e.
    pose proof (EmplaceBack_grows args xs k o e) as Hstep.
    destruct (EmplaceBack args (enter (rep xs k) o e)) as [[p| |] st1]; [|done..].
    destruct Hstep as (ys & k' & e' & -> & Hlen & Hk').
    unfold capacity, enter. simpl this. rewrite !rep_capacity. simpl size_.
    split; [done|]. rewrite Hk'. destruct (decide (k = 0)) as [->|Hk].
    + by rewrite !bool_decide_true by lia.
    + by rewrite !bool_decide_false by lia.
  - intros argss o e. apply (EmplaceBack_all_grows argss [] 0 o e). done.
  - intros argss o e Hn Hs.
    destruct (EmplaceBack_all_returns argss [] 0 o e Hn Hs) as [st' Hst].
    pose proof (EmplaceBack_all_grows argss [] 0 o e eq_refl) as Hg.
    rewrite Hst in Hg. by exists st'.
  - intros n. induction n as [|n IH]; [lia|]. intros _. simpl.
    destruct n as [|n].
    + exists 0. simpl. lia.
    + destruct IH as (j & Hj & Hlo & Hhi); [lia|].
      case_bool_decide as Heq.
      * exists (S j). rewrite Hj in *. rewrite Nat.pow_succ_r'. lia.
      * exists j. rewrite Hj in *. lia.
Qed.

(** C4: appending the values [xs] one by one to an empty vector and reading
    indices [0 .. N-1] back yields [xs] in order, whatever reallocations
    happened on the way, for an element type whose copies and moves preserve
    the value; when nothing throws the appends return, and the vector then
    holds exactly [xs]. *)
Theorem C4_push_back_round_trip xs o e :
  copies_faithfully → moves_faithfully →
  match PushBack_all xs (enter (MkVector [] 0) o e) with
  | (Ok _, st') =>
      size_ (this st') = length xs ∧
      ∀ i x, xs !! i = Some x → at_ i st' = (Ok x, st')
  | (Throw, _) => True
  | (Undef, _) => False
  end ∧
  (nothrow →
   ∃ k' e', PushBack_all xs (enter (MkVector [] 0) o e) = (Ok tt, enter (rep xs k') o e')).
Proof.
  intros Hc Hm. pose proof (PushBack_all_rep xs [] 0 o e Hc Hm) as Hrep.
  change (rep [] 0) with (MkVector (T:=T) [] 0) in Hrep. split.
  - destruct (PushBack_all xs (enter (MkVector [] 0) o e)) as [[[]| |] st']; [|done..].
    destruct Hrep as (k' & e' & ->). simpl. split; [done|].
    intros i x Hx. by eapply at_rep.
  - intros Hn. destruct (PushBack_all_returns xs [] 0 o e Hn) as [st' Hst].
    change (rep [] 0) with (MkVector (T:=T) [] 0) in Hst.
    rewrite Hst in Hrep. destruct Hrep as (k' & e' & ->). by exists k', e'.
Qed.

Lemma EmplaceRealloc_eq args xs1 xs2 o e :
  let n := length (xs1 ++ xs2) in
  EmplaceRealloc (begin_ +ₚ length xs1) args (enter (rep (xs1 ++ xs2) 0) o e) =
    if can_allocate (grown n) (user e) then
      match args e with
      | (Some y, e1) =>
          match transfer_list xs1 e1 with
          | (Some ys1, old1, e2) =>
              match transfer_list xs2 e2 with
              | (Some ys2, old2, e3) =>
                  (Ok (MkPtr Data (length xs1)),
                   enter (rep (ys1 ++ y :: ys2) (grown n - n - 1)) o
                     (destroy_list (old1 ++ old2) e3))
              | (None, old2, e3) =>
                  (Throw, enter (rep (old1 ++ old2) 0) o
                            (if moves_on_realloc then e3 else destroy_list ys1 e3))
              end
          | (None, old1, e2) =>
              (Throw, enter (rep (old1 ++ xs2) 0) o
                        (if moves_on_realloc then e2 else T_destroy y e2))
          end
      | (None, e1) => (Throw, enter (rep (xs1 ++ xs2) 0) o e1)
      end
    else (Throw, enter (rep (xs1 ++ xs2) 0) o e).
Proof.
  intros n. pose proof (grown_gt n) as Hg.
  assert (Hn : n = length xs1 + length xs2) by (unfold n; by rewrite length_app).
  unfold EmplaceRealloc, EmplaceRealloc_with, begin_, GetAddress, ptr_add. simpl.
  unfold st_bind at 1. unfold ptr_diff. simpl.
  unfold st_ret. rewrite !Nat.sub_0_r.
  unfold st_bind at 1. unfold Size, gets. simpl. fold n. clearbody n.
  unfold st_bind at 1. unfold with_new_data, Allocate.
  rewrite bool_decide_true by lia.
  unfold st_bind at 1. unfold st_bind at 1. unfold gets. simpl.
  destruct (can_allocate (grown n) (user e)); [|done].
  unfold st_ret, st_bind at 1, modify, finally. norm.
  replace (replicate (grown n) None) with
    (replicate (length xs1) None ++ None ::
       replicate (length xs2) None ++ replicate (grown n - n - 1) (@None T)).
  2:{ rewrite (replicate_split None (length xs1) (grown n)) by lia.
      do 2 f_equal. rewrite <- replicate_add. f_equal. lia. }
  unfold st_bind at 1. unfold RawMemory_plus, st_bind at 1, gets. simpl.
  rewrite length_app, length_replicate. simpl.
  rewrite bool_decide_true by lia. unfold st_ret.
  unfold st_bind at 1.
  rewrite (construct_at_at NewData _ (replicate (length xs1) None)
             (replicate (length xs2) None ++ replicate (grown n - n - 1) None));
    [|done|by rewrite length_replicate|done].
  norm. destruct (args e) as [[y|] e1]; [|done].
  unfold transfer_list. destruct moves_on_realloc eqn:Hpolicy.
  - unfold st_bind at 1.
    rewrite (uninitialized_move_n_at Data NewData _ _ _ [] xs1 ((Some <$> xs2)) []
               (Some y :: replicate (length xs2) None ++ replicate (grown n - n - 1) None));
      [|done|done|done|done|done|done|by slots_tac|by slots_tac].
    norm.
    destruct (move_list xs1 [] [] e1) as [[[ys1|] old1] e2] eqn:Ht1;
      apply move_list_length in Ht1 as [Hold1 Hys1]; simpl in Hold1.
    2:{ frame_eq. }
    specialize (Hys1 ys1 eq_refl). simpl in Hys1.
    unfold st_bind at 1. unfold size_sub. rewrite bool_decide_true by lia.
    unfold st_ret. replace (n - length xs1) with (length xs2) by lia.
    unfold st_bind at 1.
    rewrite (uninitialized_move_n_at Data NewData _ _ _ (Some <$> old1) xs2 []
               ((Some <$> ys1) ++ [Some y]) (replicate (grown n - n - 1) None));
      [|done|done|done|by len_tac|by len_tac|done|by slots_tac|by slots_tac].
    norm.
    destruct (move_list xs2 [] [] e2) as [[[ys2|] old2] e3] eqn:Ht2;
      apply move_list_length in Ht2 as [Hold2 Hys2]; simpl in Hold2.
    2:{ frame_eq. }
    specialize (Hys2 ys2 eq_refl). simpl in Hys2.
    unfold st_bind at 1.
    rewrite (destroy_n_at Data _ _ [] (old1 ++ old2) []);
      [|done|done|by len_tac|by slots_tac].
    norm. unfold RawMemory_Swap, modify, st_bind. frame_eq.
  - unfold st_bind at 1. unfold try_catch at 1.
    rewrite (uninitialized_copy_n_at Data NewData _ _ _ [] xs1 ((Some <$> xs2)) []
               (Some y :: replicate (length xs2) None ++ replicate (grown n - n - 1) None));
      [|done|done|done|done|done|by slots_tac|by slots_tac].
    norm.
    destruct (copy_list xs1 e1) as [[ys1|] e2] eqn:Ht1.
    2:{ unfold st_bind.
        rewrite (destroy_at_at NewData _ (replicate (length xs1) None) y
                   (replicate (length xs2) None ++ replicate (grown n - n - 1) None));
          [|done|by len_tac|by slots_tac].
        unfold throw. frame_eq. }
    apply copy_list_length in Ht1 as Hys1.
    unfold st_bind at 1. unfold size_sub. rewrite bool_decide_true by lia.
    unfold st_ret. replace (n - length xs1) with (length xs2) by lia.
    unfold st_bind at 1. unfold try_catch at 1.
    rewrite (uninitialized_copy_n_at Data NewData _ _ _ (Some <$> xs1) xs2 []
               ((Some <$> ys1) ++ [Some y]) (replicate (grown n - n - 1) None));
      [|done|done|by len_tac|by len_tac|done|by slots_tac|by slots_tac].
    norm.
    destruct (copy_list xs2 e2) as [[ys2|] e3] eqn:Ht2.
    2:{ unfold st_bind.
        rewrite (destroy_n_at NewData _ _ [] ys1
                   (Some y :: replicate (length xs2) None ++ replicate (grown n - n - 1) None));
          [|done|done|done|by slots_tac].
        unfold throw. frame_eq. }
    apply copy_list_length in Ht2 as Hys2.
    unfold st_bind at 1.
    rewrite (destroy_n_at Data _ _ [] (xs1 ++ xs2) []);
      [|done|done|by len_tac|by slots_tac].
    norm. unfold RawMemory_Swap, modify, st_bind. frame_eq.
Qed.

Lemma Emplace_full pos args xs o e :
  Emplace pos args (enter (rep xs 0) o e) = EmplaceRealloc pos args (enter (rep xs 0) o e).
Proof.
  unfold Emplace, Emplace_with. unfold st_bind at 1. unfold Size, gets. simpl.
  unfold st_bind at 1. unfold Capacity, gets. simpl.
  rewrite length_app, length_fmap. simpl. rewrite bool_decide_true by lia. done.
Qed.

Lemma transfer_list_protected xs e old e' :
  transfer_protected → transfer_list xs e = (None, old, e') →
  moves_on_realloc = false ∧ old = xs.
Proof.
  unfold transfer_protected, transfer_list. intros Hp.
  destruct moves_on_realloc.
  - intros Hm. pose proof (move_list_nothrow xs [] [] e (Hp eq_refl)) as Hn.
    by rewrite Hm in Hn.
  - destruct (copy_list xs e). by intros [= _ <- _].
Qed.

Lemma trace_destroy_list xs e :
  trace (destroy_list xs e) = trace e ++ (EvDestroy <$> xs).
Proof.
  revert e. induction xs as [|x xs IH]; intros e; simpl; [by rewrite app_nil_r|].
  rewrite IH. simpl. by rewrite <- app_assoc.
Qed.

Lemma trace_move_list xs done old0 e ys old e' :
  move_list xs done old0 e = (Some ys, old, e') →
  trace e' = trace e ++ (EvMove <$> xs).
Proof.
  revert done old0 e. induction xs as [|x xs IH]; intros done old0 e Hm; simpl in *.
  - injection Hm as _ _ <-. by rewrite app_nil_r.
  - unfold T_move in Hm. simpl in Hm.
    destruct (move_construct x (user e)) as [[[y|] x'] u]; [|done].
    apply IH in Hm. rewrite Hm. simpl. by rewrite <- app_assoc.
Qed.

Lemma trace_build_copy xs done e ys e' :
  build_list (T_copy <$> xs) done e = (Some ys, e') →
  trace e' = trace e ++ (EvCopy <$> xs).
Proof.
  revert done e. induction xs as [|x xs IH]; intros done e Hm; simpl in *.
  - injection Hm as _ <-. by rewrite app_nil_r.
  - unfold T_copy in Hm. simpl in Hm.
    destruct (copy_construct x (user e)) as [[y|] u]; [|done].
    apply IH in Hm. rewrite Hm. simpl. by rewrite <- app_assoc.
Qed.

Lemma trace_build_copy_fail xs acc e e' :
  build_list (T_copy <$> xs) acc e = (None, e') →
  ∃ j ys, j < length xs ∧ length ys = j ∧
    trace e' = trace e ++ (EvCopy <$> take (S j) xs) ++ (EvDestroy <$> (acc ++ ys)) ∧
    (copies_faithfully → ys = take j xs).
Proof.
  revert acc e. induction xs as [|x xs IH]; intros acc e Hm; simpl in *; [done|].
  unfold T_copy in Hm at 1. simpl in Hm.
  destruct (copy_construct x (user e)) as [[y|] u] eqn:Hx.
  - apply IH in Hm as (j & ys & Hj & Hlen & Htr & Hf).
    exists (S j), (y :: ys). split; [lia|]. split; [simpl; lia|].
    split; [rewrite Htr; simpl; by rewrite <- !app_assoc|].
    intros Hc. simpl. rewrite (Hf Hc). f_equal. by eapply Hc.
  - injection Hm as <-. exists 0, []. split; [lia|]. split; [done|].
    split; [|done].
    rewrite trace_destroy_list. simpl. rewrite ?take_0, app_nil_r, <- app_assoc. done.
Qed.

Lemma trace_transfer_list xs e ys old e' :
  transfer_list xs e = (Some ys, old, e') →
  trace e' = trace e ++ relocation xs.
Proof.
  unfold transfer_list, relocation, moves_on_realloc.
  destruct (is_nothrow_move_constructible || negb is_copy_constructible).
  - apply trace_move_list.
  - destruct (copy_list xs e) as [r e1] eqn:Hc. intros [= -> _ <-].
    by eapply trace_build_copy.
Qed.

Lemma relocation_app xs1 xs2 : relocation (xs1 ++ xs2) = relocation xs1 ++ relocation xs2.
Proof. unfold relocation. destruct (_ || _); by rewrite fmap_app. Qed.

Lemma EmplaceRealloc_at i args xs o e :
  i ≤ length xs →
  EmplaceRealloc (begin_ +ₚ i) args (enter (rep xs 0) o e) =
    if can_allocate (grown (length xs)) (user e) then
      match args e with
      | (Some y, e1) =>
          match transfer_list (take i xs) e1 with
          | (Some ys1, old1, e2) =>
              match transfer_list (drop i xs) e2 with
              | (Some ys2, old2, e3) =>
                  (Ok (MkPtr Data i),
                   enter (rep (ys1 ++ y :: ys2) (grown (length xs) - length xs - 1)) o
                     (destroy_list (old1 ++ old2) e3))
              | (None, old2, e3) =>
                  (Throw, enter (rep (old1 ++ old2) 0) o
                            (if moves_on_realloc then e3 else destroy_list ys1 e3))
              end
          | (None, old1, e2) =>
              (Throw, enter (rep (old1 ++ drop i xs) 0) o
                        (if moves_on_realloc then e2 else T_destroy y e2))
          end
      | (None, e1) => (Throw, enter (rep xs 0) o e1)
      end
    else (Throw, enter (rep xs 0) o e).
Proof.
  intros Hi. pose proof (EmplaceRealloc_eq args (take i xs) (drop i xs) o e) as Heq.
  cbv zeta in Heq. rewrite take_drop, length_take, Nat.min_l in Heq by lia.
  apply Heq.
Qed.

Lemma trace_move_list_fail xs acc old0 e old e' :
  move_list xs acc old0 e = (None, old, e') →
  ∃ j ys, j < length xs ∧ length ys = j ∧
    trace e' = trace e ++ (EvMove <$> take (S j) xs) ++ (EvDestroy <$> (acc ++ ys)).
Proof.
  revert acc old0 e. induction xs as [|x xs IH]; intros acc old0 e Hm; simpl in *; [done|].
  unfold T_move in Hm at 1. simpl in Hm.
  destruct (move_construct x (user e)) as [[[y|] x'] u].
  - apply IH in Hm as (j & ys & Hj & Hlen & Htr).
    exists (S j), (y :: ys). split; [lia|]. split; [simpl; lia|].
    rewrite Htr. simpl. by rewrite <- !app_assoc.
  - injection Hm as _ <-. exists 0, []. split; [lia|]. split; [done|].
    rewrite trace_destroy_list. simpl. rewrite ?take_0, app_nil_r, <- app_assoc. done.
Qed.

Lemma trace_transfer_list_fail xs e old e' :
  transfer_list xs e = (None, old, e') →
  ∃ j ds, j < length xs ∧ length ds = j ∧
    trace e' = trace e ++ relocation (take (S j) xs) ++ (EvDestroy <$> ds).
Proof.
  unfold transfer_list, relocation, moves_on_realloc.
  destruct (is_nothrow_move_constructible || negb is_copy_constructible).
  - intros Hm. apply trace_move_list_fail in Hm as (j & ys & ? & ? & ?). by exists j, ys.
  - destruct (copy_list xs e) as [r e1] eqn:Hc. intros [= -> _ <-].
    apply trace_build_copy_fail in Hc as (j & ys & ? & ? & ? & _). by exists j, ys.
Qed.

Lemma EmplaceBack_full_returns (args : Env T U → option T * Env T U) xs o e :
  nothrow ∨ nothrow_movable → constructs args →
  ∃ st', EmplaceBack args (enter (rep xs 0) o e) = (Ok (MkPtr Data (length xs)), st').
Proof.
  intros Hn Hargs. rewrite EmplaceBack_eq, bool_decide_true by done.
  rewrite (can_allocate_movable _ _ Hn).
  specialize (Hargs e). destruct (args e) as [[y|] e1]; [|done].
  pose proof (transfer_list_movable xs e1 Hn) as Ht.
  destruct (transfer_list xs e1) as [[[ys|] old] e2]; [eauto|done].
Qed.

Lemma Emplace_full_returns (args : Env T U → option T * Env T U) xs i o e :
  nothrow ∨ nothrow_movable → constructs args → i ≤ length xs →
  ∃ st', Emplace (begin_ +ₚ i) args (enter (rep xs 0) o e) = (Ok (MkPtr Data i), st').
Proof.
  intros Hn Hargs Hi. rewrite Emplace_full, (EmplaceRealloc_at i) by done.
  rewrite (can_allocate_movable _ _ Hn).
  specialize (Hargs e). destruct (args e) as [[y|] e1]; [|done].
  pose proof (transfer_list_movable (take i xs) e1 Hn) as Ht1.
  destruct (transfer_list (take i xs) e1) as [[[ys1|] old1] e2]; [|done].
  pose proof (transfer_list_movable (drop i xs) e2 Hn) as Ht2.
  destruct (transfer_list (drop i xs) e2) as [[[ys2|] old2] e3]; [eauto|done].
Qed.

(** C3: a capacity-growing operation (Reserve, EmplaceBack on a full vector,
    Emplace on a full vector) in which the construction of the new element
    or a step of a protected transfer throws, throws itself and leaves the
    vector with the size, the capacity and the elements it had.  The
    transfer of the objects [xs] from the environment [e] fails when
    [transfer_list xs e] yields no objects: one of the relocating constructor
    calls has thrown.  Conversely, whenever one of the three calls throws
    under a protected transfer, whatever the cause, the vector is as it
    was. *)
Theorem C3_growth_strong_guarantee xs :
  (* the new element's constructor throws: for every element type *)
  (∀ (args : Env T U → option T * Env T U) o e,
     (args e).1 = None →
     (∃ st', EmplaceBack args (enter (rep xs 0) o e) = (Throw, st') ∧ this st' = rep xs 0) ∧
     (∀ i, i ≤ length xs →
        ∃ st', Emplace (begin_ +ₚ i) args (enter (rep xs 0) o e) = (Throw, st') ∧
               this st' = rep xs 0)) ∧
  (* a step of the protected transfer throws: the call throws *)
  (transfer_protected →
   (∀ n k o e, length xs + k < n → fits n → can_allocate n (user e) = true →
      (transfer_list xs e).1.1 = None →
      ∃ st', Reserve n (enter (rep xs k) o e) = (Throw, st') ∧ this st' = rep xs k) ∧
   (∀ (args : Env T U → option T * Env T U) o e y e1,
      can_allocate (grown (length xs)) (user e) = true → args e = (Some y, e1) →
      (transfer_list xs e1).1.1 = None →
      ∃ st', EmplaceBack args (enter (rep xs 0) o e) = (Throw, st') ∧ this st' = rep xs 0) ∧
   (∀ (args : Env T U → option T * Env T U) i o e y e1, i ≤ length xs →
      can_allocate (grown (length xs)) (user e) = true → args e = (Some y, e1) →
      (transfer_list (take i xs) e1).1.1 = None ∨
      (∃ ys1 old1 e2, transfer_list (take i xs) e1 = (Some ys1, old1, e2) ∧
                      (transfer_list (drop i xs) e2).1.1 = None) →
      ∃ st', Emplace (begin_ +ₚ i) args (enter (rep xs 0) o e) = (Throw, st') ∧
             this st' = rep xs 0)) ∧
  (* any failure, when the transfer is protected *)
  (transfer_protected →
   (∀ n k o e st', Reserve n (enter (rep xs k) o e) = (Throw, st') → this st' = rep xs k) ∧
   (∀ (args : Env T U → option T * Env T U) o e st',
      EmplaceBack args (enter (rep xs 0) o e) = (Throw, st') → this st' = rep xs 0) ∧
   (∀ (args : Env T U → option T * Env T U) i o e st', i ≤ length xs →
      Emplace (begin_ +ₚ i) args (enter (rep xs 0) o e) = (Throw, st') →
      this st' = rep xs 0)).
Proof.
  split; [|split].
  - intros args o e Hargs. split.
    + rewrite EmplaceBack_eq. rewrite bool_decide_true by done.
      destruct (args e) as [[y|] e1]; [done|].
      destruct (can_allocate _ _); eauto.
    + intros i Hi. rewrite Emplace_full.
      rewrite (EmplaceRealloc_at i) by done.
      destruct (args e) as [[y|] e1]; [done|].
      destruct (can_allocate _ _); eauto.
  - intros Hp. split; [|split].
    + intros n k o e Hn _ Ha Hfail. rewrite Reserve_eq, bool_decide_false, Ha by lia.
      destruct (transfer_list xs e) as [[[ys|] old] e'] eqn:Ht; [done|].
      apply transfer_list_protected in Ht as [_ ->]; [|done]. eauto.
    + intros args o e y e1 Ha Hy Hfail.
      rewrite EmplaceBack_eq, bool_decide_true, Ha, Hy by done.
      destruct (transfer_list xs e1) as [[[ys|] old] e'] eqn:Ht; [done|].
      apply transfer_list_protected in Ht as [_ ->]; [|done]. eauto.
    + intros args i o e y e1 Hi Ha Hy Hfail.
      rewrite Emplace_full, (EmplaceRealloc_at i), Ha, Hy by done.
      destruct Hfail as [Hfail|(ys1 & old1 & e2 & Ht1 & Hfail)].
      * destruct (transfer_list (take i xs) e1) as [[[ys1|] old1] e2] eqn:Ht1; [done|].
        apply transfer_list_protected in Ht1 as [_ ->]; [|done].
        rewrite take_drop. eauto.
      * rewrite Ht1.
        destruct (transfer_list (drop i xs) e2) as [[[ys2|] old2] e3] eqn:Ht2; [done|].
        apply transfer_list_protected in Ht2 as [Hpol ->]; [|done].
        unfold transfer_list in Ht1. rewrite Hpol in Ht1.
        destruct (copy_list (take i xs) e1). injection Ht1 as _ <- _.
        rewrite take_drop. eauto.
  - intros Hp. split; [|split].
    + intros n k o e st'. rewrite Reserve_eq.
      case_bool_decide; [done|]. destruct (can_allocate _ _); [|by intros [= <-]].
      destruct (transfer_list xs e) as [[[ys|] old] e'] eqn:Ht; [done|].
      apply transfer_list_protected in Ht as [_ ->]; [|done]. by intros [= <-].
    + intros args o e st'. rewrite EmplaceBack_eq. rewrite bool_decide_true by done.
      destruct (can_allocate _ _); [|by intros [= <-]].
      destruct (args e) as [[y|] e1]; [|by intros [= <-]].
      destruct (transfer_list xs e1) as [[[ys|] old] e'] eqn:Ht; [done|].
      apply transfer_list_protected in Ht as [_ ->]; [|done]. by intros [= <-].
    + intros args i o e st' Hi. rewrite Emplace_full.
      rewrite (EmplaceRealloc_at i) by done.
      destruct (can_allocate _ _); [|by intros [= <-]].
      destruct (args e) as [[y|] e1]; [|by intros [= <-]].
      destruct (transfer_list (take i xs) e1) as [[[ys1|] old1] e2] eqn:Ht1.
      * destruct (transfer_list (drop i xs) e2) as [[[ys2|] old2] e3] eqn:Ht2; [done|].
        apply transfer_list_protected in Ht2 as [Hpol ->]; [|done].
        unfold transfer_list in Ht1. rewrite Hpol in Ht1.
        destruct (copy_list (take i xs) e1). injection Ht1 as _ <- _.
        rewrite take_drop. by intros [= <-].
      * apply transfer_list_protected in Ht1 as [_ ->]; [|done].
        rewrite take_drop. by intros [= <-].
Qed.

(** C6: in every reallocation (Reserve, EmplaceBack and Emplace on a full
    vector) the old elements are relocated by [T(T&&)] when the move
    constructor is [noexcept] or the type is not copy-constructible, and by
    [T(const T&)] otherwise.  When the call returns, the special members
    called after the construction of the new element are exactly the
    relocations of the elements in order, then the destructors of the old
    objects.  When the transfer throws part-way, the calls are the
    relocations of an initial segment of the elements, the last of which
    threw, and then destructors only.  And the relocation does take place:
    when no constructor throws and memory lasts, the three calls return. *)
Theorem C6_transfer_policy xs :
  (∀ n k o e st', length xs + k < n →
     Reserve n (enter (rep xs k) o e) = (Ok tt, st') →
     ∃ old, length old = length xs ∧
       trace (env st') = trace e ++ relocation xs ++ (EvDestroy <$> old)) ∧
  (∀ (args : Env T U → option T * Env T U) o e p st',
     EmplaceBack args (enter (rep xs 0) o e) = (Ok p, st') →
     ∃ y e1 old, args e = (Some y, e1) ∧ length old = length xs ∧
       trace (env st') = trace e1 ++ relocation xs ++ (EvDestroy <$> old)) ∧
  (∀ (args : Env T U → option T * Env T U) i o e p st', i ≤ length xs →
     Emplace (begin_ +ₚ i) args (enter (rep xs 0) o e) = (Ok p, st') →
     ∃ y e1 old, args e = (Some y, e1) ∧ length old = length xs ∧
       trace (env st') = trace e1 ++ relocation xs ++ (EvDestroy <$> old)) ∧
  (* the transfer throws part-way *)
  (∀ n k o e st', length xs + k < n → can_allocate n (user e) = true →
     Reserve n (enter (rep xs k) o e) = (Throw, st') →
     ∃ j ds, j < length xs ∧
       trace (env st') = trace e ++ relocation (take (S j) xs) ++ (EvDestroy <$> ds)) ∧
  (∀ (args : Env T U → option T * Env T U) o e y e1 st',
     can_allocate (grown (length xs)) (user e) = true → args e = (Some y, e1) →
     EmplaceBack args (enter (rep xs 0) o e) = (Throw, st') →
     ∃ j ds, j < length xs ∧
       trace (env st') = trace e1 ++ relocation (take (S j) xs) ++ (EvDestroy <$> ds)) ∧
  (∀ (args : Env T U → option T * Env T U) i o e y e1 st', i ≤ length xs →
     can_allocate (grown (length xs)) (user e) = true → args e = (Some y, e1) →
     Emplace (begin_ +ₚ i) args (enter (rep xs 0) o e) = (Throw, st') →
     ∃ j ds, j < length xs ∧
       trace (env st') = trace e1 ++ relocation (take (S j) xs) ++ (EvDestroy <$> ds)) ∧
  (* the calls return when nothing throws *)
  (nothrow ∨ nothrow_movable →
   (∀ n k o e, fits n → ∃ st', Reserve n (enter (rep xs k) o e) = (Ok tt, st')) ∧
   (∀ (args : Env T U → option T * Env T U) o e, constructs args →
      ∃ st', EmplaceBack args (enter (rep xs 0) o e) = (Ok (MkPtr Data (length xs)), st')) ∧
   (∀ (args : Env T U → option T * Env T U) i o e, constructs args → i ≤ length xs →
      ∃ st', Emplace (begin_ +ₚ i) args (enter (rep xs 0) o e) = (Ok (MkPtr Data i), st'))).
Proof.
  split; [|split; [|split; [|split; [|split; [|split]]]]].
  - intros n k o e st' Hn. rewrite Reserve_eq.
    rewrite bool_decide_false by lia. destruct (can_allocate _ _); [|done].
    destruct (transfer_list xs e) as [[[ys|] old] e'] eqn:Ht; [|done].
    intros [= <-]. exists old. split; [by apply transfer_list_length in Ht as [? _]|].
    simpl. rewrite trace_destroy_list, (trace_transfer_list _ _ _ _ _ Ht).
    by rewrite <- app_assoc.
  - intros args o e p st'. rewrite EmplaceBack_eq. rewrite bool_decide_true by done.
    destruct (can_allocate _ _); [|done].
    destruct (args e) as [[y|] e1]; [|done].
    destruct (transfer_list xs e1) as [[[ys|] old] e'] eqn:Ht; [|done].
    intros [= _ <-]. exists y, e1, old. split; [done|].
    split; [by apply transfer_list_length in Ht as [? _]|].
    simpl. rewrite trace_destroy_list, (trace_transfer_list _ _ _ _ _ Ht).
    by rewrite <- app_assoc.
  - intros args i o e p st' Hi. rewrite Emplace_full, (EmplaceRealloc_at i) by done.
    destruct (can_allocate _ _); [|done].
    destruct (args e) as [[y|] e1]; [|done].
    destruct (transfer_list (take i xs) e1) as [[[ys1|] old1] e2] eqn:Ht1; [|done].
    destruct (transfer_list (drop i xs) e2) as [[[ys2|] old2] e3] eqn:Ht2; [|done].
    intros [= _ <-]. exists y, e1, (old1 ++ old2). split; [done|].
    split.
    + apply transfer_list_length in Ht1 as [H1 _]. apply transfer_list_length in Ht2 as [H2 _].
      rewrite length_app, H1, H2, <- length_app. by rewrite take_drop.
    + simpl. rewrite trace_destroy_list, (trace_transfer_list _ _ _ _ _ Ht2).
      rewrite (trace_transfer_list _ _ _ _ _ Ht1).
      rewrite <- (take_drop i xs) at 3. rewrite relocation_app.
      by rewrite <- !app_assoc.
  - intros n k o e st' Hn Ha. rewrite Reserve_eq, bool_decide_false, Ha by lia.
    destruct (transfer_list xs e) as [[[ys|] old] e'] eqn:Ht; [done|].
    intros [= <-]. cbn [enter env].
    apply trace_transfer_list_fail in Ht as (j & ds & ? & _ & ?). by exists j, ds.
  - intros args o e y e1 st' Ha Hy.
    rewrite EmplaceBack_eq, bool_decide_true, Ha, Hy by done.
    destruct (transfer_list xs e1) as [[[ys|] old] e'] eqn:Ht; [done|].
    intros [= <-]. cbn [enter env].
    apply trace_transfer_list_fail in Ht as (j & ds & ? & _ & ?). by exists j, ds.
  - intros args i o e y e1 st' Hi Ha Hy.
    rewrite Emplace_full, (EmplaceRealloc_at i), Ha, Hy by done.
    destruct (transfer_list (take i xs) e1) as [[[ys1|] old1] e2] eqn:Ht1.
    + destruct (transfer_list (drop i xs) e2) as [[[ys2|] old2] e3] eqn:Ht2; [done|].
      intros [= <-]. cbn [enter env].
      pose proof (trace_transfer_list _ _ _ _ _ Ht1) as Htr1.
      apply trace_transfer_list_fail in Ht2 as (j & ds & Hj & _ & Htr2).
      rewrite length_drop in Hj.
      assert (relocation (take i xs) ++ relocation (take (S j) (drop i xs)) =
              relocation (take (S (i + j)) xs)) as Hrel.
      { rewrite <- relocation_app, take_take_drop. do 2 f_equal. lia. }
      exists (i + j). destruct moves_on_realloc.
      * exists ds. split; [lia|]. rewrite Htr2, Htr1, <- Hrel. by rewrite <- !app_assoc.
      * exists (ds ++ ys1). split; [lia|].
        rewrite trace_destroy_list, Htr2, Htr1, <- Hrel, fmap_app.
        by rewrite <- !app_assoc.
    + intros [= <-]. cbn [enter env].
      apply trace_transfer_list_fail in Ht1 as (j & ds & Hj & _ & Htr).
      rewrite length_take in Hj. rewrite take_take, Nat.min_l in Htr by lia.
      exists j. destruct moves_on_realloc.
      * exists ds. split; [lia|done].
      * exists (ds ++ [y]). split; [lia|].
        unfold T_destroy, record. cbn [trace user]. rewrite Htr, fmap_app.
        by rewrite <- !app_assoc.
  - intros Hn. split; [|split].
    + intros n k o e _. rewrite Reserve_eq.
      case_bool_decide; [eauto|]. rewrite (can_allocate_movable _ _ Hn).
      pose proof (transfer_list_movable xs e Hn) as Ht.
      destruct (transfer_list xs e) as [[[ys|] old] e1]; [eauto|done].
    + intros args o e Hargs. by apply EmplaceBack_full_returns.
    + intros args i o e Hargs Hi. by apply Emplace_full_returns.
Qed.

Lemma Resize_eq n xs k o e :
  Resize n (enter (rep xs k) o e) =
    if bool_decide (n < length xs) then
      (Ok tt, enter (rep (take n xs) (length xs + k - n)) o (destroy_list (drop n xs) e))
    else if bool_decide (n ≤ length xs + k) then
      match value_list (n - length xs) e with
      | (Some ds, e') => (Ok tt, enter (rep (xs ++ ds) (length xs + k - n)) o e')
      | (None, e') => (Throw, enter (rep xs k) o e')
      end
    else if can_allocate n (user e) then
      match transfer_list xs e with
      | (Some ys, old, e1) =>
          match value_list (n - length xs) (destroy_list old e1) with
          | (Some ds, e2) => (Ok tt, enter (rep (ys ++ ds) 0) o e2)
          | (None, e2) => (Throw, enter (rep ys (n - length xs)) o e2)
          end
      | (None, old, e1) => (Throw, enter (rep old k) o e1)
      end
    else (Throw, enter (rep xs k) o e).
Proof.
  unfold Resize. unfold st_bind at 1. unfold Size, gets. norm. simpl size_.
  case_bool_decide as Hn.
  - unfold st_bind at 1, GetAddress, ptr_add. simpl.
    rewrite (destroy_n_at Data _ _ (Some <$> take n xs) (drop n xs) (replicate k None));
      [|done|by rewrite length_fmap, length_take; lia|by rewrite length_drop|].
    2:{ norm. unfold rep. norm. rewrite <- (take_drop n xs) at 1.
        by rewrite fmap_app, <- app_assoc. }
    unfold modify. norm. frame_eq.
    + rewrite length_drop, <- replicate_add. do 2 f_equal. lia.
    + rewrite length_take. lia.
  - unfold st_bind at 1. unfold st_bind at 1.
    fold (enter (rep xs k) o e). rewrite Reserve_eq.
    case_bool_decide as Hcap.
    + unfold GetAddress, ptr_add. simpl.
      rewrite (uninitialized_value_construct_n_at Data _ (Some <$> xs) (n - length xs)
                 (replicate (length xs + k - n) None));
        [|done|by rewrite length_fmap|].
      2:{ slots_tac. rewrite <- replicate_add. do 2 f_equal. lia. }
      norm.
      destruct (value_list (n - length xs) e) as [[ds|] e'] eqn:Hv; [|done].
      apply value_list_length in Hv.
      unfold modify. frame_eq.
    + destruct (can_allocate n (user e)); [|done].
      destruct (transfer_list xs e) as [[[ys|] old] e1] eqn:Ht; [|done].
      apply transfer_list_length in Ht as [Hold Hys]. specialize (Hys ys eq_refl).
      unfold GetAddress, ptr_add. simpl.
      rewrite (uninitialized_value_construct_n_at Data _ (Some <$> ys) (n - length xs) []);
        [|done|by rewrite length_fmap|by slots_tac].
      norm.
      destruct (value_list (n - length xs) (destroy_list old e1)) as [[ds|] e2] eqn:Hv.
      * apply value_list_length in Hv. unfold modify. frame_eq.
      * frame_eq.
Qed.

Lemma T_value_is dflt e y e' :
  value_is dflt → T_value e = (Some y, e') → y = dflt.
Proof.
  intros Hv. unfold T_value. simpl.
  destruct (value_construct (user e)) as [r u] eqn:Hx. intros [= -> _]. eauto.
Qed.

Lemma value_list_is dflt n e ds e' :
  value_is dflt → value_list n e = (Some ds, e') → ds = replicate n dflt.
Proof.
  intros Hv Hb. eapply (build_list_faithful _ (replicate n dflt) []) in Hb; [done|].
  apply Forall2_replicate. intros e1 y e2. by apply T_value_is.
Qed.

Lemma trace_build_value n acc e ys e' :
  build_list (replicate n (T_value (T:=T) (U:=U))) acc e = (Some ys, e') →
  trace e' = trace e ++ replicate n EvValue.
Proof.
  revert acc e. induction n as [|n IH]; intros acc e Hm; simpl in *.
  - injection Hm as _ <-. by rewrite app_nil_r.
  - unfold T_value in Hm at 1. simpl in Hm.
    destruct (value_construct (user e)) as [[y|] u]; [|done].
    apply IH in Hm. rewrite Hm. simpl. by rewrite <- app_assoc.
Qed.



Lemma assign_list_acc ds ss acc e :
  assign_list ds ss acc e =
    let '(ok, r, e') := assign_list ds ss [] e in (ok, acc ++ r, e').
Proof.
  revert ss acc e. induction ds as [|d ds IH]; intros ss acc e; simpl; [done|].
  destruct ss as [|s ss]; [done|].
  destruct (T_copy_assign d s e) as [[[] d'] e1]; [|done].
  rewrite (IH ss (acc ++ [d'])), (IH ss [d']).
  destruct (assign_list ds ss [] e1) as [[ok r] e2]. by rewrite <- app_assoc.
Qed.

Lemma assign_list_length ds ss acc e ok r e' :
  assign_list ds ss acc e = (ok, r, e') → length r = length acc + length ds.
Proof.
  revert ss acc e. induction ds as [|d ds IH]; intros ss acc e Ha; simpl in *.
  - injection Ha as _ <- _. by rewrite app_nil_r.
  - destruct ss as [|s ss].
    + injection Ha as _ <- _. rewrite length_app. simpl. lia.
    + destruct (T_copy_assign d s e) as [[[] d'] e1].
      * apply IH in Ha. rewrite length_app in Ha. simpl in Ha. lia.
      * injection Ha as _ <- _. rewrite length_app. simpl. lia.
Qed.

Lemma assign_list_faithful ds ss acc e r e' :
  assigns_faithfully → length ds = length ss →
  assign_list ds ss acc e = (true, r, e') → r = acc ++ ss.
Proof.
  intros Hf. revert ss acc e. induction ds as [|d ds IH]; intros [|s ss] acc e Hlen Ha;
    simpl in *; try done.
  - by injection Ha as <- _.
  - unfold T_copy_assign in Ha. simpl in Ha.
    destruct (copy_assign d s (user e)) as [[[] d'] u] eqn:Hd; [|done].
    apply Hf in Hd as ->. apply IH in Ha; [|lia]. by rewrite <- app_assoc in Ha.
Qed.

Lemma assign_copy_eq src dst spre s0 spost pre d0 post st :
  src ≠ dst → writable dst = true →
  slots src st = spre ++ Some s0 :: spost →
  slots dst st = pre ++ Some d0 :: post →
  assign_copy (MkPtr dst (length pre)) (MkPtr src (length spre)) st =
    let '(ok, d', e') := T_copy_assign d0 s0 (env st) in
    (if ok then Ok tt else Throw, set_slots dst (pre ++ Some d' :: post) (set_env e' st)).
Proof.
  intros Hne Hw Hsrc Hdst. unfold assign_copy.
  erewrite bind_ok; last by (apply load_eq; rewrite Hdst; apply list_lookup_middle).
  erewrite bind_ok; last by (apply load_eq; rewrite Hsrc; apply list_lookup_middle).
  unfold st_bind at 1. unfold lift_env.
  destruct (T_copy_assign d0 s0 (env st)) as [[ok d'] e']. simpl.
  erewrite bind_ok; last by (eapply store_eq; [done|rewrite slots_set_env]).
  by destruct ok.
Qed.

Lemma copy_n_eq src dst spost post ss :
  src ≠ dst → writable dst = true →
  ∀ ds spre pre st,
  length ds = length ss →
  slots src st = spre ++ (Some <$> ss) ++ spost →
  slots dst st = pre ++ (Some <$> ds) ++ post →
  copy_n (MkPtr src (length spre)) (length ss) (MkPtr dst (length pre)) st =
    let '(ok, ds', e') := assign_list ds ss [] (env st) in
    (if ok then Ok tt else Throw,
     set_slots dst (pre ++ (Some <$> ds') ++ post) (set_env e' st)).
Proof.
  intros Hne Hw. induction ss as [|s ss IH]; intros [|d ds] spre pre st Hlen Hsrc Hdst;
    simpl in *; try done.
  - unfold st_ret. f_equal.
    destruct dst, st as [[] ? ? []]; frame_simpl; try done; by rewrite Hdst.
  - unfold st_bind at 1.
    rewrite (assign_copy_eq src dst spre s ((Some <$> ss) ++ spost) pre d ((Some <$> ds) ++ post))
      by done.
    destruct (T_copy_assign d s (env st)) as [[[] d'] e1].
    + unfold ptr_add. simpl.
      replace (length spre + 1) with (length (spre ++ [Some s])) by (rewrite length_app; simpl; lia).
      replace (length pre + 1) with (length (pre ++ [Some d'])) by (rewrite length_app; simpl; lia).
      rewrite (IH ds).
      * rewrite env_set_slots, env_set_env. rewrite (assign_list_acc ds ss [d']).
        destruct (assign_list ds ss [] e1) as [[ok r] e2]. f_equal.
        destruct dst, st as [[] ? ? []]; frame_simpl; try done; by rewrite <- !app_assoc.
      * lia.
      * rewrite slots_set_slots, decide_False, slots_set_env by done.
        by rewrite Hsrc, <- app_assoc.
      * rewrite slots_set_slots, decide_True by done. by rewrite <- app_assoc.
    + done.
Qed.

Lemma copy_n_at src dst i j n spre ss spost pre ds post st :
  src ≠ dst → writable dst = true →
  i = length spre → j = length pre → n = length ss → length ds = length ss →
  slots src st = spre ++ (Some <$> ss) ++ spost →
  slots dst st = pre ++ (Some <$> ds) ++ post →
  copy_n (MkPtr src i) n (MkPtr dst j) st =
    let '(ok, ds', e') := assign_list ds ss [] (env st) in
    (if ok then Ok tt else Throw,
     set_slots dst (pre ++ (Some <$> ds') ++ post) (set_env e' st)).
Proof. intros ?? -> -> -> ?. by apply copy_n_eq. Qed.

Lemma Vector_copy_eq v rs rk e :
  Vector_copy (MkFrame v [] (rep rs rk) e) =
    if bool_decide (length rs ≠ 0) && negb (can_allocate (length rs) (user e))
    then (Throw, MkFrame v [] (rep rs rk) e)
    else
      match copy_list rs e with
      | (Some cs, e') => (Ok tt, MkFrame (rep cs 0) [] (rep rs rk) e')
      | (None, e') =>
          (Throw, MkFrame (MkVector (replicate (length rs) None) (length rs)) []
                    (rep rs rk) e')
      end.
Proof.
  unfold Vector_copy. unfold st_bind at 1. unfold gets. norm. simpl size_.
  unfold st_bind at 1. unfold Allocate.
  assert (Hcopy : ∀ e0,
    (modify (set_this (MkVector (replicate (length rs) None) (length rs)));;;
     uninitialized_copy_n (GetAddress Other) (length rs) (GetAddress Data))
      (MkFrame v [] (rep rs rk) e0) =
    match copy_list rs e0 with
    | (Some cs, e') => (Ok tt, MkFrame (rep cs 0) [] (rep rs rk) e')
    | (None, e') =>
        (Throw, MkFrame (MkVector (replicate (length rs) None) (length rs)) []
                  (rep rs rk) e')
    end).
  { intros e0. unfold st_bind, modify, GetAddress. norm.
    rewrite (uninitialized_copy_n_at Other Data _ _ _ [] rs (replicate rk None) [] []);
      [|done|done|done|done|done|by slots_tac|by slots_tac].
    norm. destruct (copy_list rs e0) as [[cs|] e'] eqn:Hc; [|done].
    apply copy_list_length in Hc. frame_eq. }
  case_bool_decide as Hz; simpl.
  - unfold st_bind at 1, gets. norm.
    destruct (can_allocate (length rs) (user e)); simpl; [|done].
    unfold st_ret. apply Hcopy.
  - unfold st_ret. assert (length rs = 0) as Hz' by lia.
    specialize (Hcopy e). rewrite Hz' in Hcopy. simpl in Hcopy. by rewrite Hz'.
Qed.

Lemma Vector_destructor_eq xs k o e :
  Vector_destructor (MkFrame (rep xs k) [] o e) =
    (Ok tt, MkFrame (MkVector (replicate (length xs + k) None) (length xs)) [] o
              (destroy_list xs e)).
Proof.
  unfold Vector_destructor, st_bind, Size, gets, GetAddress. norm. simpl size_.
  rewrite (destroy_n_at Data _ _ [] xs (replicate k None)); [|done..|by slots_tac].
  frame_eq. by rewrite replicate_add.
Qed.

Lemma assign_from_other_eq xs k rs rk e :
  assign_from_other (enter (rep xs k) (rep rs rk) e) =
    if bool_decide (length xs + k < length rs) then
      if can_allocate (length rs) (user e) then
        match copy_list rs e with
        | (Some cs, e') => (Ok tt, enter (rep cs 0) (rep rs rk) (destroy_list xs e'))
        | (None, e') => (Throw, enter (rep xs k) (rep rs rk) e')
        end
      else (Throw, enter (rep xs k) (rep rs rk) e)
    else if bool_decide (length rs ≤ length xs) then
      match assign_list (take (length rs) xs) rs [] (destroy_list (drop (length rs) xs) e) with
      | (true, ds, e') =>
          (Ok tt, enter (rep ds (length xs + k - length rs)) (rep rs rk) e')
      | (false, ds, e') =>
          (Throw, enter (MkVector ((Some <$> ds) ++ replicate (length xs + k - length rs) None)
                           (length xs)) (rep rs rk) e')
      end
    else
      match copy_list (drop (length xs) rs) e with
      | (Some cs, e1) =>
          match assign_list xs (take (length xs) rs) [] e1 with
          | (true, ds, e2) =>
              (Ok tt, enter (rep (ds ++ cs) (length xs + k - length rs)) (rep rs rk) e2)
          | (false, ds, e2) =>
              (Throw, enter (MkVector ((Some <$> ds) ++ (Some <$> cs) ++
                                       replicate (length xs + k - length rs) None)
                               (length xs)) (rep rs rk) e2)
          end
      | (None, e1) => (Throw, enter (rep xs k) (rep rs rk) e1)
      end.
Proof.
  unfold assign_from_other. unfold st_bind at 1. unfold gets. norm. simpl size_.
  unfold st_bind at 1. unfold Capacity, gets. norm. rewrite rep_capacity.
  case_bool_decide as Hcap.
  - unfold st_bind at 1. unfold in_object at 1. norm.
    rewrite Vector_copy_eq. rewrite bool_decide_true by lia. simpl andb.
    destruct (can_allocate (length rs) (user e)); simpl; [|done].
    destruct (copy_list rs e) as [[cs|] e'] eqn:Hc; [|done].
    norm. unfold st_bind at 1. unfold Swap_local, Vector_Swap. norm. simpl.
    unfold st_bind at 1. unfold in_object.
    change (MkVector ((Some <$> xs) ++ replicate k None) (length xs)) with (rep xs k).
    norm. rewrite Vector_destructor_eq. norm. done.
  - case_bool_decide as Hle.
    + unfold st_bind at 1. unfold Size, gets. norm. simpl size_.
      rewrite bool_decide_true by done.
      unfold st_bind at 1. unfold st_bind at 1. unfold GetAddress, ptr_add. simpl.
      rewrite (destroy_n_at Data _ _ (Some <$> take (length rs) xs) (drop (length rs) xs)
                 (replicate k None));
        [|done|by rewrite length_fmap, length_take; lia|by rewrite length_drop|].
      2:{ norm. unfold rep. norm. rewrite <- (take_drop (length rs) xs) at 1.
          by rewrite fmap_app, <- app_assoc. }
      norm. unfold st_ret, st_bind at 1.
      rewrite (copy_n_at Other Data _ _ _ [] rs (replicate rk None) []
                 (take (length rs) xs)
                 (replicate (length (drop (length rs) xs)) None ++ replicate k None));
        [|done|done|done|done|done|by rewrite length_take; lia|by slots_tac|by slots_tac].
      norm.
      destruct (assign_list _ _ _ _) as [[[] ds] e'] eqn:Ha;
        apply assign_list_length in Ha; simpl in Ha; rewrite length_take in Ha.
      * unfold modify. frame_eq.
        rewrite length_drop, <- replicate_add. do 2 f_equal. lia.
      * frame_eq. rewrite length_drop, <- replicate_add. do 2 f_equal. lia.
    + unfold st_bind at 1. unfold Size, gets. norm. simpl size_.
      rewrite bool_decide_false by done.
      unfold st_bind at 1. unfold st_bind at 1. unfold GetAddress, ptr_add. simpl.
      rewrite (uninitialized_copy_n_at Other Data _ _ _ (Some <$> take (length xs) rs)
                 (drop (length xs) rs) (replicate rk None) (Some <$> xs)
                 (replicate (length xs + k - length rs) None));
        [|done|done|by rewrite length_fmap, length_take; lia|by rewrite length_fmap
         |by rewrite length_drop| |].
      2:{ norm. unfold rep. norm. rewrite <- (take_drop (length xs) rs) at 1.
          by rewrite fmap_app, <- app_assoc. }
      2:{ slots_tac. rewrite length_drop, <- replicate_add. do 2 f_equal. lia. }
      norm.
      destruct (copy_list (drop (length xs) rs) e) as [[cs|] e1] eqn:Hc; [|done].
      apply copy_list_length in Hc. rewrite length_drop in Hc.
      unfold st_ret, st_bind at 1.
      rewrite (copy_n_at Other Data _ _ _ [] (take (length xs) rs)
                 ((Some <$> drop (length xs) rs) ++ replicate rk None) []
                 xs ((Some <$> cs) ++ replicate (length xs + k - length rs) None));
        [|done|done|done|done|by rewrite length_take; lia|by rewrite length_take; lia| |by slots_tac].
      2:{ norm. unfold rep. norm. rewrite <- (take_drop (length xs) rs) at 1.
          by rewrite !fmap_app, <- !app_assoc. }
      norm.
      destruct (assign_list _ _ _ _) as [[[] ds] e2] eqn:Ha;
        apply assign_list_length in Ha; simpl in Ha.
      * unfold modify. frame_eq.
      * frame_eq.
Qed.

Lemma assign_from_other_returns xs k rs rk e :
  nothrow → ∃ st', assign_from_other (enter (rep xs k) (rep rs rk) e) = (Ok tt, st').
Proof.
  intros Hn. rewrite assign_from_other_eq.
  assert (∀ n u, can_allocate (T:=T) n u = true) as Ha by apply Hn.
  case_bool_decide.
  - rewrite Ha. pose proof (copy_list_nothrow rs e Hn) as Hc.
    destruct (copy_list rs e) as [[cs|] e1]; [eauto|done].
  - case_bool_decide.
    + pose proof (assign_list_nothrow (take (length rs) xs) rs []
                    (destroy_list (drop (length rs) xs) e) Hn) as Hs.
      destruct (assign_list _ _ _ _) as [[[] ds] e1]; [eauto|done].
    + pose proof (copy_list_nothrow (drop (length xs) rs) e Hn) as Hc.
      destruct (copy_list _ e) as [[cs|] e1]; [|done].
      pose proof (assign_list_nothrow xs (take (length xs) rs) [] e1 Hn) as Hs.
      destruct (assign_list _ _ _ _) as [[[] ds] e2]; [eauto|done].
Qed.

Lemma hoare_bind {A B} P (m : St (frame T U) A) (k : A → St (frame T U) B)
    (Q' : A → frame T U → Prop) Q R :
  hoare P m Q' R → (∀ a, hoare (Q' a) (k a) Q R) → hoare P (st_bind m k) Q R.
Proof.
  intros Hm Hk st HP. unfold st_bind. specialize (Hm st HP).
  destruct (m st) as [[a| |] st1]; [|done..]. by apply Hk.
Qed.

Lemma hoare_conseq {A} P P' (m : St (frame T U) A) (Q Q' : A → frame T U → Prop) R R' :
  hoare P' m Q' R' → (∀ st, P st → P' st) →
  (∀ a st, Q' a st → Q a st) → (∀ st, R' st → R st) → hoare P m Q R.
Proof.
  intros Hm HP HQ HR st Hst. specialize (Hm st (HP st Hst)).
  destruct (m st) as [[a| |] st1]; auto.
Qed.

Lemma hoare_ret {A} P (a : A) (Q : A → frame T U → Prop) R :
  (∀ st, P st → Q a st) → hoare P (st_ret a) Q R.
Proof. intros HQ st HP. by apply HQ. Qed.

Lemma hoare_throw {A} P (Q : A → frame T U → Prop) R :
  (∀ st, P st → R st) → hoare P throw Q R.
Proof. intros HR st HP. by apply HR. Qed.

Lemma hoare_undefined {A} P (Q : A → frame T U → Prop) R : hoare P undefined Q R.
Proof. by intros st HP. Qed.

Lemma hoare_gets {A} P (f : frame T U → A) (Q : A → frame T U → Prop) R :
  (∀ st, P st → Q (f st) st) → hoare P (gets f) Q R.
Proof. intros HQ st HP. by apply HQ. Qed.

Lemma hoare_modify P (f : frame T U → frame T U) (Q : unit → frame T U → Prop) R :
  (∀ st, P st → Q tt (f st)) → hoare P (modify f) Q R.
Proof. intros HQ st HP. by apply HQ. Qed.

Lemma hoare_try {A} P (m h : St (frame T U) A) (Q : A → frame T U → Prop) R R' :
  hoare P m Q R' → hoare R' h Q R → hoare P (try_catch m h) Q R.
Proof.
  intros Hm Hh st HP. unfold try_catch. specialize (Hm st HP).
  destruct (m st) as [[a| |] st1]; [done| |done]. by apply Hh.
Qed.

Lemma hoare_finally {A} P (m : St (frame T U) A) (c : frame T U → frame T U)
    (Q Q' : A → frame T U → Prop) R R' :
  hoare P m Q' R' → (∀ a st, Q' a st → Q a (c st)) → (∀ st, R' st → R (c st)) →
  hoare P (finally m c) Q R.
Proof.
  intros Hm HQ HR st HP. unfold finally. specialize (Hm st HP).
  destruct (m st) as [[a| |] st1]; auto.
Qed.

Lemma hoare_preserves {A} (m : St (frame T U) A) s c nd o :
  preserves m →
  hoare (shaped s c nd o) m (λ _, shaped s c nd o) (shaped s c nd o).
Proof.
  intros Hm st [Hs Ho]. specialize (Hm st) as [Hs' Ho'].
  destruct (m st) as [[a| |] st1]; simpl in *; [|  |done]; split; congruence.
Qed.

Lemma hoare_false {A} (m : St (frame T U) A) (Q : A → frame T U → Prop) R :
  hoare (λ _, False) m Q R.
Proof. by intros st []. Qed.

Lemma hoare_pure {A} (φ : Prop) P (m : St (frame T U) A) (Q : A → frame T U → Prop) R :
  (φ → hoare P m Q R) → hoare (λ st, φ ∧ P st) m Q R.
Proof. intros Hm st [Hφ HP]. by apply Hm. Qed.

(** Steps that keep the shape, between an assertion and itself. *)
Lemma hoare_step {A B} (m : St (frame T U) A) (k : A → St (frame T U) B) s c nd o
    (Q : B → frame T U → Prop) R :
  preserves m →
  (∀ st, shaped s c nd o st → R st) →
  (∀ a, hoare (shaped s c nd o) (k a) Q R) →
  hoare (shaped s c nd o) (st_bind m k) Q R.
Proof.
  intros Hm HR Hk. eapply hoare_bind; [|apply Hk].
  eapply hoare_conseq; [by apply hoare_preserves|done..].
Qed.

Lemma Allocate_hoare n s c nd o :
  hoare (shaped s c nd o) (Allocate n)
    (λ b st, length b = n ∧ shaped s c nd o st) (shaped s c nd o).
Proof.
  intros st HP. unfold Allocate. case_bool_decide; [|done].
  unfold st_bind, gets. destruct (can_allocate _ _); [|done].
  simpl. by rewrite length_replicate.
Qed.

Lemma with_new_data_hoare {A} n (body : St (frame T U) A) s c nd o
    (Q : A → frame T U → Prop) R :
  (∀ st, shaped s c nd o st → R st) →
  hoare (shaped s c n o) body
    (λ a st, Q a (set_new_data [] st)) (λ st, R (set_new_data [] st)) →
  hoare (shaped s c nd o) (with_new_data n body) Q R.
Proof.
  intros HR Hbody. unfold with_new_data.
  eapply hoare_bind; [eapply hoare_conseq; [apply Allocate_hoare|done..]|].
  intros b. simpl. apply hoare_pure with (P := shaped s c nd o). intros Hb.
  eapply hoare_bind; [apply hoare_modify|].
  { intros st [Hs Ho]. instantiate (1 := λ _, shaped s c n o).
    unfold shaped, shape in *. simpl. split; [|done]. congruence. }
  intros []. eapply hoare_finally; [apply Hbody|done..].
Qed.

Lemma hoare_exists {A X} (P : X → frame T U → Prop) (m : St (frame T U) A)
    (Q : A → frame T U → Prop) R :
  (∀ x, hoare (P x) m Q R) → hoare (λ st, ∃ x, P x st) m Q R.
Proof. intros Hm st [x HP]. by apply (Hm x). Qed.

Lemma hoare_Size s c nd o :
  hoare (shaped s c nd o) Size (λ a st, a = s ∧ shaped s c nd o st) (λ _, False).
Proof. intros st [Hs Ho]. simpl. split; [|done]. unfold shape in Hs. congruence. Qed.

Lemma hoare_Capacity s c nd o :
  hoare (shaped s c nd o) Capacity (λ a st, a = c ∧ shaped s c nd o st) (λ _, False).
Proof. intros st [Hs Ho]. simpl. split; [|done]. unfold shape in Hs. congruence. Qed.

Lemma hoare_read {A} (m : St (frame T U) A) (φ : A → Prop) P
    {B} (k : A → St (frame T U) B) (Q : B → frame T U → Prop) R :
  hoare P m (λ a st, φ a ∧ P st) (λ _, False) →
  (∀ a, φ a → hoare P (k a) Q R) →
  hoare P (st_bind m k) Q R.
Proof.
  intros Hm Hk. eapply hoare_bind.
  - eapply hoare_conseq; [apply Hm|done|done|by intros ? []].
  - intros a. apply hoare_pure. apply Hk.
Qed.

Lemma Reserve_hoare n s c o :
  hoare (shaped s c 0 o) (Reserve n)
    (λ _, shaped s (Nat.max c n) 0 o) (shaped s c 0 o).
Proof.
  unfold Reserve. eapply hoare_read; [apply hoare_Capacity|]. intros ? ->.
  case_bool_decide as Hn.
  - apply hoare_ret. by rewrite Nat.max_l by done.
  - apply with_new_data_hoare; [done|].
    eapply hoare_read; [apply hoare_Size|]. intros ? ->.
    apply hoare_step; [auto with shape|shaped_tac|intros _].
    apply hoare_step; [auto with shape|shaped_tac|intros _].
    apply hoare_modify. shaped_tac.
Qed.

Lemma preserves_Size : preserves (T:=T) (U:=U) Size.
Proof. apply preserves_gets. Qed.

Lemma preserves_Capacity : preserves (T:=T) (U:=U) Capacity.
Proof. apply preserves_gets. Qed.

Lemma preserves_end : preserves (T:=T) (U:=U) end_.
Proof. unfold end_. apply preserves_bind; [apply preserves_Size|intros ?; apply preserves_ret]. Qed.

Lemma preserves_in_object {A} (v : Vector T) (body : St (frame T U) A) :
  preserves (in_object v body).
Proof. intros st. unfold in_object. by destruct (body _) as [[| |] ?]. Qed.

Lemma hoare_tail {A} (m : St (frame T U) A) s c nd o (Q : A → frame T U → Prop) R :
  preserves m →
  (∀ a st, shaped s c nd o st → Q a st) →
  (∀ st, shaped s c nd o st → R st) →
  hoare (shaped s c nd o) m Q R.
Proof. intros Hm HQ HR. eapply hoare_conseq; [by apply hoare_preserves|done..]. Qed.

End MethodFacts.

#[global] Hint Resolve preserves_Size preserves_Capacity preserves_end
  preserves_in_object : shape.

Ltac hstep :=
  first
    [ eapply hoare_read; [first [apply hoare_Size | apply hoare_Capacity]|intros ? ->]
    | apply hoare_step; [solve [preserves_tac]|shaped_tac|intros ?] ].

Section Programs.
Context {T U : Type} `{!Element T U}.
Implicit Types (st : frame T U) (e : Env T U) (o v va vb : Vector T).
Implicit Types (m : machine (T:=T) (U:=U)).

Lemma hoare_modify_ret {A} (P : frame T U → Prop) (f : frame T U → frame T U) (a : A)
    (Q : A → frame T U → Prop) R :
  (∀ st, P st → Q a (f st)) → hoare P (modify f ;;; st_ret a) Q R.
Proof. intros HQ st HP. by apply HQ. Qed.

Lemma Resize_hoare n s c o :
  s ≤ c →
  hoare (shaped s c 0 o) (Resize n)
    (λ _ st, ∃ c', n ≤ c' ∧ shaped n c' 0 o st)
    (λ st, ∃ c', s ≤ c' ∧ shaped s c' 0 o st).
Proof.
  intros Hsc. unfold Resize. hstep.
  eapply hoare_bind with (Q' := λ _ st, ∃ c', (n ≤ c' ∧ s ≤ c') ∧ shaped s c' 0 o st).
  - case_bool_decide as Hn.
    + apply hoare_tail; [auto with shape|intros ? st ?; exists c; split; [lia|done]
                        |intros st ?; exists c; split; [lia|done]].
    + eapply hoare_bind.
      * eapply hoare_conseq; [apply Reserve_hoare|done|done|].
        intros st ?. by exists c.
      * intros ?. apply hoare_tail; [auto with shape| |].
        -- intros ? st ?. exists (Nat.max c n). split; [lia|done].
        -- intros st ?. exists (Nat.max c n). split; [lia|done].
  - intros ?. apply hoare_exists. intros c'. apply hoare_pure. intros [Hn Hs].
    apply hoare_modify. intros st Hst. exists c'. split; [done|]. revert st Hst. shaped_tac.
Qed.

Lemma EmplaceBack_hoare args s c o :
  s ≤ c →
  hoare (shaped s c 0 o) (EmplaceBack args)
    (λ _ st, ∃ c', s + 1 ≤ c' ∧ shaped (s + 1) c' 0 o st)
    (shaped s c 0 o).
Proof.
  intros Hsc. unfold EmplaceBack. do 2 hstep. pose proof (grown_gt s).
  eapply hoare_bind with (Q' := λ _ st, ∃ c', s + 1 ≤ c' ∧ shaped s c' 0 o st).
  - case_bool_decide as Hn.
    + apply with_new_data_hoare; [done|].
      do 4 hstep. apply hoare_modify. intros st Hst. exists (grown s). split; [lia|].
      revert st Hst. shaped_tac.
    + hstep. apply hoare_tail; [auto with shape| |done].
      intros ? st ?. exists c. split; [lia|done].
  - intros ?. apply hoare_exists. intros c'. apply hoare_pure. intros Hc'.
    apply hoare_modify_ret. intros st Hst. exists c'. split; [done|].
    revert st Hst. shaped_tac.
Qed.

Lemma PopBack_hoare s c o :
  hoare (shaped s c 0 o) PopBack (λ _, shaped (s - 1) c 0 o) (shaped s c 0 o).
Proof. unfold PopBack. do 4 hstep. apply hoare_modify. shaped_tac. Qed.

Lemma EmplaceRealloc_hoare pos args s c o :
  hoare (shaped s c 0 o) (EmplaceRealloc pos args)
    (λ _, shaped (s + 1) (grown s) 0 o) (shaped s c 0 o).
Proof.
  unfold EmplaceRealloc, EmplaceRealloc_with. do 2 hstep.
  eapply hoare_bind with (Q' := λ _, shaped s (grown s) 0 o).
  - apply with_new_data_hoare; [done|].
    do 6 hstep. apply hoare_modify. shaped_tac.
  - intros ?. apply hoare_modify_ret. shaped_tac.
Qed.

Lemma EmplaceMove_hoare pos args s c o :
  hoare (shaped s c 0 o) (EmplaceMove pos args)
    (λ _, shaped (s + 1) c 0 o) (shaped s c 0 o).
Proof.
  unfold EmplaceMove, EmplaceMove_with. do 5 hstep. apply hoare_modify_ret. shaped_tac.
Qed.

Lemma Emplace_hoare pos args s c o :
  s ≤ c →
  hoare (shaped s c 0 o) (Emplace pos args)
    (λ _ st, ∃ c', s + 1 ≤ c' ∧ shaped (s + 1) c' 0 o st)
    (shaped s c 0 o).
Proof.
  intros Hsc. unfold Emplace, Emplace_with. do 2 hstep. pose proof (grown_gt s).
  case_bool_decide as Hn.
  - eapply hoare_conseq; [apply EmplaceRealloc_hoare|done| |done].
    intros ? st ?. exists (grown s). split; [lia|done].
  - eapply hoare_conseq; [apply EmplaceMove_hoare|done| |done].
    intros ? st ?. exists c. split; [lia|done].
Qed.

Lemma Erase_hoare pos s c o :
  hoare (shaped s c 0 o) (Erase pos) (λ _, shaped (s - 1) c 0 o) (shaped s c 0 o).
Proof.
  unfold Erase. do 2 hstep.
  eapply hoare_bind; [apply PopBack_hoare|intros ?; by apply hoare_ret].
Qed.

Lemma Vector_sized_hoare n s c o :
  hoare (shaped s c 0 o) (Vector_sized n) (λ _, shaped n n 0 o) (λ _, True).
Proof.
  unfold Vector_sized.
  eapply hoare_bind; [eapply hoare_conseq; [apply Allocate_hoare|done..]|].
  intros b. simpl. apply hoare_pure with (P := shaped s c 0 o). intros Hb.
  eapply hoare_bind; [apply hoare_modify|intros ?; by apply hoare_tail; auto with shape].
  intros st Hst. revert st Hst. shaped_tac.
Qed.

Lemma Vector_copy_hoare s c o :
  hoare (shaped s c 0 o) Vector_copy (λ _, shaped (size_ o) (size_ o) 0 o) (λ _, True).
Proof.
  unfold Vector_copy.
  eapply hoare_bind with (Q' := λ a st, a = size_ o ∧ shaped s c 0 o st).
  { apply hoare_gets. intros st [? Ho]. by rewrite Ho. }
  intros ?. apply hoare_pure. intros ->.
  eapply hoare_bind; [eapply hoare_conseq; [apply Allocate_hoare|done..]|].
  intros b. simpl. apply hoare_pure with (P := shaped s c 0 o). intros Hb.
  eapply hoare_bind; [apply hoare_modify|intros ?; by apply hoare_tail; auto with shape].
  intros st Hst. revert st Hst. shaped_tac.
Qed.

Lemma destroy_at_noexcept (p : ptr) st : (destroy_at p st).1 ≠ Throw.
Proof.
  unfold destroy_at, st_bind, load, lift_env, store.
  repeat (case_match; simplify_eq; simpl; try done).
Qed.

Lemma destroy_n_noexcept (p : ptr) n st : (destroy_n p n st).1 ≠ Throw.
Proof.
  revert p st. induction n as [|n IH]; intros p st; simpl; [done|].
  unfold st_bind. pose proof (destroy_at_noexcept p st).
  destruct (destroy_at p st) as [[| |] st1]; simpl in *; [apply IH|done..].
Qed.

Lemma Vector_destructor_noexcept st : (Vector_destructor st).1 ≠ Throw.
Proof. unfold Vector_destructor, st_bind, Size, gets. apply destroy_n_noexcept. Qed.

Lemma assign_from_other_hoare s c o :
  s ≤ c →
  hoare (shaped s c 0 o) assign_from_other
    (λ _ st, size_le_capacity (this st)) (shaped s c 0 o).
Proof.
  intros Hsc. unfold assign_from_other.
  eapply hoare_bind with (Q' := λ a st, a = size_ o ∧ shaped s c 0 o st).
  { apply hoare_gets. intros st [? Ho]. by rewrite Ho. }
  intros ?. apply hoare_pure. intros ->. hstep.
  case_bool_decide as Hcap.
  - eapply hoare_bind with
      (Q' := λ r st, size_le_capacity r.2 ∧ shaped s c 0 o st).
    { intros st Hst. unfold in_object.
      pose proof (Vector_copy_hoare 0 0 o (MkFrame (MkVector [] 0) [] (other st) (env st))) as Hc.
      destruct Hst as [Hs Ho].
      destruct (Vector_copy _) as [[[]| |] st1]; [|done..].
      destruct Hc as [Hc _]; [by rewrite Ho|].
      unfold shape in Hc. simpl. split; [|done].
      unfold size_le_capacity, capacity. simplify_eq. lia. }
    intros r. apply hoare_pure. intros Hr.
    eapply hoare_bind with (Q' := λ _ st, size_le_capacity (this st)).
    { intros st Hst. unfold Swap_local, Vector_Swap, size_le_capacity, capacity in *.
      simpl. done. }
    intros v. eapply hoare_bind with (Q' := λ _ st, size_le_capacity (this st)).
    { intros st Hst. unfold in_object.
      pose proof (Vector_destructor_noexcept (MkFrame v [] (other st) (env st))).
      by destruct (Vector_destructor _) as [[| |] ?]. }
    intros ?. by apply hoare_ret.
  - hstep.
    eapply hoare_bind with (Q' := λ _, shaped s c 0 o).
    { case_bool_decide.
      - hstep. by apply hoare_ret.
      - hstep. by apply hoare_ret. }
    intros copy_size. hstep. apply hoare_modify. shaped_tac.
Qed.

(** What a member function makes of an object that satisfies the
    invariant, from its specification on shapes. *)
Lemma hoare_keeps {A} (body : St (frame T U) A) :
  (∀ s c o, s ≤ c →
     hoare (shaped s c 0 o) body
       (λ _ st, size_le_capacity (this st)) (λ st, size_le_capacity (this st))) →
  ∀ v o e, size_le_capacity v →
    match body (enter v o e) with
    | (Undef, _) => True
    | (_, st') => size_le_capacity (this st')
    end.
Proof.
  intros Hb v o e Hv.
  specialize (Hb (size_ v) (length (data_ v)) o Hv (enter v o e)).
  destruct (body (enter v o e)) as [[| |] st']; [..|done]; by apply Hb.
Qed.

Lemma method_keeps {A} a arg (body : St (frame T U) A) m :
  (∀ v e, size_le_capacity v →
     match body (enter v arg e) with
     | (Undef, _) => True
     | (_, st') => size_le_capacity (this st')
     end) →
  all_size_le_capacity m →
  match method a arg body m with
  | (Undef, _) => True
  | (_, m') => all_size_le_capacity m'
  end.
Proof.
  intros Hb Hm. unfold method. destruct (objs m !! a) as [v|] eqn:Ha; [|done].
  specialize (Hb v (world m) (Hm a v Ha)). unfold enter in Hb.
  destruct (body _) as [r st']. 
  assert (size_le_capacity (this st') → all_size_le_capacity
            (MkMachine (<[a := this st']> (objs m)) (env st'))) as Hall.
  { intros Hv a' v'. simpl. rewrite lookup_insert. case_decide; [by intros [= <-]|apply Hm]. }
  destruct r; auto.
Qed.

Lemma constructor_keeps a arg (body : St (frame T U) unit) m :
  (∀ e, match body (enter (MkVector [] 0) arg e) with
        | (Ok _, st') => size_le_capacity (this st')
        | _ => True
        end) →
  all_size_le_capacity m →
  match constructor a arg body m with
  | (Undef, _) => True
  | (_, m') => all_size_le_capacity m'
  end.
Proof.
  intros Hb Hm. unfold constructor. specialize (Hb (world m)). unfold enter in Hb.
  destruct (body _) as [[[]| |] st']; [|done..].
  intros a' v'. simpl. rewrite lookup_insert. case_decide; [by intros [= <-]|apply Hm].
Qed.

Lemma Swap_eq a b va vb m :
  objs m !! a = Some va → objs m !! b = Some vb →
  Swap a b m = (Ok tt, MkMachine (<[b := va]> (<[a := vb]> (objs m))) (world m)).
Proof.
  intros Ha Hb. unfold Swap, st_bind, obj, put, modify. simpl.
  rewrite Ha, Hb. simpl.
  destruct (decide (a = b)) as [->|Hne].
  - simplify_eq. rewrite !lookup_insert_eq. simpl. rewrite !lookup_insert_eq. simpl.
    rewrite !insert_insert_eq. by destruct va.
  - rewrite lookup_insert_ne, Hb by done. simpl.
    rewrite (lookup_insert_ne _ b a), lookup_insert_eq by done. simpl.
    rewrite lookup_insert_eq. simpl.
    rewrite (lookup_insert_ne _ a b), lookup_insert_eq by done. simpl.
    f_equal. f_equal. destruct va, vb. simpl.
    apply map_eq. intros i. rewrite !lookup_insert. repeat case_decide; simplify_eq; done.
Qed.

Lemma Swap_keeps a b m :
  all_size_le_capacity m →
  match Swap a b m with
  | (Undef, _) => True
  | (_, m') => all_size_le_capacity m'
  end.
Proof.
  intros Hm. destruct (objs m !! a) as [va|] eqn:Ha.
  - destruct (objs m !! b) as [vb|] eqn:Hb.
    + rewrite (Swap_eq a b va vb) by done. intros c v. simpl.
      rewrite !lookup_insert. repeat case_decide; try intros [= <-]; eauto.
    + unfold Swap, st_bind, obj. by rewrite Ha, Hb.
  - unfold Swap, st_bind, obj. by rewrite Ha.
Qed.

Lemma shaped_invariant s c nd o st : s ≤ c → shaped s c nd o st → size_le_capacity (this st).
Proof. intros Hsc [Hs _]. unfold shape, size_le_capacity, capacity in *. simplify_eq. lia. Qed.

Lemma bind_keeps {A B} (p : St (machine (T:=T) (U:=U)) A) (k : A → St (machine (T:=T) (U:=U)) B) m :
  match p m with
  | (Undef, _) => True
  | (_, m') => all_size_le_capacity m'
  end →
  (∀ a m', all_size_le_capacity m' →
     match k a m' with
     | (Undef, _) => True
     | (_, m'') => all_size_le_capacity m''
     end) →
  match st_bind p k m with
  | (Undef, _) => True
  | (_, m') => all_size_le_capacity m'
  end.
Proof.
  intros Hp Hk. unfold st_bind. destruct (p m) as [[a| |] m1]; [|done..]. by apply Hk.
Qed.

Lemma obj_keeps a m :
  all_size_le_capacity m →
  match obj a m with
  | (Ok v, m') => m' = m ∧ objs m !! a = Some v
  | (Throw, _) => False
  | (Undef, _) => True
  end.
Proof. intros Hm. unfold obj. by destruct (objs m !! a). Qed.

Lemma exec_keeps c m :
  all_size_le_capacity m →
  match exec c m with
  | (Undef, _) => True
  | (_, m') => all_size_le_capacity m'
  end.
Proof.
  intros Hm. destruct c as [a|a n|a b|a b|a b|a b|a b|a|a n|a n|a args|a|a i args|a i]; cbn [exec].
  - (* Vector() *)
    apply constructor_keeps; [|done]. intros e. simpl. unfold size_le_capacity, capacity. simpl. lia.
  - (* Vector(n) *)
    apply constructor_keeps; [|done]. intros e.
    pose proof (Vector_sized_hoare n 0 0 nobody (enter (MkVector [] 0) nobody e)) as Hh.
    destruct (Vector_sized n _) as [[[]| |] st']; [|done..].
    eapply (shaped_invariant n n); [done|]. by apply Hh.
  - (* Vector(const Vector&) *)
    unfold st_bind. pose proof (obj_keeps b m Hm) as Ho.
    destruct (obj b m) as [[o| |] m1]; [|done..]. destruct Ho as [-> _].
    apply constructor_keeps; [|done]. intros e.
    pose proof (Vector_copy_hoare 0 0 o (enter (MkVector [] 0) o e)) as Hh.
    destruct (Vector_copy _) as [[[]| |] st']; [|done..].
    eapply (shaped_invariant (size_ o) (size_ o)); [done|]. by apply Hh.
  - (* Vector(Vector&&) *)
    unfold Vector_move. apply bind_keeps.
    + apply constructor_keeps; [|done]. intros e. simpl.
      unfold size_le_capacity, capacity. simpl. lia.
    + intros ? m' Hm'. by apply Swap_keeps.
  - (* operator=(const Vector&) *)
    unfold Vector_assign. unfold st_bind.
    pose proof (obj_keeps a m Hm) as Ho.
    destruct (obj a m) as [[va| |] m1]; [|done..]. destruct Ho as [-> _].
    pose proof (obj_keeps b m Hm) as Ho.
    destruct (obj b m) as [[vb| |] m1]; [|done..]. destruct Ho as [-> _].
    case_bool_decide; [|done].
    apply method_keeps; [|done]. intros v0 e0. apply hoare_keeps. intros s c o Hsc.
    eapply hoare_conseq; [by apply assign_from_other_hoare|done|done|].
    intros st. by apply shaped_invariant.
  - (* operator=(Vector&&) *) by apply Swap_keeps.
  - (* Swap *) by apply Swap_keeps.
  - (* ~Vector() *)
    unfold Vector_delete. apply bind_keeps.
    + apply method_keeps; [|done]. intros v0 e0. apply hoare_keeps. intros s c o Hsc.
      apply hoare_tail.
      * unfold Vector_destructor. preserves_tac.
      * intros ? st. by apply shaped_invariant.
      * intros st. by apply shaped_invariant.
    + intros ? m' Hm' a' v'. simpl. rewrite lookup_delete. case_decide; [done|apply Hm'].
  - (* Reserve *)
    apply method_keeps; [|done]. intros v0 e0. apply hoare_keeps. intros s c o Hsc.
    eapply hoare_conseq; [apply Reserve_hoare|done| |].
    + intros ? st. apply shaped_invariant. lia.
    + intros st. by apply shaped_invariant.
  - (* Resize *)
    apply method_keeps; [|done]. intros v0 e0. apply hoare_keeps. intros s c o Hsc.
    eapply hoare_conseq; [by apply Resize_hoare|done| |].
    + intros ? st (c' & ? & ?). by eapply shaped_invariant.
    + intros st (c' & ? & ?). by eapply shaped_invariant.
  - (* EmplaceBack *)
    apply method_keeps; [|done]. intros v0 e0. apply hoare_keeps. intros s c o Hsc.
    eapply hoare_bind;
      [eapply hoare_conseq; [by apply EmplaceBack_hoare|done|done|intros st; by apply shaped_invariant]|].
    intros p. apply hoare_ret. intros st (c' & ? & ?). by eapply shaped_invariant.
  - (* PopBack *)
    apply method_keeps; [|done]. intros v0 e0. apply hoare_keeps. intros s c o Hsc.
    eapply hoare_conseq; [apply PopBack_hoare|done| |].
    + intros ? st. apply shaped_invariant. lia.
    + intros st. by apply shaped_invariant.
  - (* Emplace *)
    apply method_keeps; [|done]. intros v0 e0. apply hoare_keeps. intros s c o Hsc.
    eapply hoare_bind;
      [eapply hoare_conseq; [by apply Emplace_hoare|done|done|intros st; by apply shaped_invariant]|].
    intros p. apply hoare_ret. intros st (c' & ? & ?). by eapply shaped_invariant.
  - (* Erase *)
    apply method_keeps; [|done]. intros v0 e0. apply hoare_keeps. intros s c o Hsc.
    eapply hoare_bind;
      [eapply hoare_conseq; [apply Erase_hoare|done|done|intros st; by apply shaped_invariant]|].
    intros p. apply hoare_ret. intros st. apply shaped_invariant. lia.
Qed.

(** C9: [size <= capacity] holds for a default-constructed vector, every
    call of the interface that returns or throws preserves it for all the
    vectors of the program, and so it holds in every reachable state. *)
Theorem C9_size_le_capacity_invariant :
  (∀ a (m : machine (T:=T) (U:=U)),
     ∃ m', exec (CDefault a) m = (Ok tt, m') ∧
           objs m' !! a = Some (MkVector [] 0) ∧
           size_le_capacity (MkVector (T:=T) [] 0)) ∧
  (∀ c (m : machine (T:=T) (U:=U)),
     all_size_le_capacity m →
     match exec c m with
     | (Undef, _) => True
     | (_, m') => all_size_le_capacity m'
     end) ∧
  (∀ m : machine (T:=T) (U:=U), reachable m → all_size_le_capacity m).
Proof.
  split; [|split].
  - intros a m. eexists. split; [done|]. simpl. rewrite lookup_insert_eq.
    split; [done|]. unfold size_le_capacity, capacity. simpl. lia.
  - apply exec_keeps.
  - intros m Hr. induction Hr as [e|m c r m' _ IH Hexec Hr].
    + intros a v. simpl. by rewrite lookup_empty.
    + pose proof (exec_keeps c m IH) as Hk. rewrite Hexec in Hk. by destruct r.
Qed.

(** C10: [v = v] changes nothing: the objects, the program state of the
    element type and the record of special member calls are what they
    were, so no element was copied, assigned or destroyed. *)
Theorem C10_self_assignment a v m :
  objs m !! a = Some v → Vector_assign a a m = (Ok tt, m).
Proof.
  intros Ha. unfold Vector_assign, st_bind, obj. rewrite Ha.
  rewrite bool_decide_false by (intros Hn; by apply Hn). by rewrite Ha.
Qed.

Lemma Vector_move_eq a b vb m :
  a ≠ b → objs m !! b = Some vb →
  Vector_move a b m =
    (Ok tt, MkMachine (<[b := MkVector [] 0]> (<[a := vb]> (objs m))) (world m)).
Proof.
  intros Hne Hb. unfold Vector_move, st_bind, constructor, Vector_default, modify. simpl.
  rewrite (Swap_eq a b (MkVector [] 0) vb); simpl.
  - by rewrite insert_insert_eq.
  - by rewrite lookup_insert_eq.
  - by rewrite lookup_insert_ne.
Qed.

(** C2 (amended): move construction gives the new vector the storage and
    size of the source and leaves the source empty; move assignment
    exchanges the storage and sizes of the two vectors, so the source is
    left with what the destination held.  Neither touches an element. *)
Theorem C2_move_transfer a b m :
  (∀ vb, a ≠ b → objs m !! b = Some vb →
     ∃ m', Vector_move a b m = (Ok tt, m') ∧
       objs m' !! a = Some vb ∧ objs m' !! b = Some (MkVector [] 0) ∧
       left_empty m' b ∧ world m' = world m) ∧
  (∀ va vb, a ≠ b → objs m !! a = Some va → objs m !! b = Some vb →
     ∃ m', Vector_move_assign a b m = (Ok tt, m') ∧
       objs m' !! a = Some vb ∧ objs m' !! b = Some va ∧ world m' = world m).
Proof.
  split.
  - intros vb Hne Hb. eexists. split; [by apply Vector_move_eq|].
    unfold left_empty. simpl. rewrite lookup_insert_eq.
    rewrite lookup_insert_ne, lookup_insert_eq by done. eauto 6.
  - intros va vb Hne Ha Hb. eexists. split; [by apply Swap_eq|].
    simpl. rewrite lookup_insert_eq.
    by rewrite lookup_insert_ne, lookup_insert_eq.
Qed.

Lemma Vector_assign_eq a b va vb m :
  a ≠ b → objs m !! a = Some va → objs m !! b = Some vb →
  Vector_assign a b m =
    let '(r, st) := assign_from_other (enter va vb (world m)) in
    (r, MkMachine (<[a := this st]> (objs m)) (env st)).
Proof.
  intros Hne Ha Hb. unfold Vector_assign, st_bind, obj. rewrite Ha, Hb.
  rewrite bool_decide_true by done. unfold method. by rewrite Ha.
Qed.

(** C7: after a copy assignment that returns, the receiver has the size
    and the elements of the source, in order; when the source holds more
    elements than the receiver's capacity a failure leaves the receiver as
    it was; and whenever the assignment throws, [size_] is still the old
    size.  Stated for an element type whose copies and completed
    assignments preserve the value; when nothing throws, the assignment
    returns. *)
Theorem C7_copy_assignment a b xs k rs rk m :
  copies_faithfully → assigns_faithfully →
  a ≠ b → objs m !! a = Some (rep xs k) → objs m !! b = Some (rep rs rk) →
  match Vector_assign a b m with
  | (Ok _, m') =>
      ∃ k', objs m' = <[a := rep rs k']> (objs m)
  | (Throw, m') =>
      ∃ v', objs m' = <[a := v']> (objs m) ∧ size_ v' = length xs ∧
        (capacity (rep xs k) < length rs → v' = rep xs k)
  | (Undef, _) => False
  end ∧
  (nothrow → ∃ m', Vector_assign a b m = (Ok tt, m')).
Proof.
  intros Hc Has Hne Ha Hb. rewrite (Vector_assign_eq a b _ _ m Hne Ha Hb).
  split; [|intros Hn;
           destruct (assign_from_other_returns xs k rs rk (world m) Hn) as [st' ->];
           by eexists].
  rewrite assign_from_other_eq. unfold capacity. rewrite rep_capacity.
  case_bool_decide as Hcap.
  - destruct (can_allocate _ _); [|by eexists].
    destruct (copy_list rs (world m)) as [[cs|] e'] eqn:Hcs; [|by eexists].
    apply copy_list_faithful in Hcs as ->; [|done]. by eexists.
  - case_bool_decide as Hle.
    + destruct (assign_list _ _ _ _) as [[[] ds] e'] eqn:Hds.
      * apply assign_list_faithful in Hds as ->; [|done|rewrite length_take; lia].
        by eexists.
      * eexists. split; [done|]. split; [done|]. intros ?. lia.
    + destruct (copy_list _ _) as [[cs|] e1] eqn:Hcs.
      * apply copy_list_faithful in Hcs as ->; [|done].
        destruct (assign_list _ _ _ _) as [[[] ds] e2] eqn:Hds.
        -- apply assign_list_faithful in Hds as ->; [|done|rewrite length_take; lia].
           simpl. rewrite take_drop. by eexists.
        -- eexists. split; [done|]. split; [done|]. intros ?. lia.
      * eexists. split; [done|]. split; [done|]. intros ?. lia.
Qed.

End Programs.

(** ** Insertion in place for element types whose move is a copy

    [EmplaceMove] moves the last object into the free slot and then shifts the
    range that still contains it. When moving leaves the source as it was,
    as for [int], the shift overwrites the new last slot with the same value
    and the insertion is the one expected. *)


Section InPlace.
Context {T U : Type} `{!Element T U}.
Implicit Types (st : frame T U) (e : Env T U) (o : Vector T) (p : place).
Implicit Types (xs zs : list T) (pre post : RawMemory T).

Lemma construct_move_at_next p pre x post st :
  moves_are_copies → writable p = true →
  slots p st = pre ++ Some x :: None :: post →
  ∃ e', construct_move_at (MkPtr p (S (length pre))) (MkPtr p (length pre)) st =
          (Ok tt, set_slots p (pre ++ Some x :: Some x :: post) (set_env e' st)).
Proof.
  intros [Hmc _] Hw Hs. unfold construct_move_at.
  erewrite bind_ok; last by (apply load_eq; rewrite Hs; apply list_lookup_middle).
  unfold st_bind at 1. unfold lift_env, T_move. simpl.
  specialize (Hmc x (user (env st))).
  destruct (move_construct x (user (env st))) as [[r x'] u]. simpl in Hmc.
  injection Hmc as -> ->. simpl.
  exists (MkEnv u (trace (env st) ++ [EvMove x])).
  erewrite bind_ok; last by (eapply store_eq; [done|rewrite slots_set_env]).
  simpl.
  replace (S (length pre)) with (length (pre ++ [Some x])) by (rewrite length_app; simpl; lia).
  rewrite (store_eq p (pre ++ [Some x]) None (Some x) post); [|done|].
  - f_equal. rewrite <- app_assoc. simpl.
    destruct p, st as [[] ? ? []]; frame_simpl; done.
  - rewrite slots_set_slots, decide_True by done. by rewrite <- app_assoc.
Qed.

Lemma assign_move_next p pre s d post st :
  moves_are_copies → writable p = true →
  slots p st = pre ++ Some s :: Some d :: post →
  ∃ e', assign_move (MkPtr p (S (length pre))) (MkPtr p (length pre)) st =
          (Ok tt, set_slots p (pre ++ Some s :: Some s :: post) (set_env e' st)).
Proof.
  intros [_ Hma] Hw Hs. unfold assign_move.
  erewrite bind_ok.
  2:{ apply load_eq. rewrite Hs.
      replace (S (length pre)) with (length (pre ++ [Some s])) by (rewrite length_app; simpl; lia).
      replace (pre ++ Some s :: Some d :: post) with ((pre ++ [Some s]) ++ Some d :: post)
        by (by rewrite <- app_assoc).
      by apply list_lookup_middle. }
  erewrite bind_ok; last by (apply load_eq; rewrite Hs; apply list_lookup_middle).
  unfold st_bind at 1. unfold lift_env, T_move_assign. simpl.
  specialize (Hma d s (user (env st))).
  destruct (move_assign d s (user (env st))) as [[[ok d'] s'] u]. simpl in Hma.
  injection Hma as -> -> ->. simpl.
  exists (MkEnv u (trace (env st) ++ [EvMoveAssign d s])).
  erewrite bind_ok; last by (eapply store_eq; [done|rewrite slots_set_env]).
  simpl.
  replace (S (length pre)) with (length (pre ++ [Some s])) by (rewrite length_app; simpl; lia).
  erewrite bind_ok.
  2:{ apply (store_eq p (pre ++ [Some s]) (Some d) (Some s) post); [done|].
      rewrite slots_set_slots, decide_True by done. by rewrite <- app_assoc. }
  unfold st_ret. f_equal. rewrite <- app_assoc. simpl.
  destruct p, st as [[] ? ? []]; frame_simpl; done.
Qed.

Lemma move_backward_n_plain p zs :
  moves_are_copies → writable p = true →
  ∀ pre w post st,
  slots p st = pre ++ (Some <$> zs) ++ Some w :: post →
  ∃ e', move_backward_n (MkPtr p (length pre + length zs)) (length zs)
          (MkPtr p (length pre + length zs + 1)) st =
        (Ok tt, set_slots p (pre ++ (Some <$> shifted zs w) ++ post) (set_env e' st)).
Proof.
  intros Hplain Hw. induction zs as [|z zs IH] using rev_ind; intros pre w post st Hs.
  - simpl in *. exists (env st). unfold st_ret. f_equal.
    destruct p, st as [[] ? ? []]; frame_simpl; try done; by rewrite Hs.
  - rewrite length_app. simpl length. rewrite Nat.add_1_r. simpl move_backward_n.
    unfold st_bind at 1. unfold ptr_sub. simpl.
    rewrite bool_decide_true by lia. unfold st_ret.
    unfold st_bind at 1. simpl. rewrite bool_decide_true by lia.
    replace (length pre + S (length zs) + 1 - 1) with (S (length (pre ++ (Some <$> zs))))
      by (rewrite length_app, length_fmap; lia).
    replace (length pre + S (length zs) - 1) with (length (pre ++ (Some <$> zs)))
      by (rewrite length_app, length_fmap; lia).
    destruct (assign_move_next p (pre ++ (Some <$> zs)) z w post st Hplain Hw) as [e1 Ha].
    { rewrite Hs, fmap_app, <- !app_assoc. done. }
    unfold st_bind at 1. rewrite Ha.
    rewrite length_app, length_fmap.
    destruct (IH pre z (Some z :: post)
                (set_slots p ((pre ++ (Some <$> zs)) ++ Some z :: Some z :: post)
                   (set_env e1 st))) as [e2 Hb].
    { rewrite slots_set_slots, decide_True by done. by rewrite <- app_assoc. }
    replace (length pre + length zs + 1) with (S (length pre + length zs)) in Hb by lia.
    rewrite Hb. exists e2. f_equal.
    assert ((Some <$> shifted zs z) ++ Some z :: post =
            (Some <$> shifted (zs ++ [z]) w) ++ post) as Hsh.
    { destruct zs as [|z0 zs]; simpl; [done|].
      by rewrite fmap_app, <- app_assoc. }
    rewrite <- Hsh.
    destruct p, st as [[] ? ? []]; frame_simpl; done.
Qed.

Lemma shifted_cons zs w : ∃ h, shifted zs w = h :: zs.
Proof. destruct zs; simpl; eauto. Qed.

Lemma ptr_diff_begin i st :
  ptr_diff (MkPtr Data i) (MkPtr Data 0) st = (Ok i, st).
Proof. unfold ptr_diff. simpl. by rewrite Nat.sub_0_r. Qed.

Lemma EmplaceMove_fill (args : Env T U → option T * Env T U) xs k i o e0 :
  i ≤ length xs →
  match
    (p <- RawMemory_plus Data i ;;
     construct_at p args ;;;
     modify (set_size (length xs + 1)) ;;;
     st_ret p) (vacated xs k i o e0)
  with
  | (Ok p, st') =>
      p = MkPtr Data i ∧
      ∃ y e', st' = enter (rep (take i xs ++ y :: drop i xs) k) o e' ∧
              ∃ e1, args e1 = (Some y, e')
  | (Throw, _) => ∃ e1 e', args e1 = (None, e')
  | (Undef, _) => False
  end.
Proof.
  intros Hi. unfold vacated.
  unfold st_bind at 1. unfold RawMemory_plus, st_bind at 1, gets. norm.
  rewrite bool_decide_true.
  2:{ rewrite length_app, length_fmap, length_take. lia. }
  unfold st_ret. unfold st_bind at 1.
  rewrite (construct_at_at Data _ (Some <$> take i xs)
             ((Some <$> drop i xs) ++ replicate k None));
    [|done|by rewrite length_fmap, length_take; lia|done].
  norm. destruct (args e0) as [[y|] e1] eqn:Hargs; [|by eauto].
  unfold modify, st_bind. norm. split; [done|].
  exists y, e1. split; [|by eauto]. unfold rep. f_equal. f_equal.
  - rewrite fmap_app. simpl. by rewrite <- app_assoc.
  - rewrite length_app. simpl. rewrite length_take, length_drop. lia.
Qed.

Lemma EmplaceMove_shift xs k i o e :
  moves_are_copies → length xs ≠ 0 → i ≤ length xs →
  ∃ e0,
    (p <- RawMemory_plus Data (length xs) ;;
     last <- ptr_sub (MkPtr Data (length xs)) 1 ;;
     construct_move_at p last ;;;
     try_catch
       (move_backward (MkPtr Data i) (MkPtr Data (length xs))
          (MkPtr Data (length xs + 1)))
       (destroy_at (MkPtr Data (length xs)) ;;; throw) ;;;
     destroy_at (MkPtr Data i)) (enter (rep xs (S k)) o e)
    = (Ok tt, vacated xs k i o e0).
Proof.
  intros Hplain Hne Hi.
  destruct xs as [|x0 xs0 _] using rev_ind; [done|].
  set (xs := xs0 ++ [x0]) in *.
  assert (length xs = S (length xs0)) as Hlen
    by (unfold xs; rewrite length_app; simpl; lia).
  unfold st_bind at 1.
  unfold RawMemory_plus at 1, st_bind at 1, gets. norm.
  rewrite rep_capacity. rewrite bool_decide_true by lia. unfold st_ret.
  unfold st_bind at 1. unfold ptr_sub. cbn [base off].
  rewrite bool_decide_true by lia.
  unfold st_ret. unfold st_bind at 1.
  destruct (construct_move_at_next Data (Some <$> xs0) x0 (replicate k None)
              (MkFrame (rep xs (S k)) [] o e) Hplain eq_refl) as [e1 Hc].
  { unfold xs. simpl. by rewrite fmap_app, <- app_assoc. }
  rewrite length_fmap in Hc.
  rewrite Hlen. replace (S (length xs0) - 1) with (length xs0) by lia.
  rewrite Hc. norm. cbn [rep size_]. clear Hc.
  assert (∃ e2 h,
    move_backward (MkPtr Data i) (MkPtr Data (S (length xs0)))
      (MkPtr Data (S (length xs0) + 1))
      (MkFrame (MkVector ((Some <$> xs0) ++ Some x0 :: Some x0 :: replicate k None)
                  (length xs)) [] o e1)
    = (Ok tt,
       MkFrame (MkVector ((Some <$> take i xs) ++ Some h :: (Some <$> drop i xs)
                          ++ replicate k None) (length xs)) [] o e2))
    as (e2 & h & Hb).
  { destruct (move_backward_n_plain Data (drop i xs) Hplain eq_refl
                (Some <$> take i xs) x0 (replicate k None)
                (MkFrame (MkVector ((Some <$> xs0) ++ Some x0 :: Some x0 :: replicate k None)
                            (length xs)) [] o e1)) as [e2 Hb].
    { norm. rewrite app_assoc, <- fmap_app, take_drop. unfold xs.
      by rewrite fmap_app, <- app_assoc. }
    rewrite length_fmap, length_take, length_drop in Hb.
    replace (i `min` length xs + (length xs - i)) with (S (length xs0)) in Hb by lia.
    destruct (shifted_cons (drop i xs) x0) as [h Hh]. rewrite Hh in Hb.
    exists e2, h. unfold move_backward, st_bind, ptr_diff. cbn [base off].
    rewrite bool_decide_true by done. rewrite bool_decide_true by lia.
    cbn [andb]. unfold st_ret.
    replace (length xs - i) with (S (length xs0) - i) in Hb by lia.
    rewrite Hb. by norm. }
  unfold st_bind at 1. unfold try_catch. rewrite Hb.
  exists (T_destroy h e2).
  rewrite (destroy_at_at Data _ (Some <$> take i xs) h
             ((Some <$> drop i xs) ++ replicate k None));
    [|done|by rewrite length_fmap, length_take; lia|done].
  by norm.
Qed.

Lemma EmplaceMove_plain (args : Env T U → option T * Env T U) xs k i o e :
  moves_are_copies → i ≤ length xs →
  match EmplaceMove (begin_ +ₚ i) args (enter (rep xs (S k)) o e) with
  | (Ok p, st') =>
      p = MkPtr Data i ∧
      ∃ y e', st' = enter (rep (take i xs ++ y :: drop i xs) k) o e' ∧
              ∃ e1, args e1 = (Some y, e')
  | (Throw, _) => ∃ e1 e', args e1 = (None, e')
  | (Undef, _) => False
  end.
Proof.
  intros Hplain Hi. unfold EmplaceMove, EmplaceMove_with, begin_, GetAddress, ptr_add.
  cbn [base off Nat.add].
  unfold st_bind at 1. rewrite ptr_diff_begin.
  unfold st_bind at 1. unfold Size, gets. cbn [enter this rep size_].
  unfold st_bind at 1. case_bool_decide as Hne.
  - destruct (EmplaceMove_shift xs k i o e Hplain Hne Hi) as [e0 ->].
    by apply EmplaceMove_fill.
  - assert (xs = []) as -> by (destruct xs; [done|simpl in Hne; lia]).
    simpl in Hi. assert (i = 0) as -> by lia.
    unfold st_ret at 1. by apply (EmplaceMove_fill args [] k 0 o e).
Qed.

Lemma Emplace_in_place_plain (args : Env T U → option T * Env T U) xs k i o e :
  moves_are_copies → i ≤ length xs →
  match Emplace (begin_ +ₚ i) args (enter (rep xs (S k)) o e) with
  | (Ok p, st') =>
      p = MkPtr Data i ∧
      ∃ y e', st' = enter (rep (take i xs ++ y :: drop i xs) k) o e' ∧
              ∃ e1, args e1 = (Some y, e')
  | (Throw, _) => ∃ e1 e', args e1 = (None, e')
  | (Undef, _) => False
  end.
Proof.
  intros Hplain Hi. unfold Emplace, Emplace_with. unfold st_bind at 1. unfold Size, gets.
  unfold st_bind at 1. unfold Capacity, gets. cbn [enter this].
  rewrite rep_capacity. cbn [rep size_].
  rewrite bool_decide_false by lia. by apply EmplaceMove_plain.
Qed.

End InPlace.

(** * The claims on concrete vectors *)

Lemma int_copies_faithfully : copies_faithfully (T:=nat) (U:=unit).
Proof. intros x u y u' [= <- _]. done. Qed.

Lemma int_moves_faithfully : moves_faithfully (T:=nat) (U:=unit).
Proof. intros x u y x' u' [= <- _ _]. done. Qed.

Lemma int_assigns_faithfully : assigns_faithfully (T:=nat) (U:=unit).
Proof. intros d s u d' u' [= <- _]. done. Qed.


Lemma int_nothrow : nothrow (T:=nat) (U:=unit).
Proof. repeat split; done. Qed.

Lemma fragile_transfer_protected : transfer_protected (T:=nat) (U:=nat).
Proof. intros Hmoves. discriminate Hmoves. Qed.

Lemma int_moves_are_copies : moves_are_copies (T:=nat) (U:=unit).
Proof. split; done. Qed.

(** For [Vector<int>] with spare capacity, [Insert] before position [i] of
    a value that is not an element of the vector gives the elements before
    [i], the new value, and the elements from [i] on, and takes one slot of
    the spare capacity. *)
Lemma int_insert_in_place (xs : list nat) (k i x : nat) :
  i ≤ length xs →
  ∃ e', Insert (begin_ +ₚ i) (Outside x) (enter (rep xs (S k)) nobody int_env) =
          (Ok (MkPtr Data i), enter (rep (take i xs ++ x :: drop i xs) k) nobody e').
Proof.
  intros Hi.
  change (Insert (begin_ +ₚ i) (Outside x))
    with (Emplace (T:=nat) (U:=unit) (begin_ +ₚ i) (by_copy x)).
  pose proof (Emplace_in_place_plain (by_copy x) xs k i nobody int_env
                int_moves_are_copies Hi) as H.
  destruct (Emplace _ _ _) as [[p| |] st'].
  - destruct H as (-> & y & e' & -> & e1 & Hy). exists e'.
    by injection Hy as <- _.
  - destruct H as (e1 & e' & Hy). discriminate Hy.
  - done.
Qed.

(** C1: with spare capacity, inserting into a [Vector<unique_ptr<int>>]
    that holds [1, 2, 3] before position 1 leaves [1, 99, 2, null]: the last
    element is moved into the new trailing slot and then overwritten by
    [move_backward] with its own moved-from source.  On a full vector the
    reallocating path gives [1, 99, 2, 3]. *)
Theorem C1_in_place_insert_loses_last_element :
  (∃ st', Insert_move (begin_ +ₚ 1) (Some 99)
            (enter (rep [Some 1; Some 2; Some 3] 1) nobody ptr_env)
          = (Ok (MkPtr Data 1), st') ∧
          this st' = rep [Some 1; Some 99; Some 2; None] 0 ∧
          this st' ≠ rep [Some 1; Some 99; Some 2; Some 3] 0) ∧
  (∃ st', Insert_move (begin_ +ₚ 3) (Some 99)
            (enter (rep [Some 1; Some 2; Some 3] 1) nobody ptr_env)
          = (Ok (MkPtr Data 3), st') ∧
          this st' = rep [Some 1; Some 2; None; Some 99] 0) ∧
  (∃ st', Insert_move (begin_ +ₚ 1) (Some 99)
            (enter (rep [Some 1; Some 2; Some 3] 0) nobody ptr_env)
          = (Ok (MkPtr Data 1), st') ∧
          this st' = rep [Some 1; Some 99; Some 2; Some 3] 2).
Proof.
  split; [|split].
  - eexists. split; [vm_compute; reflexivity|].
    split; [vm_compute; reflexivity|]. vm_compute. intros [=].
  - eexists. split; vm_compute; reflexivity.
  - eexists. split; vm_compute; reflexivity.
Qed.

(** C2, as stated, fails for move assignment: after [a = std::move(b)] on
    [a = [1]], [b = [2, 3]], the source [b] holds [[1]]. *)
Lemma C2_move_assignment_source_not_empty :
  ∃ m', Vector_move_assign 0 1 two_vectors = (Ok tt, m') ∧
        objs m' !! 1 = Some (rep [1] 0) ∧ ¬ left_empty m' 1.
Proof.
  eexists. split; [vm_compute; reflexivity|]. split; [vm_compute; reflexivity|].
  intros (v & Hv & Hsize). vm_compute in Hv. by simplify_eq.
Qed.

Lemma C2_witness :
  0 ≠ 1 ∧ objs two_vectors !! 0 = Some (rep [1] 0) ∧
  objs two_vectors !! 1 = Some (rep [2; 3] 0) ∧
  ∃ m', Vector_move_assign 0 1 two_vectors = (Ok tt, m') ∧
        objs m' !! 0 = Some (rep [2; 3] 0) ∧ objs m' !! 1 = Some (rep [1] 0) ∧
        world m' = world two_vectors.
Proof.
  split; [done|]. split; [reflexivity|]. split; [reflexivity|].
  apply (proj2 (C2_move_transfer 0 1 two_vectors)); [done|reflexivity..].
Defined.

Lemma C3_witness :
  transfer_protected (T:=nat) (U:=nat) ∧
  (* Reserve(4) on [7, 8]: the second copy throws *)
  (length [7; 8] + 0 < 4 ∧ fits (T:=nat) (U:=nat) 4 ∧
   (transfer_list [7; 8] (fragile_env 1)).1.1 = None ∧
   ∃ st', Reserve 4 (enter (rep [7; 8] 0) nobody (fragile_env 1)) = (Throw, st') ∧
          this st' = rep [7; 8] 0) ∧
  (* EmplaceBack(9) on the full [7, 8]: 9 is constructed, the second copy throws *)
  (by_copy 9 (fragile_env 2) = (Some 9, MkEnv 1 [EvCopy 9]) ∧
   (transfer_list [7; 8] (MkEnv 1 [EvCopy 9])).1.1 = None ∧
   ∃ st', EmplaceBack (by_copy 9) (enter (rep [7; 8] 0) nobody (fragile_env 2)) =
            (Throw, st') ∧
          this st' = rep [7; 8] 0) ∧
  (* Emplace(begin() + 1, 9) on the full [7, 8]: the copy of 8 throws *)
  (1 ≤ length [7; 8] ∧
   ∃ st', Emplace (begin_ +ₚ 1) (by_copy 9) (enter (rep [7; 8] 0) nobody (fragile_env 2)) =
            (Throw, st') ∧
          this st' = rep [7; 8] 0) ∧
  (* Emplace whose constructor throws *)
  (∃ st', Emplace (begin_ +ₚ 1) (by_copy 9) (enter (rep [7; 8] 0) nobody (fragile_env 0)) =
            (Throw, st') ∧
          this st' = rep [7; 8] 0).
Proof.
  destruct (C3_growth_strong_guarantee (T:=nat) (U:=nat) [7; 8])
    as (Hctor & Hstep & _).
  destruct (Hstep fragile_transfer_protected) as (HR & HB & HE).
  assert (length [7; 8] + 0 < 4) as Hn by (simpl; lia).
  assert (fits (T:=nat) (U:=nat) 4) as Hfits by (vm_compute; reflexivity).
  assert ((transfer_list (T:=nat) (U:=nat) [7; 8] (fragile_env 1)).1.1 = None)
    as Hf1 by reflexivity.
  assert (by_copy (T:=nat) (U:=nat) 9 (fragile_env 2) = (Some 9, MkEnv 1 [EvCopy 9]))
    as Hy by reflexivity.
  assert ((transfer_list (T:=nat) (U:=nat) [7; 8] (MkEnv 1 [EvCopy 9])).1.1 = None)
    as Hf2 by reflexivity.
  assert (1 ≤ length [7; 8]) as Hi by (simpl; lia).
  split; [exact fragile_transfer_protected|].
  split; [|split; [|split]].
  - split; [exact Hn|]. split; [exact Hfits|]. split; [exact Hf1|].
    exact (HR 4 0 nobody (fragile_env 1) Hn Hfits eq_refl Hf1).
  - split; [exact Hy|]. split; [exact Hf2|].
    exact (HB (by_copy 9) nobody (fragile_env 2) 9 (MkEnv 1 [EvCopy 9]) eq_refl Hy Hf2).
  - split; [exact Hi|].
    apply (HE (by_copy 9) 1 nobody (fragile_env 2) 9 (MkEnv 1 [EvCopy 9]) Hi eq_refl Hy).
    right. eexists _, _, _. split; reflexivity.
  - assert ((by_copy (T:=nat) (U:=nat) 9 (fragile_env 0)).1 = None) as Hnone by reflexivity.
    destruct (Hctor (by_copy 9) nobody (fragile_env 0) Hnone) as [_ HEc].
    exact (HEc 1 Hi).
Defined.

Lemma C4_witness :
  copies_faithfully (T:=nat) (U:=unit) ∧ moves_faithfully (T:=nat) (U:=unit) ∧
  match PushBack_all [1; 2; 3] (enter (MkVector [] 0) nobody int_env) with
  | (Ok _, st') =>
      size_ (this st') = 3 ∧
      ∀ i x, [1; 2; 3] !! i = Some x → at_ i st' = (Ok x, st')
  | (Throw, _) => True
  | (Undef, _) => False
  end ∧
  nothrow (T:=nat) (U:=unit) ∧
  ∃ k' e', PushBack_all [1; 2; 3] (enter (MkVector [] 0) nobody int_env) =
             (Ok tt, enter (rep [1; 2; 3] k') nobody e').
Proof.
  split; [exact int_copies_faithfully|]. split; [exact int_moves_faithfully|].
  destruct (C4_push_back_round_trip [1; 2; 3] nobody int_env
              int_copies_faithfully int_moves_faithfully) as [Hread Hret].
  split; [exact Hread|]. split; [exact int_nothrow|]. exact (Hret int_nothrow).
Defined.

Lemma C5_witness :
  (nothrow (T:=nat) (U:=unit) ∧
   Forall (constructs (T:=nat) (U:=unit)) [by_copy 1; by_copy 2; by_copy 3] ∧
   ∃ st', EmplaceBack_all [by_copy 1; by_copy 2; by_copy 3]
            (enter (MkVector [] 0) nobody int_env) = (Ok tt, st') ∧
          size_ (this st') = 3 ∧ capacity (this st') = 4) ∧
  0 < 5 ∧ ∃ j, cap_after 5 = 2 ^ j ∧ 2 ^ j < 2 * 5 ≤ 2 * 2 ^ j.
Proof.
  assert (Forall (constructs (T:=nat) (U:=unit)) [by_copy 1; by_copy 2; by_copy 3])
    as Hargs by (repeat constructor; apply T_copy_constructs, int_nothrow).
  split; [split; [exact int_nothrow|split; [exact Hargs|]]|split; [lia|]].
  - exact (proj1 (proj2 (proj2 (C5_append_size_and_doubling (T:=nat) (U:=unit))))
             [by_copy 1; by_copy 2; by_copy 3] nobody int_env int_nothrow Hargs).
  - apply (proj2 (proj2 (proj2 (C5_append_size_and_doubling (T:=nat) (U:=unit)))) 5). lia.
Defined.

Lemma C6_witness :
  (* the policy for the three element types of the examples *)
  relocation (T:=nat) (U:=nat) [7; 8] = [EvCopy 7; EvCopy 8] ∧
  relocation (T:=nat) (U:=unit) [7; 8] = [EvMove 7; EvMove 8] ∧
  relocation (T:=option nat) (U:=unit) [Some 7; Some 8] = [EvMove (Some 7); EvMove (Some 8)] ∧
  (* a copyable type whose move constructor may throw: Reserve *)
  (2 + 0 < 4 ∧
   ∃ st', Reserve 4 (enter (rep [7; 8] 0) nobody (fragile_env 2)) = (Ok tt, st') ∧
     ∃ old, length old = length [7; 8] ∧
       trace (env st') =
         trace (fragile_env 2) ++ relocation [7; 8] ++ (EvDestroy <$> old)) ∧
  (* the same type: EmplaceBack and Emplace on a full vector *)
  (∃ p st', EmplaceBack (by_copy 9) (enter (rep [7; 8] 0) nobody (fragile_env 3)) =
              (Ok p, st') ∧
     ∃ y e1 old, by_copy 9 (fragile_env 3) = (Some y, e1) ∧ length old = length [7; 8] ∧
       trace (env st') = trace e1 ++ relocation [7; 8] ++ (EvDestroy <$> old)) ∧
  (1 ≤ length [7; 8] ∧
   ∃ p st', Emplace (begin_ +ₚ 1) (by_copy 9) (enter (rep [7; 8] 0) nobody (fragile_env 3)) =
              (Ok p, st') ∧
     ∃ y e1 old, by_copy 9 (fragile_env 3) = (Some y, e1) ∧ length old = length [7; 8] ∧
       trace (env st') = trace e1 ++ relocation [7; 8] ++ (EvDestroy <$> old)) ∧
  (* the transfer throws part-way: Emplace whose second copy throws *)
  (by_copy 9 (fragile_env 2) = (Some 9, MkEnv 1 [EvCopy 9]) ∧
   ∃ st', Emplace (begin_ +ₚ 1) (by_copy 9) (enter (rep [7; 8] 0) nobody (fragile_env 2)) =
            (Throw, st') ∧
     ∃ j ds, j < length [7; 8] ∧
       trace (env st') =
         trace (MkEnv 1 [EvCopy 9]) ++ relocation (take (S j) [7; 8]) ++ (EvDestroy <$> ds)) ∧
  (* a move-only type: the three calls return and have moved *)
  (nothrow_movable (T:=option nat) (U:=unit) ∧ fits (T:=option nat) (U:=unit) 4 ∧
   constructs (by_move (T:=option nat) (U:=unit) (Some 9)) ∧
   (∃ st', Reserve 4 (enter (rep [Some 7; Some 8] 0) nobody ptr_env) = (Ok tt, st')) ∧
   (∃ st', EmplaceBack (by_move (Some 9)) (enter (rep [Some 7; Some 8] 0) nobody ptr_env) =
             (Ok (MkPtr Data (length [Some 7; Some 8])), st')) ∧
   (∃ st', Emplace (begin_ +ₚ 1) (by_move (Some 9))
             (enter (rep [Some 7; Some 8] 0) nobody ptr_env) = (Ok (MkPtr Data 1), st'))).
Proof.
  destruct (C6_transfer_policy (T:=nat) (U:=nat) [7; 8])
    as (HR & HB & HE & _ & _ & HEt & _).
  destruct (C6_transfer_policy (T:=option nat) (U:=unit) [Some 7; Some 8])
    as (_ & _ & _ & _ & _ & _ & Hret).
  assert (1 ≤ length [7; 8]) as Hi by (simpl; lia).
  assert (1 ≤ length [Some 7; Some 8]) as Hi' by (simpl; lia).
  split; [reflexivity|]. split; [reflexivity|]. split; [reflexivity|].
  split; [|split; [|split; [|split]]].
  - assert (length [7; 8] + 0 < 4) as Hn by (simpl; lia).
    split; [lia|].
    assert (∃ st', Reserve (T:=nat) (U:=nat) 4 (enter (rep [7; 8] 0) nobody (fragile_env 2)) =
                     (Ok tt, st')) as [st' Hst] by (eexists; vm_compute; reflexivity).
    exists st'. split; [exact Hst|].
    exact (HR 4 0 nobody (fragile_env 2) st' Hn Hst).
  - assert (∃ p st', EmplaceBack (T:=nat) (U:=nat) (by_copy 9)
                       (enter (rep [7; 8] 0) nobody (fragile_env 3)) = (Ok p, st'))
      as (p & st' & Hst) by (eexists _, _; vm_compute; reflexivity).
    exists p, st'. split; [exact Hst|].
    exact (HB (by_copy 9) nobody (fragile_env 3) p st' Hst).
  - split; [exact Hi|].
    assert (∃ p st', Emplace (T:=nat) (U:=nat) (begin_ +ₚ 1) (by_copy 9)
                       (enter (rep [7; 8] 0) nobody (fragile_env 3)) = (Ok p, st'))
      as (p & st' & Hst) by (eexists _, _; vm_compute; reflexivity).
    exists p, st'. split; [exact Hst|].
    exact (HE (by_copy 9) 1 nobody (fragile_env 3) p st' Hi Hst).
  - assert (by_copy (T:=nat) (U:=nat) 9 (fragile_env 2) = (Some 9, MkEnv 1 [EvCopy 9]))
      as Hy by reflexivity.
    split; [exact Hy|].
    assert (∃ st', Emplace (T:=nat) (U:=nat) (begin_ +ₚ 1) (by_copy 9)
                     (enter (rep [7; 8] 0) nobody (fragile_env 2)) = (Throw, st'))
      as (st' & Hst) by (eexists; vm_compute; reflexivity).
    exists st'. split; [exact Hst|].
    exact (HEt (by_copy 9) 1 nobody (fragile_env 2) 9 (MkEnv 1 [EvCopy 9]) st'
             Hi eq_refl Hy Hst).
  - assert (nothrow_movable (T:=option nat) (U:=unit)) as Hmv by (repeat split; done).
    assert (fits (T:=option nat) (U:=unit) 4) as Hfits by (vm_compute; reflexivity).
    assert (constructs (by_move (T:=option nat) (U:=unit) (Some 9))) as Hargs
      by (intros e; done).
    destruct (Hret (or_intror Hmv)) as (HRr & HBr & HEr).
    split; [exact Hmv|]. split; [exact Hfits|]. split; [exact Hargs|].
    split; [|split].
    + exact (HRr 4 0 nobody ptr_env Hfits).
    + exact (HBr (by_move (Some 9)) nobody ptr_env Hargs).
    + exact (HEr (by_move (Some 9)) 1 nobody ptr_env Hargs Hi').
Defined.

Lemma C7_witness :
  copies_faithfully (T:=nat) (U:=unit) ∧ assigns_faithfully (T:=nat) (U:=unit) ∧
  0 ≠ 1 ∧ objs two_vectors !! 0 = Some (rep [1] 0) ∧
  objs two_vectors !! 1 = Some (rep [2; 3] 0) ∧
  match Vector_assign 0 1 two_vectors with
  | (Ok _, m') => ∃ k', objs m' = <[0 := rep [2; 3] k']> (objs two_vectors)
  | (Throw, m') =>
      ∃ v', objs m' = <[0 := v']> (objs two_vectors) ∧ size_ v' = 1 ∧
        (capacity (rep [1] 0) < 2 → v' = rep [1] 0)
  | (Undef, _) => False
  end ∧
  nothrow (T:=nat) (U:=unit) ∧
  ∃ m', Vector_assign 0 1 two_vectors = (Ok tt, m').
Proof.
  split; [exact int_copies_faithfully|]. split; [exact int_assigns_faithfully|].
  split; [done|]. split; [reflexivity|]. split; [reflexivity|].
  assert (0 ≠ 1) as Hne by done.
  split; [|split; [exact int_nothrow|]].
  - exact (proj1 (C7_copy_assignment 0 1 [1] 0 [2; 3] 0 two_vectors
                    int_copies_faithfully int_assigns_faithfully Hne eq_refl eq_refl)).
  - exact (proj2 (C7_copy_assignment 0 1 [1] 0 [2; 3] 0 two_vectors
                    int_copies_faithfully int_assigns_faithfully Hne eq_refl eq_refl)
             int_nothrow).
Defined.


Lemma reachable_run {T U} `{!Element T U} (cs : list (call (T:=T) (U:=U))) m m' :
  reachable m → run cs m = (Ok tt, m') → reachable m'.
Proof.
  revert m. induction cs as [|c cs IH]; intros m Hm; simpl.
  - by intros [= <-].
  - unfold st_bind. destruct (exec c m) as [[[]| |] m1] eqn:Hc; [|done..].
    apply IH. by eapply reachable_call.
Qed.

Lemma C9_witness :
  reachable (run small_program (MkMachine ∅ int_env)).2 ∧
  all_size_le_capacity (run small_program (MkMachine ∅ int_env)).2.
Proof.
  assert (reachable (run small_program (MkMachine ∅ int_env)).2) as Hr.
  { apply (reachable_run small_program (MkMachine ∅ int_env));
      [apply reachable_start|vm_compute; reflexivity]. }
  split; [exact Hr|].
  exact (proj2 (proj2 (C9_size_le_capacity_invariant (T:=nat) (U:=unit))) _ Hr).
Defined.

Lemma C10_witness :
  objs two_vectors !! 1 = Some (rep [2; 3] 0) ∧
  Vector_assign 1 1 two_vectors = (Ok tt, two_vectors).
Proof.
  split; [reflexivity|].
  apply (C10_self_assignment 1 (rep [2; 3] 0) two_vectors). reflexivity.
Defined.

(** * Further properties of the interface

    What the member functions do beyond the claims above: removal,
    construction and destruction, growth, copy assignment, the in-place path
    of [Emplace] for every element type, the representation invariant, and
    what a failure leaves behind. *)

(** ** Removing elements: [PopBack] and [Erase] *)

Section Removal.
Context {T U : Type} `{!Element T U}.
Implicit Types (st : frame T U) (e : Env T U) (o : Vector T).
Implicit Types (xs ys ss : list T) (pre post : RawMemory T) (p : place).

Lemma PopBack_eq xs x k o e :
  PopBack (enter (rep (xs ++ [x]) k) o e) =
    (Ok tt, enter (rep xs (S k)) o (T_destroy x e)).
Proof.
  unfold PopBack, end_, Size, GetAddress, ptr_add.
  unfold st_bind at 1. unfold st_bind at 1. unfold gets, st_ret. norm.
  cbn [rep size_]. unfold st_bind at 1. unfold ptr_sub. cbn [base off].
  rewrite length_app. cbn [length Nat.add].
  rewrite bool_decide_true by lia. unfold st_ret.
  replace (length xs + 1 - 1) with (length xs) by lia.
  unfold st_bind at 1.
  rewrite (destroy_at_at Data _ (Some <$> xs) x (replicate k None));
    [|done|by rewrite length_fmap|by slots_tac].
  norm. unfold st_bind, modify. norm. frame_eq.
Qed.

Lemma PopBack_empty k o e :
  PopBack (enter (rep [] k) o e) = (Undef, enter (rep [] k) o e).
Proof. done. Qed.

Lemma assign_move_eq p pre d s post st :
  writable p = true →
  slots p st = pre ++ Some d :: Some s :: post →
  assign_move (MkPtr p (length pre)) (MkPtr p (S (length pre))) st =
    let '(ok, d', s', e') := T_move_assign d s (env st) in
    (if ok : bool then Ok tt else Throw,
     set_slots p (pre ++ Some d' :: Some s' :: post) (set_env e' st)).
Proof.
  intros Hw Hs. unfold assign_move.
  erewrite bind_ok; last by (apply load_eq; rewrite Hs; apply list_lookup_middle).
  erewrite bind_ok; last first.
  { apply load_eq. rewrite Hs. cbn [base off].
    replace (pre ++ Some d :: Some s :: post) with ((pre ++ [Some d]) ++ Some s :: post)
      by (by rewrite <- app_assoc).
    apply list_lookup_middle. rewrite length_app. simpl. lia. }
  unfold st_bind at 1. unfold lift_env.
  destruct (T_move_assign d s (env st)) as [[[ok d'] s'] e'] eqn:Hm.
  cbn [fst snd].
  replace (S (length pre)) with (length (pre ++ [Some d]))
    by (rewrite length_app; simpl; lia).
  unfold st_bind at 1.
  rewrite (store_eq p (pre ++ [Some d]) (Some s) (Some s') post (set_env e' st));
    [|done|by rewrite slots_set_env, Hs, <- app_assoc].
  unfold st_bind at 1.
  rewrite (store_eq p pre (Some d) (Some d') (Some s' :: post));
    [|done|by rewrite slots_set_slots, decide_True by done; rewrite <- app_assoc].
  destruct st as [[dd sz] nd oo ee]. destruct p; try done; destruct ok; norm; done.
Qed.

Lemma erase_list_length d ss e ok r e' :
  erase_list d ss e = (ok, r, e') → length r = S (length ss).
Proof.
  revert d e ok r e'. induction ss as [|s ss IH]; intros d e ok r e'; simpl.
  - by intros [= <- <- <-].
  - destruct (T_move_assign d s e) as [[[[] d'] s'] e1].
    + destruct (erase_list s' ss e1) as [[ok1 r1] e2] eqn:Hr.
      intros [= <- <- <-]. simpl. f_equal. by eapply IH.
    + by intros [= <- <- <-].
Qed.

Lemma erase_list_faithful d ss e r e' :
  move_assigns_faithfully → erase_list d ss e = (true, r, e') →
  ∃ z, r = ss ++ [z].
Proof.
  intros Hf. revert d e r e'. induction ss as [|s ss IH]; intros d e r e'; simpl.
  - intros [= <- <-]. by exists d.
  - unfold T_move_assign. simpl.
    destruct (move_assign d s (user e)) as [[[[] d'] s'] u] eqn:Hm; [|done].
    apply Hf in Hm as ->.
    destruct (erase_list s' ss _) as [[ok1 r1] e2] eqn:Hr.
    intros [= -> <- <-]. apply IH in Hr as [z ->]. by exists z.
Qed.

Lemma erase_list_nothrow d ss e :
  (∀ d s u, (move_assign d s u).1.1.1 = true) → (erase_list d ss e).1.1 = true.
Proof.
  intros Hn. revert d e. induction ss as [|s ss IH]; intros d e; simpl; [done|].
  unfold T_move_assign. simpl. specialize (Hn d s (user e)).
  destruct (move_assign d s (user e)) as [[[[] d'] s'] u]; [|done].
  specialize (IH s' (MkEnv u (trace e ++ [EvMoveAssign d s]))).
  by destruct (erase_list s' ss _) as [[ok1 r1] e2].
Qed.

(** [move_n] onto the slot just before its source range. *)
Lemma move_n_left p ss :
  writable p = true →
  ∀ pre d post st,
    slots p st = pre ++ Some d :: (Some <$> ss) ++ post →
    move_n (MkPtr p (S (length pre))) (length ss) (MkPtr p (length pre)) st =
      let '(ok, r, e') := erase_list d ss (env st) in
      (if ok : bool then Ok tt else Throw,
       set_slots p (pre ++ (Some <$> r) ++ post) (set_env e' st)).
Proof.
  intros Hw. induction ss as [|s ss IH]; intros pre d post st Hs.
  - simpl. unfold st_ret. f_equal. simpl in Hs.
    destruct st as [[dd sz] nd oo ee]. destruct p; try done; norm; simpl in Hs; by subst.
  - cbn [move_n length erase_list]. unfold st_bind. rewrite fmap_cons in Hs.
    rewrite (assign_move_eq p pre d s (fmap (M:=list) Some ss ++ post) st Hw Hs).
    destruct (T_move_assign d s (env st)) as [[[ok d'] s'] e1].
    destruct ok.
    + unfold ptr_add. cbn [base off].
      specialize (IH (pre ++ [Some d']) s' post
                    (set_slots p (pre ++ Some d' :: Some s' :: (Some <$> ss) ++ post)
                       (set_env e1 st))).
      rewrite length_app in IH. cbn [length] in IH.
      replace (S (length pre) + 1) with (S (length pre + 1)) by lia.
      rewrite IH by (by rewrite slots_set_slots, decide_True by done; rewrite <- app_assoc).
      destruct st as [[dd sz] nd oo ee].
      destruct p; try done; norm;
        destruct (erase_list s' ss e1) as [[ok1 r1] e2]; norm;
        (f_equal; apply frame_ext; try done; by rewrite <- app_assoc).
    + destruct st as [[dd sz] nd oo ee]. destruct p; try done; norm; done.
Qed.

Lemma Erase_eq xs d ss k o e :
  Erase (begin_ +ₚ length xs) (enter (rep (xs ++ d :: ss) k) o e) =
    match erase_list d ss e with
    | (true, r, e') =>
        (Ok (MkPtr Data (length xs)),
         enter (rep (xs ++ removelast r) (S k)) o (T_destroy (List.last r d) e'))
    | (false, r, e') => (Throw, enter (rep (xs ++ r) k) o e')
    end.
Proof.
  unfold Erase, end_, begin_, GetAddress, ptr_add. cbn [base off Nat.add].
  unfold st_bind at 1. unfold st_bind at 1. unfold Size, gets, st_ret. norm.
  cbn [rep size_]. rewrite length_app. cbn [length].
  unfold st_bind at 1. unfold std_move. unfold st_bind at 1.
  unfold ptr_diff. cbn [base off].
  rewrite bool_decide_true by done. rewrite bool_decide_true by lia.
  cbn [andb]. unfold st_ret.
  replace (length xs + S (length ss) - (length xs + 1)) with (length ss) by lia.
  pose proof (move_n_left Data ss eq_refl (Some <$> xs) d (replicate k None)
                (MkFrame (rep (xs ++ d :: ss) k) [] o e)) as Hm.
  rewrite length_fmap in Hm. replace (length xs + 1) with (S (length xs)) by lia.
  rewrite Hm by slots_tac. clear Hm. norm.
  destruct (erase_list d ss e) as [[ok r] e'] eqn:Hr.
  pose proof (erase_list_length _ _ _ _ _ _ Hr) as Hlen.
  destruct ok; [|frame_eq].
  destruct (exists_last (l:=r)) as (r0 & z & ->); [by destruct r|].
  rewrite removelast_last, last_last.
  rewrite length_app in Hlen. cbn [length] in Hlen.
  pose proof (PopBack_eq (xs ++ r0) z k o e') as Hp.
  unfold st_bind at 1.
  match goal with |- context [PopBack ?st] =>
    replace st with (enter (rep ((xs ++ r0) ++ [z]) k) o e')
  end.
  - by rewrite Hp.
  - unfold enter, rep. apply frame_ext; try done.
    + by rewrite !fmap_app, <- !app_assoc.
    + simpl. rewrite !length_app. simpl. lia.
Qed.

Lemma Erase_out_of_range xs k i o e :
  length xs ≤ i → (Erase (begin_ +ₚ i) (enter (rep xs k) o e)).1 = Undef.
Proof.
  intros Hi. unfold Erase, end_, begin_, GetAddress, ptr_add. cbn [base off Nat.add].
  unfold st_bind at 1. unfold st_bind at 1. unfold Size, gets, st_ret. norm.
  cbn [rep size_].
  unfold st_bind at 1. unfold std_move. unfold st_bind at 1.
  unfold ptr_diff. cbn [base off].
  rewrite bool_decide_true by done. rewrite bool_decide_false by lia. done.
Qed.


Lemma Erase_at xs k i d o e :
  xs !! i = Some d →
  Erase (begin_ +ₚ i) (enter (rep xs k) o e) =
    match erase_list d (drop (S i) xs) e with
    | (true, r, e') =>
        (Ok (MkPtr Data i),
         enter (rep (take i xs ++ removelast r) (S k)) o (T_destroy (List.last r d) e'))
    | (false, r, e') => (Throw, enter (rep (take i xs ++ r) k) o e')
    end.
Proof.
  intros Hd. pose proof (lookup_lt_Some _ _ _ Hd) as Hi.
  pose proof (Erase_eq (take i xs) d (drop (S i) xs) k o e) as Heq.
  rewrite take_drop_middle in Heq by done.
  by rewrite length_take, Nat.min_l in Heq by lia.
Qed.

Lemma trace_erase_list d ss e ok r e' :
  erase_list d ss e = (ok, r, e') →
  ∃ tr, trace e' = trace e ++ tr ∧ length tr ≤ length ss ∧
        (ok = true → length tr = length ss) ∧
        Forall (λ ev, ∃ a b, ev = EvMoveAssign a b) tr.
Proof.
  revert d e ok r e'. induction ss as [|s ss IH]; intros d e ok r e'; simpl.
  - intros [= <- <- <-]. exists []. by rewrite app_nil_r.
  - unfold T_move_assign. simpl.
    destruct (move_assign d s (user e)) as [[[[] d'] s'] u].
    + destruct (erase_list s' ss _) as [[ok1 r1] e2] eqn:Hr.
      intros [= <- <- <-]. apply IH in Hr as (tr & Htr & Hle & Hlen & Hall).
      exists (EvMoveAssign d s :: tr). simpl in Htr. rewrite Htr, <- app_assoc.
      split; [done|]. split; [simpl; lia|]. split; [intros ?; simpl; f_equal; auto|].
      constructor; eauto.
    + intros [= <- <- <-]. exists [EvMoveAssign d s]. simpl.
      split; [done|]. split; [lia|]. split; [done|]. constructor; eauto.
Qed.

(** X1: [PopBack] on a non-empty vector destroys the last element and
    nothing else, keeps the other elements and the capacity, and does not
    throw; on an empty vector [end() - 1] is outside the block and the call
    has undefined behaviour. *)
Theorem PopBack_removes_last xs k o e :
  match PopBack (enter (rep xs k) o e) with
  | (Ok _, st') =>
      ∃ ys x, xs = ys ++ [x] ∧ this st' = rep ys (S k) ∧
              capacity (this st') = capacity (rep xs k) ∧
              env st' = T_destroy x e ∧ other st' = o
  | (Throw, _) => False
  | (Undef, _) => xs = []
  end.
Proof.
  destruct xs as [|x0 xs0 _] using rev_ind; [done|].
  rewrite PopBack_eq. exists xs0, x0. unfold capacity, enter. cbn [this env other].
  rewrite !rep_capacity, length_app. cbn [length]. repeat split; try done. lia.
Qed.

(** X2: [Erase(pos)] at the position of an element removes exactly that
    element: the elements before it are untouched, those after it move one
    slot to the left in order, the size drops by one, the capacity stays,
    and the iterator returned is [pos].  It makes one move assignment per
    element after [pos] and one destructor call.  If a move assignment
    throws, the size is unchanged and the elements before [pos] are as they
    were.  At [end()] or beyond the call has undefined behaviour. *)
Theorem Erase_removes_one xs k i o e :
  move_assigns_faithfully →
  match Erase (begin_ +ₚ i) (enter (rep xs k) o e) with
  | (Ok p, st') =>
      i < length xs ∧ p = MkPtr Data i ∧
      this st' = rep (delete i xs) (S k) ∧
      ∃ tr z, trace (env st') = trace e ++ tr ++ [EvDestroy z] ∧
              length tr = length xs - i - 1 ∧
              Forall (λ ev, ∃ a b, ev = EvMoveAssign a b) tr
  | (Throw, st') =>
      i < length xs ∧
      ∃ r, length r = length xs - i ∧ this st' = rep (take i xs ++ r) k
  | (Undef, _) => length xs ≤ i
  end ∧
  ((∀ d s u, (move_assign d s u).1.1.1 = true) → i < length xs →
   ∃ st', Erase (begin_ +ₚ i) (enter (rep xs k) o e) = (Ok (MkPtr Data i), st')).
Proof.
  intros Hf. destruct (xs !! i) as [d|] eqn:Hd.
  - pose proof (lookup_lt_Some _ _ _ Hd) as Hi.
    rewrite (Erase_at xs k i d o e Hd).
    destruct (erase_list d (drop (S i) xs) e) as [[ok r] e'] eqn:Hr.
    pose proof (erase_list_length _ _ _ _ _ _ Hr) as Hlen.
    pose proof (trace_erase_list _ _ _ _ _ _ Hr) as (tr & Htr & _ & Hn & Hall).
    rewrite length_drop in Hlen. split.
    + destruct ok.
      * apply erase_list_faithful in Hr as [z ->]; [|done].
        rewrite removelast_last, last_last, delete_take_drop.
        repeat split; try done. exists tr, z. simpl. rewrite Htr, <- app_assoc.
        rewrite Hn, length_drop by done. repeat split; try done. lia.
      * split; [done|]. exists r. split; [lia|done].
    + intros Hn' _. pose proof (erase_list_nothrow d (drop (S i) xs) e Hn') as Hok.
      rewrite Hr in Hok. simpl in Hok. subst ok. eauto.
  - apply lookup_ge_None in Hd.
    pose proof (Erase_out_of_range xs k i o e Hd) as Hu.
    destruct (Erase _ _) as [[p| |] st']; try done. split; [done|]. intros _ ?. lia.
Qed.

End Removal.

(** ** Construction, destruction and [Swap] *)

Section Lifetime.
Context {T U : Type} `{!Element T U}.
Implicit Types (st : frame T U) (e : Env T U) (o v : Vector T).
Implicit Types (xs ys rs cs ds : list T) (m : machine (T:=T) (U:=U)).

Lemma trace_build_value_fail n acc e e' :
  build_list (replicate n (T_value (T:=T) (U:=U))) acc e = (None, e') →
  ∃ j ys, j < n ∧ length ys = j ∧
    trace e' = trace e ++ replicate (S j) EvValue ++ (EvDestroy <$> (acc ++ ys)).
Proof.
  revert acc e. induction n as [|n IH]; intros acc e Hm; simpl in *; [done|].
  unfold T_value in Hm at 1. simpl in Hm.
  destruct (value_construct (user e)) as [[y|] u].
  - apply IH in Hm as (j & ys & Hj & Hlen & Htr).
    exists (S j), (y :: ys). split; [lia|]. split; [simpl; lia|].
    rewrite Htr. simpl. rewrite <- !app_assoc. done.
  - injection Hm as <-. exists 0, []. split; [lia|]. split; [done|].
    rewrite trace_destroy_list. simpl. by rewrite app_nil_r, <- app_assoc.
Qed.

Lemma Vector_sized_eq n v o e :
  Vector_sized n (MkFrame v [] o e) =
    if bool_decide (n ≠ 0) && negb (can_allocate n (user e))
    then (Throw, MkFrame v [] o e)
    else
      match value_list n e with
      | (Some ds, e') => (Ok tt, MkFrame (rep ds 0) [] o e')
      | (None, e') => (Throw, MkFrame (MkVector (replicate n None) n) [] o e')
      end.
Proof.
  unfold Vector_sized. unfold st_bind at 1. unfold Allocate.
  assert (Hbuild : ∀ e0,
    (modify (set_this (MkVector (replicate n None) n));;;
     uninitialized_value_construct_n (GetAddress Data) n) (MkFrame v [] o e0) =
    match value_list n e0 with
    | (Some ds, e') => (Ok tt, MkFrame (rep ds 0) [] o e')
    | (None, e') => (Throw, MkFrame (MkVector (replicate n None) n) [] o e')
    end).
  { intros e0. unfold st_bind, modify, GetAddress. norm.
    rewrite (uninitialized_value_construct_n_at Data _ [] n []);
      [|done|done|by slots_tac].
    norm. destruct (value_list n e0) as [[ds|] e'] eqn:Hc; [|done].
    apply value_list_length in Hc. frame_eq. }
  case_bool_decide as Hz; simpl.
  - unfold st_bind at 1, gets. norm.
    destruct (can_allocate n (user e)); simpl; [|done].
    unfold st_ret. apply Hbuild.
  - unfold st_ret. assert (n = 0) as -> by lia. apply (Hbuild e).
Qed.

(** X3: [Vector(size_t n)] makes a vector of [n] value-initialised
    elements with capacity exactly [n], calling [T()] [n] times.  If the
    allocation or one of the constructions throws, no vector comes into
    being, and every element constructed before the failure has been
    destroyed.  Stated for a size [n] whose byte count [n * sizeof(T)] is
    within [size_t]. *)
Theorem Vector_sized_builds a n m :
  fits n →
  match exec (CSized a n) m with
  | (Ok _, m') =>
      ∃ ds, length ds = n ∧ objs m' = <[a := rep ds 0]> (objs m) ∧
            trace (world m') = trace (world m) ++ replicate n EvValue ∧
            ∀ dflt, value_is dflt → ds = replicate n dflt
  | (Throw, m') =>
      0 < n ∧ objs m' = objs m ∧
      (world m' = world m ∨
       ∃ j ys, j < n ∧ length ys = j ∧
         trace (world m') =
           trace (world m) ++ replicate (S j) EvValue ++ (EvDestroy <$> ys))
  | (Undef, _) => False
  end.
Proof.
  intros _. cbn [exec]. unfold constructor. rewrite Vector_sized_eq.
  case_bool_decide as Hz; cbn [andb].
  - destruct (can_allocate n (user (world m))); cbn [negb].
    + destruct (value_list n (world m)) as [[ds|] e'] eqn:Hv.
      * exists ds. cbn [this env objs world].
        split; [by apply value_list_length in Hv|]. split; [done|].
        split; [by eapply trace_build_value|].
        intros dflt Hd. by eapply value_list_is.
      * cbn [this env objs world]. split; [lia|]. split; [done|]. right.
        apply trace_build_value_fail in Hv as (j & ys & ? & ? & ?). by exists j, ys.
    + cbn [this env objs world]. split; [lia|]. split; [done|]. by left.
  - assert (n = 0) as -> by lia. cbn [value_list replicate build_list].
    exists []. cbn [this env objs world]. rewrite app_nil_r. repeat split; try done.
Qed.

(** X4: the copy constructor makes a vector with the elements of the source,
    in order, and with capacity exactly the size of the source, whatever
    the capacity of the source; it calls the copy constructor once per
    element and leaves the source as it was.  If the allocation or a copy
    throws, no vector comes into being and every copy already made has been
    destroyed. *)
Theorem Vector_copy_builds a b rs rk m :
  objs m !! b = Some (rep rs rk) →
  match exec (CCopy a b) m with
  | (Ok _, m') =>
      ∃ cs, length cs = length rs ∧ objs m' = <[a := rep cs 0]> (objs m) ∧
            capacity (rep cs 0) = length rs ∧
            trace (world m') = trace (world m) ++ (EvCopy <$> rs) ∧
            (copies_faithfully → cs = rs)
  | (Throw, m') =>
      rs ≠ [] ∧ objs m' = objs m ∧
      (world m' = world m ∨
       ∃ j ys, j < length rs ∧ length ys = j ∧
         trace (world m') =
           trace (world m) ++ (EvCopy <$> take (S j) rs) ++ (EvDestroy <$> ys))
  | (Undef, _) => False
  end.
Proof.
  intros Hb. cbn [exec]. unfold st_bind, obj. rewrite Hb.
  unfold constructor. rewrite Vector_copy_eq.
  case_bool_decide as Hz; cbn [andb].
  - assert (rs ≠ []) as Hne by (intros ->; simpl in Hz; lia).
    destruct (can_allocate (length rs) (user (world m))); cbn [negb].
    + destruct (copy_list rs (world m)) as [[cs|] e'] eqn:Hc.
      * exists cs. cbn [this env objs world].
        pose proof (copy_list_length _ _ _ _ Hc) as Hlen.
        split; [done|]. split; [done|].
        split; [unfold capacity; rewrite rep_capacity; lia|].
        split; [by eapply trace_build_copy|].
        intros Hf. by eapply copy_list_faithful.
      * cbn [this env objs world]. split; [done|]. split; [done|]. right.
        apply trace_build_copy_fail in Hc as (j & ys & ? & ? & ? & _). by exists j, ys.
    + cbn [this env objs world]. split; [done|]. split; [done|]. by left.
  - assert (rs = []) as -> by (destruct rs; [done|simpl in Hz; lia]).
    cbn [copy_list fmap list_fmap build_list].
    exists []. cbn [this env objs world]. rewrite app_nil_r. repeat split; try done.
Qed.

(** X5: the destructor destroys the live elements, each exactly once and
    in index order, calls nothing else and does not throw; the object is
    gone afterwards. *)
Theorem Vector_delete_destroys a xs k m :
  objs m !! a = Some (rep xs k) →
  ∃ m', exec (CDelete a) m = (Ok tt, m') ∧
        objs m' = delete a (objs m) ∧
        world m' = destroy_list xs (world m) ∧
        trace (world m') = trace (world m) ++ (EvDestroy <$> xs).
Proof.
  intros Ha. cbn [exec]. unfold Vector_delete, st_bind, method. rewrite Ha.
  rewrite Vector_destructor_eq. unfold modify. cbn [this env objs world].
  eexists. split; [done|]. cbn [objs world].
  split; [by rewrite delete_insert_eq|]. split; [done|]. apply trace_destroy_list.
Qed.

(** X6: [a.Swap(b)] exchanges the storage and the sizes of the two vectors
    and touches nothing else: no other object, no element, no special
    member.  Swapping twice gives back the initial state, [b.Swap(a)] does
    the same as [a.Swap(b)], and [a.Swap(a)] changes nothing. *)
Theorem Swap_exchanges a b va vb m :
  objs m !! a = Some va → objs m !! b = Some vb →
  (∃ m', Swap a b m = (Ok tt, m') ∧
         objs m' !! a = Some vb ∧ objs m' !! b = Some va ∧
         (∀ c, c ≠ a → c ≠ b → objs m' !! c = objs m !! c) ∧
         world m' = world m) ∧
  (Swap a b ;;; Swap a b) m = (Ok tt, m) ∧
  Swap b a m = Swap a b m ∧
  Swap a a m = (Ok tt, m).
Proof.
  intros Ha Hb.
  assert (∀ mm : machine (T:=T) (U:=U), MkMachine (objs mm) (world mm) = mm) as Heta
    by (by intros []).
  split; [|split; [|split]].
  - eexists. split; [by apply Swap_eq|]. cbn [objs world].
    destruct (decide (a = b)) as [->|Hne].
    + simplify_eq. rewrite !lookup_insert_eq. repeat split; try done.
      intros c Hc _. by rewrite !lookup_insert_ne.
    + rewrite lookup_insert_ne, !lookup_insert_eq by done. repeat split; try done.
      intros c Hc1 Hc2. by rewrite !lookup_insert_ne.
  - unfold st_bind. rewrite (Swap_eq a b va vb m Ha Hb).
    rewrite (Swap_eq a b vb va (MkMachine (<[b:=va]> (<[a:=vb]> (objs m))) (world m))).
    + cbn [objs world]. rewrite <- (Heta m) at 3. f_equal. f_equal.
      apply map_eq. intros i. rewrite !lookup_insert.
      repeat case_decide; simplify_eq; done.
    + cbn [objs]. rewrite lookup_insert. case_decide; [by simplify_eq|].
      by rewrite lookup_insert_eq.
    + cbn [objs]. by rewrite lookup_insert_eq.
  - rewrite (Swap_eq a b va vb m Ha Hb), (Swap_eq b a vb va m Hb Ha).
    f_equal. f_equal. apply map_eq. intros i. rewrite !lookup_insert.
    repeat case_decide; simplify_eq; done.
  - rewrite (Swap_eq a a va va m Ha Ha). rewrite <- (Heta m) at 3. f_equal. f_equal.
    apply map_eq. intros i. rewrite !lookup_insert.
    repeat case_decide; simplify_eq; done.
Qed.

End Lifetime.

(** ** [Reserve], appending and inserting *)

Section Growth.
Context {T U : Type} `{!Element T U}.
Implicit Types (st : frame T U) (e : Env T U) (o v : Vector T).
Implicit Types (xs ys zs : list T).

(** X7: [Reserve(n)] with [n] at most the capacity does nothing at all: no
    allocation, no call of a special member.  Otherwise, when it returns,
    the vector holds the same elements in the same order, the size is
    unchanged and the capacity is exactly [n].  It can only throw when it
    has to grow.  Stated for a request [n] whose byte count
    [n * sizeof(T)] is within [size_t]. *)
Theorem Reserve_keeps_elements n xs k o e :
  fits n → copies_faithfully → moves_faithfully →
  match Reserve n (enter (rep xs k) o e) with
  | (Ok _, st') =>
      if bool_decide (n ≤ capacity (rep xs k)) then st' = enter (rep xs k) o e
      else this st' = rep xs (n - length xs) ∧ capacity (this st') = n
  | (Throw, _) => capacity (rep xs k) < n
  | (Undef, _) => False
  end ∧
  (nothrow ∨ nothrow_movable →
   ∃ st', Reserve n (enter (rep xs k) o e) = (Ok tt, st')).
Proof.
  intros _ Hc Hm. rewrite Reserve_eq. unfold capacity. rewrite rep_capacity. split.
  - case_bool_decide as Hn; [done|].
    destruct (can_allocate n (user e)); [|lia].
    destruct (transfer_list xs e) as [[[ys|] old] e1] eqn:Ht; [|lia].
    apply transfer_list_faithful in Ht as ->; [|done..].
    cbn [enter this]. rewrite rep_capacity. split; [done|lia].
  - intros Hn. case_bool_decide; [eauto|].
    rewrite (can_allocate_movable _ _ Hn).
    pose proof (transfer_list_movable xs e Hn) as Ht.
    destruct (transfer_list xs e) as [[[ys|] old] e1]; [eauto|done].
Qed.

(** X8: [EmplaceBack] on a vector with spare capacity constructs the new
    element in the first free slot and does nothing else: no element is
    moved, copied or destroyed, the capacity is unchanged, and the
    reference returned designates the new last element.  If the constructor
    throws, the vector is exactly as it was. *)
Theorem EmplaceBack_in_place (args : Env T U → option T * Env T U) xs k o e :
  match EmplaceBack args (enter (rep xs (S k)) o e) with
  | (Ok p, st') =>
      ∃ y, args e = (Some y, env st') ∧
           st' = enter (rep (xs ++ [y]) k) o (env st') ∧
           capacity (this st') = capacity (rep xs (S k)) ∧
           p = MkPtr Data (length xs) ∧ load p st' = (Ok y, st')
  | (Throw, st') => ∃ e', args e = (None, e') ∧ st' = enter (rep xs (S k)) o e'
  | (Undef, _) => False
  end.
Proof.
  rewrite EmplaceBack_eq. rewrite bool_decide_false by lia.
  destruct (args e) as [[y|] e1]; [|by eexists].
  exists y. cbn [enter env this]. replace (S k - 1) with k by lia.
  split; [done|]. split; [done|].
  split; [unfold capacity; rewrite !rep_capacity, length_app; simpl; lia|].
  split; [done|]. apply load_eq. unfold rep, enter. cbn [slots base off this data_].
  rewrite lookup_app_l by (rewrite length_fmap, length_app; simpl; lia).
  rewrite list_lookup_fmap, lookup_app_r by done.
  by rewrite Nat.sub_diag.
Qed.

(** X9: appending a value and then calling [PopBack] gives back the same
    elements; the capacity is the old one when there was room and
    [max(1, 2 * capacity)] when the append had to reallocate. *)
Theorem PushBack_then_PopBack x xs k o e :
  copies_faithfully → moves_faithfully →
  match (PushBack x ;;; PopBack) (enter (rep xs k) o e) with
  | (Ok _, st') =>
      this st' = rep xs (if bool_decide (k = 0) then grown (length xs) - length xs else k)
  | (Throw, _) => True
  | (Undef, _) => False
  end ∧
  (nothrow → ∃ st', (PushBack x ;;; PopBack) (enter (rep xs k) o e) = (Ok tt, st')).
Proof.
  intros Hc Hm. unfold PushBack. unfold st_bind at 1 3. unfold st_bind at 1 2.
  rewrite EmplaceBack_eq. unfold by_copy, st_ret.
  pose proof (grown_gt (length xs)) as Hg.
  split.
  - case_bool_decide as Hk.
    + destruct (can_allocate _ _); [|done].
      destruct (T_copy x e) as [[z|] e1] eqn:Hy; [|done].
      apply T_copy_faithful in Hy as ->; [|done].
      destruct (transfer_list xs e1) as [[[zs|] old] e2] eqn:Ht; [|done].
      apply transfer_list_faithful in Ht as ->; [|done..].
      rewrite PopBack_eq. cbn [enter this]. f_equal. lia.
    + destruct (T_copy x e) as [[z|] e1] eqn:Hy; [|done].
      rewrite PopBack_eq. cbn [enter this]. f_equal. lia.
  - intros Hn. assert (∀ n u, can_allocate (T:=T) n u = true) as Ha by apply Hn.
    pose proof (T_copy_constructs x Hn e) as Hx.
    case_bool_decide as Hk.
    + rewrite Ha. destruct (T_copy x e) as [[z|] e1]; [|done].
      pose proof (transfer_list_nothrow xs e1 Hn) as Ht.
      destruct (transfer_list xs e1) as [[[zs|] old] e2]; [|done].
      rewrite PopBack_eq. eauto.
    + destruct (T_copy x e) as [[z|] e1]; [|done]. rewrite PopBack_eq. eauto.
Qed.

(** X10: [operator[]] with an index below the size gives the element at that
    index and changes nothing; with any other index, also one below the
    capacity, the assertion of [operator[]] fails: the access is not
    checked. *)
Theorem index_in_bounds xs k i o e :
  at_ i (enter (rep xs k) o e) =
    match xs !! i with
    | Some x => (Ok x, enter (rep xs k) o e)
    | None => (Undef, enter (rep xs k) o e)
    end.
Proof.
  destruct (xs !! i) as [x|] eqn:Hx; [by apply (at_rep xs k)|].
  apply lookup_ge_None in Hx.
  unfold at_, Vector_index, st_bind, Size, gets. cbn [enter this rep size_].
  by rewrite bool_decide_false by lia.
Qed.


(** X11: [Emplace] and [Insert] on a full vector reallocate to
    [max(1, 2 * capacity)] and give the elements before the position, the
    new element, and the elements from the position on, each with its
    value, for every element type whose copies and moves preserve the
    value, move-only types included; the iterator returned designates the
    new element. *)
Theorem Emplace_full_inserts (args : Env T U → option T * Env T U) xs i o e :
  copies_faithfully → moves_faithfully → i ≤ length xs →
  match Emplace (begin_ +ₚ i) args (enter (rep xs 0) o e) with
  | (Ok p, st') =>
      p = MkPtr Data i ∧
      ∃ y, (args e).1 = Some y ∧
           this st' = rep (take i xs ++ y :: drop i xs) (grown (length xs) - length xs - 1) ∧
           capacity (this st') = Nat.max 1 (2 * length xs) ∧
           at_ i st' = (Ok y, st')
  | (Throw, _) => True
  | (Undef, _) => False
  end ∧
  (nothrow ∨ nothrow_movable → constructs args →
   ∃ p st', Emplace (begin_ +ₚ i) args (enter (rep xs 0) o e) = (Ok p, st')).
Proof.
  intros Hc Hm Hi. rewrite Emplace_full, EmplaceRealloc_at by done.
  pose proof (grown_gt (length xs)) as Hg. split.
  - destruct (can_allocate _ _); [|done].
    destruct (args e) as [[y|] e1]; [|done].
    destruct (transfer_list (take i xs) e1) as [[[ys1|] old1] e2] eqn:Ht1; [|done].
    apply transfer_list_faithful in Ht1 as ->; [|done..].
    destruct (transfer_list (drop i xs) e2) as [[[ys2|] old2] e3] eqn:Ht2; [|done].
    apply transfer_list_faithful in Ht2 as ->; [|done..].
    split; [done|]. exists y. cbn [enter this fst]. split; [done|]. split; [done|].
    split.
    + unfold capacity. rewrite rep_capacity, length_app. cbn [length].
      rewrite length_take, length_drop, grown_max. lia.
    + apply (at_rep (take i xs ++ y :: drop i xs) (grown (length xs) - length xs - 1));
        [done|].
      rewrite lookup_app_r by (rewrite length_take; lia).
      rewrite length_take, Nat.min_l by lia. by rewrite Nat.sub_diag.
  - intros Hn Hargs. rewrite (can_allocate_movable _ _ Hn).
    specialize (Hargs e). destruct (args e) as [[y|] e1]; [|done].
    pose proof (transfer_list_movable (take i xs) e1 Hn) as Ht1.
    destruct (transfer_list (take i xs) e1) as [[[ys1|] old1] e2]; [|done].
    pose proof (transfer_list_movable (drop i xs) e2 Hn) as Ht2.
    destruct (transfer_list (drop i xs) e2) as [[[ys2|] old2] e3]; [|done].
    eauto.
Qed.

Lemma EmplaceMove_fill_eq (args : Env T U → option T * Env T U) xs k i o e0 :
  i ≤ length xs →
  (p <- RawMemory_plus Data i ;;
   construct_at p args ;;;
   modify (set_size (length xs + 1)) ;;;
   st_ret p) (vacated xs k i o e0) =
    match args e0 with
    | (Some y, e') =>
        (Ok (MkPtr Data i), enter (rep (take i xs ++ y :: drop i xs) k) o e')
    | (None, e') => (Throw, vacated xs k i o e')
    end.
Proof.
  intros Hi. unfold vacated.
  unfold st_bind at 1. unfold RawMemory_plus, st_bind at 1, gets. norm.
  rewrite bool_decide_true.
  2:{ rewrite length_app, length_fmap, length_take. lia. }
  unfold st_ret. unfold st_bind at 1.
  rewrite (construct_at_at Data _ (Some <$> take i xs)
             ((Some <$> drop i xs) ++ replicate k None));
    [|done|by rewrite length_fmap, length_take; lia|done].
  norm. destruct (args e0) as [[y|] e1] eqn:Hargs; [|done].
  unfold modify, st_bind. norm. f_equal. unfold rep. apply frame_ext; try done.
  - rewrite fmap_app. simpl. by rewrite <- app_assoc.
  - rewrite length_app. simpl. rewrite length_take, length_drop. lia.
Qed.

Lemma Emplace_in_place_eq (args : Env T U → option T * Env T U) xs k i o e :
  moves_are_copies → i ≤ length xs →
  ∃ e0,
    Emplace (begin_ +ₚ i) args (enter (rep xs (S k)) o e) =
      match args e0 with
      | (Some y, e') =>
          (Ok (MkPtr Data i), enter (rep (take i xs ++ y :: drop i xs) k) o e')
      | (None, e') => (Throw, vacated xs k i o e')
      end.
Proof.
  intros Hplain Hi. unfold Emplace, Emplace_with. unfold st_bind at 1. unfold Size, gets.
  unfold st_bind at 1. unfold Capacity, gets. cbn [enter this].
  rewrite rep_capacity. cbn [rep size_].
  rewrite bool_decide_false by lia.
  unfold EmplaceMove, EmplaceMove_with, begin_, GetAddress, ptr_add.
  cbn [base off Nat.add].
  unfold st_bind at 1. rewrite ptr_diff_begin.
  unfold st_bind at 1. unfold Size, gets. cbn [enter this rep size_].
  unfold st_bind at 1. case_bool_decide as Hne.
  - destruct (EmplaceMove_shift xs k i o e Hplain Hne Hi) as [e0 Hs].
    exists e0. rewrite Hs.
    by apply EmplaceMove_fill_eq.
  - assert (xs = []) as -> by (destruct xs; [done|simpl in Hne; lia]).
    simpl in Hi. assert (i = 0) as -> by lia.
    exists e. unfold st_ret at 1. by apply (EmplaceMove_fill_eq args [] k 0 o e).
Qed.

Lemma Emplace_with_in_place (construct : ptr → St (frame T U) unit) xs k i o e :
  moves_are_copies → i ≤ length xs →
  ∃ e0,
    Emplace_with (begin_ +ₚ i) construct (enter (rep xs (S k)) o e) =
      (p <- RawMemory_plus Data i ;;
       construct p ;;;
       modify (set_size (length xs + 1)) ;;;
       st_ret p) (vacated xs k i o e0).
Proof.
  intros Hplain Hi. unfold Emplace_with. unfold st_bind at 1. unfold Size, gets.
  unfold st_bind at 1. unfold Capacity, gets. cbn [enter this].
  rewrite rep_capacity. cbn [rep size_].
  rewrite bool_decide_false by lia.
  unfold EmplaceMove_with, begin_, GetAddress, ptr_add.
  cbn [base off Nat.add].
  unfold st_bind at 1. rewrite ptr_diff_begin.
  unfold st_bind at 1. unfold Size, gets. cbn [enter this rep size_].
  unfold st_bind at 1. case_bool_decide as Hne.
  - destruct (EmplaceMove_shift xs k i o e Hplain Hne Hi) as [e0 Hs].
    exists e0. by rewrite Hs.
  - assert (xs = []) as -> by (destruct xs; [done|simpl in Hne; lia]).
    simpl in Hi. assert (i = 0) as -> by lia.
    by exists e.
Qed.

Lemma load_vacated xs k i j o e :
  i ≤ length xs →
  load (MkPtr Data j) (vacated xs k i o e) =
    match read_after_shift xs i (Inside j) with
    | Some x => (Ok x, vacated xs k i o e)
    | None => (Undef, vacated xs k i o e)
    end.
Proof.
  intros Hi. unfold load, read_after_shift, vacated. cbn [base off slots this data_].
  assert (length (Some <$> take i xs) = i) as Hlen
    by (rewrite length_fmap, length_take; lia).
  case_bool_decide as Hlt; [|case_bool_decide as Heq].
  - rewrite lookup_app_l by lia.
    rewrite list_lookup_fmap, lookup_take_lt by done.
    by destruct (xs !! j).
  - subst j. by rewrite list_lookup_middle by (by rewrite Hlen).
  - rewrite lookup_app_r, Hlen by lia.
    rewrite lookup_cons_ne_0 by lia.
    destruct (decide (j - 1 < length xs)) as [Hj|Hj].
    + rewrite lookup_app_l by (rewrite length_fmap, length_drop; lia).
      rewrite list_lookup_fmap, lookup_drop.
      replace (i + pred (j - i)) with (j - 1) by lia.
      by destruct (xs !! (j - 1)).
    + rewrite lookup_app_r by (rewrite length_fmap, length_drop; lia).
      rewrite (lookup_ge_None_2 xs) by lia.
      destruct (replicate k None !! _) as [[x|]|] eqn:Hr; [|done..].
      apply lookup_replicate in Hr as [? _]. done.
Qed.

Lemma EmplaceMove_fill_from value xs k i o e0 :
  i ≤ length xs →
  (p <- RawMemory_plus Data i ;;
   construct_from value p ;;;
   modify (set_size (length xs + 1)) ;;;
   st_ret p) (vacated xs k i o e0) =
    match read_after_shift xs i value with
    | Some x =>
        match T_copy x e0 with
        | (Some y, e') =>
            (Ok (MkPtr Data i), enter (rep (take i xs ++ y :: drop i xs) k) o e')
        | (None, e') => (Throw, vacated xs k i o e')
        end
    | None => (Undef, vacated xs k i o e0)
    end.
Proof.
  intros Hi. destruct value as [x|j].
  - cbn [construct_from read_after_shift]. by apply (EmplaceMove_fill_eq (by_copy x)).
  - pose proof (load_vacated xs k i j o e0 Hi) as Hload.
    assert (RawMemory_plus Data i (vacated xs k i o e0) =
              (Ok (MkPtr Data i), vacated xs k i o e0)) as Hplus.
    { unfold RawMemory_plus, st_bind, gets, st_ret, vacated. cbn [slots this data_].
      rewrite bool_decide_true; [done|].
      rewrite length_app, length_fmap, length_take. lia. }
    destruct (read_after_shift xs i (Inside j)) as [x|] eqn:Hread.
    + rewrite <- (EmplaceMove_fill_eq (T_copy x) xs k i o e0 Hi).
      unfold st_bind at 1 4. rewrite Hplus.
      cbn [construct_from]. unfold construct_copy_at.
      unfold st_bind at 1 2 4. change (begin_ +ₚ j) with (MkPtr Data j). by rewrite Hload.
    + unfold st_bind at 1. rewrite Hplus.
      cbn [construct_from]. unfold construct_copy_at.
      unfold st_bind at 1 2. change (begin_ +ₚ j) with (MkPtr Data j). by rewrite Hload.
Qed.

Lemma EmplaceRealloc_with_congr pos (c1 c2 : ptr → St (frame T U) unit) st :
  (∀ p b, c1 p (set_new_data b st) = c2 p (set_new_data b st)) →
  EmplaceRealloc_with pos c1 st = EmplaceRealloc_with pos c2 st.
Proof.
  intros Hc. unfold EmplaceRealloc_with.
  apply bind_congr. intros index_ s1 H1.
  assert (s1 = st) as ->.
  { unfold ptr_diff, st_ret, undefined in H1. destruct (_ && _); by simplify_eq. }
  apply bind_congr. intros size s2 [= <- <-].
  apply bind_congr_l. unfold with_new_data.
  apply bind_congr. intros b s3 H3.
  assert (s3 = st) as ->.
  { unfold Allocate, st_bind, gets, st_ret, throw in H3.
    case_bool_decide; [|by simplify_eq].
    destruct (can_allocate _ _); by simplify_eq. }
  apply bind_congr. intros [] s4 [= <-].
  apply finally_congr. apply bind_congr. intros p s5 H5.
  assert (s5 = set_new_data b st) as ->.
  { unfold RawMemory_plus, st_bind, gets, st_ret, undefined in H5.
    case_bool_decide; by simplify_eq. }
  apply bind_congr_l, Hc.
Qed.

Lemma Emplace_with_full pos (construct : ptr → St (frame T U) unit) xs o e :
  Emplace_with pos construct (enter (rep xs 0) o e) =
    EmplaceRealloc_with pos construct (enter (rep xs 0) o e).
Proof.
  unfold Emplace_with. unfold st_bind at 1. unfold Size, gets. simpl.
  unfold st_bind at 1. unfold Capacity, gets. simpl.
  rewrite length_app, length_fmap. simpl. rewrite bool_decide_true by lia. done.
Qed.

Lemma Insert_full_reads_first pos j x xs o e :
  xs !! j = Some x →
  Insert pos (Inside j) (enter (rep xs 0) o e) =
    Insert pos (Outside x) (enter (rep xs 0) o e).
Proof.
  intros Hx. unfold Insert. rewrite !Emplace_with_full.
  apply EmplaceRealloc_with_congr. intros p b.
  cbn [construct_from]. unfold construct_copy_at, st_bind.
  change (begin_ +ₚ j) with (MkPtr Data j).
  rewrite (load_eq Data j x); [done|].
  cbn. rewrite lookup_app_l by (rewrite length_fmap; by eapply lookup_lt_Some).
  by rewrite list_lookup_fmap, Hx.
Qed.

(** X12: [Insert(pos, value)] with spare capacity, for an element type whose
    move leaves the source as it was, such as [int].  The reference [value]
    is read when the new element is constructed, after the elements from
    the position on have been shifted.  For an object outside the vector,
    and for an element of the vector before the position, the result is the
    elements before the position, the value, and the elements from the
    position on.  For the element at an index [j] after the position, what
    is inserted is its left neighbour, the object that slot [j] holds by
    then.  For the element at the position itself, and for no other
    argument, the call has undefined behaviour: that object has been
    destroyed.  The capacity is unchanged.  On a full vector the reference
    is read before anything moves, and the element itself is inserted. *)
Theorem Insert_in_place_plain value xs k i o e :
  moves_are_copies → copies_faithfully → i ≤ length xs →
  match value with Outside _ => True | Inside j => j < length xs end →
  match Insert (begin_ +ₚ i) value (enter (rep xs (S k)) o e) with
  | (Ok p, st') =>
      p = MkPtr Data i ∧
      capacity (this st') = capacity (rep xs (S k)) ∧
      ∃ y, this st' = rep (take i xs ++ y :: drop i xs) k ∧
        match value with
        | Outside x => y = x
        | Inside j => (j < i ∧ xs !! j = Some y) ∨ (i < j ∧ xs !! (j - 1) = Some y)
        end
  | (Throw, _) => value ≠ Inside i
  | (Undef, _) => value = Inside i
  end ∧
  (value = Inside i →
   (Insert (begin_ +ₚ i) value (enter (rep xs (S k)) o e)).1 = Undef) ∧
  (nothrow → value ≠ Inside i →
   ∃ st', Insert (begin_ +ₚ i) value (enter (rep xs (S k)) o e) = (Ok (MkPtr Data i), st')) ∧
  (∀ j x, value = Inside j → xs !! j = Some x →
     Insert (begin_ +ₚ i) value (enter (rep xs 0) o e) =
       Insert (begin_ +ₚ i) (Outside x) (enter (rep xs 0) o e)).
Proof.
  intros Hplain Hc Hi Hvalue.
  assert (∃ e0,
    Insert (begin_ +ₚ i) value (enter (rep xs (S k)) o e) =
      match read_after_shift xs i value with
      | Some x =>
          match T_copy x e0 with
          | (Some y, e') =>
              (Ok (MkPtr Data i), enter (rep (take i xs ++ y :: drop i xs) k) o e')
          | (None, e') => (Throw, vacated xs k i o e')
          end
      | None => (Undef, vacated xs k i o e0)
      end) as [e0 Heq].
  { unfold Insert.
    destruct (Emplace_with_in_place (construct_from value) xs k i o e Hplain Hi) as [e0 ->].
    exists e0. by apply EmplaceMove_fill_from. }
  assert (read_after_shift xs i value = None ↔ value = Inside i) as Hnone.
  { destruct value as [x0|j]; cbn [read_after_shift]; [by split|].
    case_bool_decide as Hlt; [|case_bool_decide as Hji].
    - rewrite lookup_ge_None. split; [lia|]. intros [= ->]. lia.
    - by subst j.
    - rewrite lookup_ge_None. split; [lia|]. by intros [= ->]. }
  rewrite Heq. split; [|split; [|split]].
  - destruct (read_after_shift xs i value) as [x|] eqn:Hread.
    + assert (value ≠ Inside i) as Hne by (intros Hv; by apply Hnone in Hv).
      destruct (T_copy x e0) as [[y|] e1] eqn:Hy; [|done].
      apply T_copy_faithful in Hy as ->; [|done].
      cbn [enter this]. split; [done|]. split.
      { unfold capacity. rewrite !rep_capacity, length_app. cbn [length].
        rewrite length_take, length_drop. lia. }
      exists x. split; [done|].
      destruct value as [x0|j]; cbn [read_after_shift] in Hread; [by simplify_eq|].
      case_bool_decide; [by left|]. case_bool_decide; [done|]. right. split; [lia|done].
    + by apply Hnone.
  - intros Hv. apply Hnone in Hv. by rewrite Hv.
  - intros Hn Hne.
    destruct (read_after_shift xs i value) as [x|] eqn:Hread.
    + pose proof (T_copy_constructs x Hn e0) as Hx.
      destruct (T_copy x e0) as [[y|] e1]; [eauto|done].
    + exfalso. by apply Hne, Hnone.
  - intros j x -> Hx. by apply Insert_full_reads_first.
Qed.

Lemma by_move_faithful x e y e' :
  moves_faithfully → by_move x e = (Some y, e') → y = x.
Proof.
  intros Hm. unfold by_move, T_move. simpl.
  destruct (move_construct x (user e)) as [[r x'] u] eqn:Hx. intros [= -> _]. eauto.
Qed.

Lemma by_move_movable x : nothrow ∨ nothrow_movable → constructs (by_move x).
Proof.
  intros [Hn|(_ & Hm & _)]; [by apply by_move_constructs|].
  intros e. unfold by_move, T_move. simpl. specialize (Hm x (user e)).
  by destruct (move_construct x (user e)) as [[[y|] x'] u].
Qed.

Lemma PushBack_move_all_rep ys xs k o e :
  copies_faithfully → moves_faithfully →
  match PushBack_move_all ys (enter (rep xs k) o e) with
  | (Ok _, st') => ∃ k' e', st' = enter (rep (xs ++ ys) k') o e'
  | (Throw, _) => True
  | (Undef, _) => False
  end ∧
  (nothrow ∨ nothrow_movable →
   ∃ st', PushBack_move_all ys (enter (rep xs k) o e) = (Ok tt, st')).
Proof.
  intros Hc Hm. revert xs k e. induction ys as [|y ys IH]; intros xs k e; simpl.
  - split; [|by eauto]. exists k, e. by rewrite app_nil_r.
  - unfold PushBack_move. unfold st_bind at 1 3. unfold st_bind at 1 2.
    rewrite EmplaceBack_eq. unfold st_ret.
    split.
    + destruct (bool_decide (k = 0)); [destruct (can_allocate _ _); [|done]|];
        (destruct (by_move y e) as [[z|] e1] eqn:Hy; [|done]);
        (apply by_move_faithful in Hy as ->; [|done]).
      * destruct (transfer_list xs e1) as [[[zs|] old] e2] eqn:Ht; [|done].
        apply transfer_list_faithful in Ht as ->; [|done..].
        destruct (IH (xs ++ [y]) (grown (length xs) - length xs - 1)
                    (destroy_list old e2)) as [IH1 _].
        rewrite <- app_assoc in IH1. apply IH1.
      * destruct (IH (xs ++ [y]) (k - 1) e1) as [IH1 _].
        rewrite <- app_assoc in IH1. apply IH1.
    + intros Hn. pose proof (by_move_movable y Hn e) as Hy.
      destruct (bool_decide (k = 0)).
      * rewrite (can_allocate_movable _ _ Hn).
        destruct (by_move y e) as [[z|] e1]; [|done].
        pose proof (transfer_list_movable xs e1 Hn) as Ht.
        destruct (transfer_list xs e1) as [[[zs|] old] e2]; [|done].
        by apply IH.
      * destruct (by_move y e) as [[z|] e1]; [|done]. by apply IH.
Qed.

(** X13: appending values with [PushBack(T&&)] to an empty vector and
    reading them back yields the values in order, whatever reallocations
    happened, also for a move-only element type; when the move constructor
    does not throw and memory lasts, the appends return. *)
Theorem PushBack_move_round_trip xs o e :
  copies_faithfully → moves_faithfully →
  match PushBack_move_all xs (enter (MkVector [] 0) o e) with
  | (Ok _, st') =>
      (∃ k', this st' = rep xs k') ∧
      ∀ i x, xs !! i = Some x → at_ i st' = (Ok x, st')
  | (Throw, _) => True
  | (Undef, _) => False
  end ∧
  (nothrow ∨ nothrow_movable →
   ∃ st', PushBack_move_all xs (enter (MkVector [] 0) o e) = (Ok tt, st')).
Proof.
  intros Hc Hm. destruct (PushBack_move_all_rep xs [] 0 o e Hc Hm) as [Hrep Hret].
  change (rep [] 0) with (MkVector (T:=T) [] 0) in *. split; [|done].
  destruct (PushBack_move_all xs (enter (MkVector [] 0) o e)) as [[[]| |] st']; [|done..].
  destruct Hrep as (k' & e' & ->). cbn [enter this]. split; [by exists k'|].
  intros i x Hx. by apply (at_rep xs k').
Qed.

Lemma PushBack_all_spare ys xs k o e :
  length ys ≤ k →
  match PushBack_all ys (enter (rep xs k) o e) with
  | (Ok _, st') =>
      ∃ zs, length zs = length ys ∧
            this st' = rep (xs ++ zs) (k - length ys) ∧ other st' = o ∧
            trace (env st') = trace e ++ (EvCopy <$> ys) ∧
            (copies_faithfully → zs = ys)
  | (Throw, st') =>
      ∃ zs, length zs < length ys ∧ this st' = rep (xs ++ zs) (k - length zs)
  | (Undef, _) => False
  end.
Proof.
  revert xs k e. induction ys as [|y ys IH]; intros xs k e Hk; simpl.
  - exists []. rewrite !app_nil_r, Nat.sub_0_r. cbn [enter this other env].
    repeat split; done.
  - simpl in Hk. unfold PushBack. unfold st_bind at 1. unfold st_bind at 1.
    rewrite EmplaceBack_eq. rewrite bool_decide_false by lia.
    unfold by_copy, st_ret.
    destruct (T_copy y e) as [[z|] e1] eqn:Hy.
    + specialize (IH (xs ++ [z]) (k - 1) e1). 
      assert (trace e1 = trace e ++ [EvCopy y]) as Htr.
      { unfold T_copy in Hy. simpl in Hy.
        destruct (copy_construct y (user e)) as [r u]. by injection Hy as _ <-. }
      destruct (PushBack_all ys (enter (rep (xs ++ [z]) (k - 1)) o e1))
        as [[[]| |] st'].
      * destruct IH as (zs & Hlen & Hthis & Ho & Htrace & Hf); [lia|].
        exists (z :: zs). split; [simpl; lia|].
        split; [rewrite Hthis, <- app_assoc; simpl; f_equal; lia|].
        split; [done|].
        split; [rewrite Htrace, Htr, <- app_assoc; done|].
        intros Hc. rewrite (Hf Hc). f_equal. by eapply T_copy_faithful.
      * destruct IH as (zs & Hlen & Hthis); [lia|].
        exists (z :: zs). split; [simpl; lia|].
        rewrite Hthis, <- app_assoc. simpl. f_equal. lia.
      * apply IH. lia.
    + exists []. split; [simpl; lia|]. cbn [enter this]. by rewrite app_nil_r, Nat.sub_0_r.
Qed.

(** X14: after [Reserve(n)] has returned, appending values while the size
    stays within [n] never reallocates: the capacity does not change, no
    existing element is moved, copied or destroyed, and the only special
    member called is the copy constructor, once for each value appended.
    Stated for a request [n] whose byte count [n * sizeof(T)] is within
    [size_t]. *)
Theorem Reserve_then_append n ys xs k o e st1 :
  fits n →
  Reserve n (enter (rep xs k) o e) = (Ok tt, st1) →
  length xs + length ys ≤ n →
  capacity (this st1) = Nat.max (capacity (rep xs k)) n ∧
  match PushBack_all ys st1 with
  | (Ok _, st') =>
      size_ (this st') = length xs + length ys ∧
      capacity (this st') = capacity (this st1) ∧
      trace (env st') = trace (env st1) ++ (EvCopy <$> ys) ∧
      (copies_faithfully → moves_faithfully →
       this st' = rep (xs ++ ys) (capacity (this st1) - length xs - length ys))
  | (Throw, st') => capacity (this st') = capacity (this st1)
  | (Undef, _) => False
  end.
Proof.
  intros _ Hres Hn.
  assert (∃ zs k1 e1, st1 = enter (rep zs k1) o e1 ∧ length zs = length xs ∧
            length zs + k1 = Nat.max (length xs + k) n ∧
            (copies_faithfully → moves_faithfully → zs = xs)) as
    (zs & k1 & e1 & -> & Hlen & Hcap & Hzs).
  { rewrite Reserve_eq in Hres. case_bool_decide as Hle.
    - injection Hres as <-. exists xs, k, e. repeat split; try done. lia.
    - destruct (can_allocate n (user e)); [|done].
      destruct (transfer_list xs e) as [[[zs|] old] e1] eqn:Ht; [|done].
      injection Hres as <-.
      pose proof (transfer_list_length _ _ _ _ _ Ht) as [_ Hl].
      specialize (Hl zs eq_refl).
      exists zs, (n - length xs), (destroy_list old e1).
      split; [done|]. split; [done|]. split; [lia|].
      intros Hc Hm. by eapply transfer_list_faithful. }
  unfold capacity. cbn [enter this env]. rewrite !rep_capacity.
  split; [done|].
  pose proof (PushBack_all_spare ys zs k1 o e1) as Hp.
  destruct (PushBack_all ys (enter (rep zs k1) o e1)) as [[[]| |] st'].
  - destruct Hp as (ws & Hw & Hthis & _ & Htr & Hf); [lia|].
    rewrite Hthis, rep_capacity, length_app. cbn [rep size_].
    rewrite length_app. split; [lia|]. split; [lia|]. split; [done|].
    intros Hc Hm. rewrite (Hf Hc), (Hzs Hc Hm). f_equal. lia.
  - destruct Hp as (ws & Hw & Hthis); [lia|].
    rewrite Hthis, rep_capacity, length_app. lia.
  - apply Hp. lia.
Qed.

(** X15: inserting an element at a position and then erasing at that
    position gives back the elements the vector had, in order; the iterator
    returned by [Erase] is that of [Emplace].  Proved for the reallocating
    path with any element type whose copies, moves and move assignments
    preserve the value, and for the in-place path with an element type
    whose move leaves the source as it was. *)
Theorem Emplace_then_Erase (args : Env T U → option T * Env T U) xs i o e :
  move_assigns_faithfully → i ≤ length xs →
  (copies_faithfully → moves_faithfully →
   match (p <- Emplace (begin_ +ₚ i) args ;; Erase p) (enter (rep xs 0) o e) with
   | (Ok q, st') =>
       q = MkPtr Data i ∧ this st' = rep xs (grown (length xs) - length xs)
   | (Throw, _) => True
   | (Undef, _) => False
   end) ∧
  (moves_are_copies → ∀ k,
   match (p <- Emplace (begin_ +ₚ i) args ;; Erase p) (enter (rep xs (S k)) o e) with
   | (Ok q, st') => q = MkPtr Data i ∧ this st' = rep xs (S k)
   | (Throw, _) => True
   | (Undef, _) => False
   end).
Proof.
  intros Hf Hi.
  assert (Herase : ∀ y k' e1,
    match Erase (begin_ +ₚ i) (enter (rep (take i xs ++ y :: drop i xs) k') o e1) with
    | (Ok q, st') => q = MkPtr Data i ∧ this st' = rep xs (S k')
    | (Throw, _) => True
    | (Undef, _) => False
    end).
  { intros y k' e1.
    rewrite (Erase_at (take i xs ++ y :: drop i xs) k' i y o e1).
    2:{ rewrite lookup_app_r by (rewrite length_take; lia).
        rewrite length_take, Nat.min_l by lia. by rewrite Nat.sub_diag. }
    assert (take i (take i xs ++ y :: drop i xs) = take i xs) as ->.
    { rewrite take_app_le by (rewrite length_take; lia).
      rewrite take_take. f_equal. lia. }
    assert (drop (S i) (take i xs ++ y :: drop i xs) = drop i xs) as ->.
    { rewrite drop_app_ge by (rewrite length_take; lia).
      rewrite length_take, Nat.min_l by lia.
      replace (S i - i) with 1 by lia. done. }
    destruct (erase_list y (drop i xs) e1) as [[[] r] e2] eqn:Hr; [|done].
    apply erase_list_faithful in Hr as [z ->]; [|done].
    rewrite removelast_last, take_drop. done. }
  split.
  - intros Hc Hm. unfold st_bind. rewrite Emplace_full, EmplaceRealloc_at by done.
    pose proof (grown_gt (length xs)) as Hg.
    destruct (can_allocate _ _); [|done].
    destruct (args e) as [[y|] e1]; [|done].
    destruct (transfer_list (take i xs) e1) as [[[ys1|] old1] e2] eqn:Ht1; [|done].
    apply transfer_list_faithful in Ht1 as ->; [|done..].
    destruct (transfer_list (drop i xs) e2) as [[[ys2|] old2] e3] eqn:Ht2; [|done].
    apply transfer_list_faithful in Ht2 as ->; [|done..].
    specialize (Herase y (grown (length xs) - length xs - 1)
                  (destroy_list (old1 ++ old2) e3)).
    change (begin_ +ₚ i) with (MkPtr Data i) in Herase.
    destruct (Erase _ _) as [[q| |] st']; try done.
    destruct Herase as [-> ->]. split; [done|]. f_equal. lia.
  - intros Hplain k. unfold st_bind.
    destruct (Emplace_in_place_eq args xs k i o e Hplain Hi) as [e0 ->].
    destruct (args e0) as [[y|] e1]; [|done].
    specialize (Herase y k e1). change (begin_ +ₚ i) with (MkPtr Data i) in Herase.
    done.
Qed.

End Growth.

(** ** Copy assignment *)

Section Assignment.
Context {T U : Type} `{!Element T U}.
Implicit Types (st : frame T U) (e : Env T U) (o v : Vector T).
Implicit Types (xs ys rs cs ds ss : list T) (m : machine (T:=T) (U:=U)).

Lemma trace_assign_list ds ss acc e ok r e' :
  assign_list ds ss acc e = (ok, r, e') →
  ∃ tr, trace e' = trace e ++ tr ∧ tr `prefix_of` zip_with EvCopyAssign ds ss ∧
        (ok = true → tr = zip_with EvCopyAssign ds ss).
Proof.
  revert ss acc e. induction ds as [|d ds IH]; intros [|s ss] acc e; simpl;
    try (intros [= <- <- <-]; exists []; by rewrite app_nil_r).
  unfold T_copy_assign. simpl.
  destruct (copy_assign d s (user e)) as [[[] d'] u].
  - intros Ha. apply IH in Ha as (tr & Htr & Hpre & Hok). simpl in Htr.
    exists (EvCopyAssign d s :: tr). rewrite Htr, <- app_assoc.
    split; [done|]. split; [by apply prefix_cons|]. intros ?. f_equal. auto.
  - intros [= <- <- <-]. exists [EvCopyAssign d s]. simpl.
    split; [done|]. split; [|done]. apply prefix_cons, prefix_nil.
Qed.

(** X16: copy assignment between two distinct vectors reuses the storage of
    the receiver whenever the source fits in it: the capacity is unchanged,
    the elements present on both sides are copy-assigned, surplus elements
    of the receiver are destroyed and missing ones copy-constructed, and
    nothing else is called.  Only when the source holds more elements than
    the capacity is a copy built and swapped in; the capacity is then
    exactly the size of the source.  The source is never modified. *)
Theorem assign_reuses_storage a b xs k rs rk m :
  copies_faithfully → assigns_faithfully →
  a ≠ b → objs m !! a = Some (rep xs k) → objs m !! b = Some (rep rs rk) →
  match Vector_assign a b m with
  | (Ok _, m') =>
      objs m' !! b = Some (rep rs rk) ∧
      if bool_decide (capacity (rep xs k) < length rs) then
        objs m' = <[a := rep rs 0]> (objs m) ∧
        trace (world m') = trace (world m) ++ (EvCopy <$> rs) ++ (EvDestroy <$> xs)
      else
        objs m' = <[a := rep rs (capacity (rep xs k) - length rs)]> (objs m) ∧
        trace (world m') =
          trace (world m) ++ (EvDestroy <$> drop (length rs) xs) ++
          (EvCopy <$> drop (length xs) rs) ++ zip_with EvCopyAssign xs rs
  | (Throw, m') => objs m' !! b = Some (rep rs rk)
  | (Undef, _) => False
  end.
Proof.
  intros Hc Has Hne Ha Hb. rewrite (Vector_assign_eq a b _ _ m Hne Ha Hb).
  rewrite assign_from_other_eq. unfold capacity. rewrite rep_capacity.
  assert (∀ v' (mm : gmap nat (Vector T)), mm !! b = Some (rep rs rk) →
            <[a := v']> mm !! b = Some (rep rs rk)) as Hkeep
    by (intros; by rewrite lookup_insert_ne).
  case_bool_decide as Hcap.
  - destruct (can_allocate _ _); [|cbn [this env objs]; by apply Hkeep].
    destruct (copy_list rs (world m)) as [[cs|] e'] eqn:Hcs;
      [|cbn [this env objs]; by apply Hkeep].
    pose proof (trace_build_copy _ _ _ _ _ Hcs) as Htr.
    apply copy_list_faithful in Hcs as ->; [|done].
    cbn [this env objs world enter]. split; [by apply Hkeep|]. split; [done|].
    by rewrite trace_destroy_list, Htr, <- app_assoc.
  - case_bool_decide as Hle.
    + destruct (assign_list _ _ _ _) as [[[] ds] e'] eqn:Hds;
        [|cbn [this env objs]; by apply Hkeep].
      pose proof (trace_assign_list _ _ _ _ _ _ _ Hds) as (tr & Htr & _ & Hok).
      rewrite (Hok eq_refl) in Htr.
      apply assign_list_faithful in Hds as ->; [|done|rewrite length_take; lia].
      cbn [this env objs world enter]. split; [by apply Hkeep|]. split; [done|].
      rewrite Htr, trace_destroy_list, <- app_assoc. f_equal. f_equal.
      rewrite drop_ge by lia. simpl.
      apply zip_with_take_l.
    + destruct (copy_list _ _) as [[cs|] e1] eqn:Hcs;
        [|cbn [this env objs]; by apply Hkeep].
      pose proof (trace_build_copy _ _ _ _ _ Hcs) as Htr1.
      apply copy_list_faithful in Hcs as ->; [|done].
      destruct (assign_list _ _ _ _) as [[[] ds] e2] eqn:Hds;
        [|cbn [this env objs]; by apply Hkeep].
      pose proof (trace_assign_list _ _ _ _ _ _ _ Hds) as (tr & Htr & _ & Hok).
      rewrite (Hok eq_refl) in Htr.
      apply assign_list_faithful in Hds as ->; [|done|rewrite length_take; lia].
      cbn [this env objs world enter app]. rewrite take_drop.
      split; [by apply Hkeep|]. split; [done|].
      rewrite Htr, Htr1, <- app_assoc. f_equal.
      rewrite (drop_ge xs) by lia. simpl. f_equal.
      apply zip_with_take_r.
Qed.

(** X17: when the source is shorter than the receiver and one of the element
    assignments throws, copy assignment leaves the receiver with its old
    size although the surplus elements have already been destroyed: slots
    below the size hold no object.  The source is as it was. *)
Theorem assign_throw_after_destroy a b xs k rs rk m m' :
  a ≠ b → objs m !! a = Some (rep xs k) → objs m !! b = Some (rep rs rk) →
  length rs < length xs →
  Vector_assign a b m = (Throw, m') →
  ∃ v', objs m' !! a = Some v' ∧ size_ v' = length xs ∧
        capacity v' = capacity (rep xs k) ∧
        data_ v' !! length rs = Some None ∧ ¬ wf v' ∧
        objs m' !! b = Some (rep rs rk).
Proof.
  intros Hne Ha Hb Hlt. rewrite (Vector_assign_eq a b _ _ m Hne Ha Hb).
  rewrite assign_from_other_eq.
  rewrite bool_decide_false by lia. rewrite bool_decide_true by lia.
  destruct (assign_list _ _ _ _) as [[[] ds] e'] eqn:Hds; [done|].
  intros [= <-]. cbn [this env objs world enter].
  apply assign_list_length in Hds. rewrite length_take in Hds. simpl in Hds.
  eexists. split; [by rewrite lookup_insert_eq|]. cbn [size_ data_].
  assert (((Some <$> ds) ++ replicate (length xs + k - length rs) None) !! length rs
          = Some (@None T)) as Hslot.
  { rewrite lookup_app_r by (rewrite length_fmap; lia).
    rewrite length_fmap. apply lookup_replicate_2. lia. }
  split; [done|].
  split; [unfold capacity; cbn [data_]; rewrite rep_capacity, length_app, length_fmap,
            length_replicate; lia|].
  split; [done|]. split; [|by rewrite lookup_insert_ne].
  intros (ys & sp & Hv). injection Hv as Hd Hs. rewrite Hd in Hslot.
  rewrite lookup_app_l in Hslot by (rewrite length_fmap; lia).
  rewrite list_lookup_fmap in Hslot. by destruct (ys !! length rs).
Qed.

End Assignment.

(** ** The in-place path of [Emplace] for every element type *)

Section InPlaceGeneral.
Context {T U : Type} `{!Element T U}.
Implicit Types (st : frame T U) (e : Env T U) (o v : Vector T).
Implicit Types (xs ys zs : list T) (pre post : RawMemory T) (p : place).

Lemma assign_move_right_eq p pre s d post st :
  writable p = true →
  slots p st = pre ++ Some s :: Some d :: post →
  assign_move (MkPtr p (S (length pre))) (MkPtr p (length pre)) st =
    let '(ok, d', s', e') := T_move_assign d s (env st) in
    (if ok : bool then Ok tt else Throw,
     set_slots p (pre ++ Some s' :: Some d' :: post) (set_env e' st)).
Proof.
  intros Hw Hs. unfold assign_move.
  erewrite bind_ok; last first.
  { apply load_eq. rewrite Hs. cbn [base off].
    replace (pre ++ Some s :: Some d :: post) with ((pre ++ [Some s]) ++ Some d :: post)
      by (by rewrite <- app_assoc).
    apply list_lookup_middle. rewrite length_app. simpl. lia. }
  erewrite bind_ok; last by (apply load_eq; rewrite Hs; apply list_lookup_middle).
  unfold st_bind at 1. unfold lift_env.
  destruct (T_move_assign d s (env st)) as [[[ok d'] s'] e'] eqn:Hm.
  cbn [fst snd].
  unfold st_bind at 1.
  rewrite (store_eq p pre (Some s) (Some s') (Some d :: post) (set_env e' st));
    [|done|by rewrite slots_set_env, Hs].
  replace (S (length pre)) with (length (pre ++ [Some s']))
    by (rewrite length_app; simpl; lia).
  unfold st_bind at 1.
  rewrite (store_eq p (pre ++ [Some s']) (Some d) (Some d') post);
    [|done|by rewrite slots_set_slots, decide_True by done; rewrite <- app_assoc].
  destruct st as [[dd sz] nd oo ee].
  destruct p; try done; destruct ok; norm; by rewrite <- app_assoc.
Qed.

(** [move_backward] onto the slot just after its source range: by symmetry
    it is [erase_list] read from the right. *)
Lemma move_backward_n_eq p zs :
  writable p = true →
  ∀ pre w post st,
    slots p st = pre ++ (Some <$> zs) ++ Some w :: post →
    move_backward_n (MkPtr p (length pre + length zs)) (length zs)
      (MkPtr p (length pre + length zs + 1)) st =
      let '(ok, r, e') := erase_list w (rev zs) (env st) in
      (if ok : bool then Ok tt else Throw,
       set_slots p (pre ++ (Some <$> rev r) ++ post) (set_env e' st)).
Proof.
  intros Hw. induction zs as [|z zs IH] using rev_ind; intros pre w post st Hs.
  - simpl. unfold st_ret. f_equal. simpl in Hs.
    destruct st as [[dd sz] nd oo ee]. destruct p; try done; norm; simpl in Hs; by subst.
  - rewrite rev_app_distr. cbn [rev app]. rewrite length_app. cbn [length].
    replace (length zs + 1) with (S (length zs)) by lia.
    cbn [move_backward_n erase_list].
    unfold st_bind at 1. unfold ptr_sub at 1. cbn [base off].
    rewrite bool_decide_true by lia. unfold st_ret at 1.
    unfold st_bind at 1. unfold ptr_sub at 1. cbn [base off].
    rewrite bool_decide_true by lia. unfold st_ret at 1.
    replace (length pre + S (length zs) + 1 - 1) with (S (length (pre ++ (Some <$> zs))))
      by (rewrite length_app, length_fmap; lia).
    replace (length pre + S (length zs) - 1) with (length (pre ++ (Some <$> zs)))
      by (rewrite length_app, length_fmap; lia).
    assert (slots p st = (pre ++ (Some <$> zs)) ++ Some z :: Some w :: post) as Hs'.
    { rewrite Hs, fmap_app. cbn [fmap list_fmap]. by rewrite <- !app_assoc. }
    unfold st_bind at 1.
    rewrite (assign_move_right_eq p (pre ++ (Some <$> zs)) z w post st Hw Hs').
    destruct (T_move_assign w z (env st)) as [[[ok w'] z'] e1].
    destruct ok.
    + specialize (IH pre z' (Some w' :: post)
                    (set_slots p ((pre ++ (Some <$> zs)) ++ Some z' :: Some w' :: post)
                       (set_env e1 st))).
      rewrite length_app, length_fmap.
      replace (S (length pre + length zs)) with (length pre + length zs + 1) by lia.
      rewrite IH by (by rewrite slots_set_slots, decide_True by done; rewrite <- app_assoc).
      destruct st as [[dd sz] nd oo ee].
      destruct p; try done; norm;
        destruct (erase_list z' (rev zs) e1) as [[ok1 r1] e2]; norm; cbn [rev];
        (f_equal; apply frame_ext; try done;
         rewrite fmap_app; cbn [fmap list_fmap]; by rewrite <- !app_assoc).
    + destruct st as [[dd sz] nd oo ee].
      destruct p; try done; norm; cbn [rev]; rewrite ?rev_involutive;
        (f_equal; apply frame_ext; try done;
         rewrite !fmap_app; cbn [fmap list_fmap]; rewrite ?rev_app_distr, ?rev_involutive;
         cbn [rev app fmap list_fmap]; by rewrite <- ?app_assoc).
Qed.


Lemma construct_move_at_right_eq p pre x post st :
  writable p = true →
  slots p st = pre ++ Some x :: None :: post →
  construct_move_at (MkPtr p (S (length pre))) (MkPtr p (length pre)) st =
    let '(r, x', e') := T_move x (env st) in
    match r with
    | Some y => (Ok tt, set_slots p (pre ++ Some x' :: Some y :: post) (set_env e' st))
    | None => (Throw, set_slots p (pre ++ Some x' :: None :: post) (set_env e' st))
    end.
Proof.
  intros Hw Hs. unfold construct_move_at.
  erewrite bind_ok; last by (apply load_eq; rewrite Hs; apply list_lookup_middle).
  unfold st_bind at 1. unfold lift_env.
  destruct (T_move x (env st)) as [[r x'] e'] eqn:Hm. cbn [fst snd].
  unfold st_bind at 1.
  rewrite (store_eq p pre (Some x) (Some x') (None :: post) (set_env e' st));
    [|done|by rewrite slots_set_env, Hs].
  destruct r as [y|]; [|done].
  replace (S (length pre)) with (length (pre ++ [Some x']))
    by (rewrite length_app; simpl; lia).
  rewrite (store_eq p (pre ++ [Some x']) None (Some y) post);
    [|done|by rewrite slots_set_slots, decide_True by done; rewrite <- app_assoc].
  destruct st as [[dd sz] nd oo ee].
  destruct p; try done; norm; by rewrite <- app_assoc.
Qed.

Lemma erase_list_nonempty d ss e ok r e' :
  erase_list d ss e = (ok, r, e') → ∃ h r', r = h :: r' ∧ length r' = length ss.
Proof.
  intros Hr. apply erase_list_length in Hr. destruct r as [|h r']; [done|].
  exists h, r'. split; [done|]. simpl in Hr. lia.
Qed.

(** The first part of [EmplaceMove] on a non-empty vector: the last element
    is move-constructed into the free slot, the elements from the position
    on are move-assigned one slot to the right, and the slot at the
    position is destroyed. *)
Lemma EmplaceMove_shift_eq xs0 l k i o e :
  i ≤ S (length xs0) →
  (p <- RawMemory_plus Data (S (length xs0)) ;;
   last <- ptr_sub (MkPtr Data (S (length xs0))) 1 ;;
   construct_move_at p last ;;;
   try_catch
     (move_backward (MkPtr Data i) (MkPtr Data (S (length xs0)))
        (MkPtr Data (S (length xs0) + 1)))
     (destroy_at (MkPtr Data (S (length xs0))) ;;; throw) ;;;
   destroy_at (MkPtr Data i)) (enter (rep (xs0 ++ [l]) (S k)) o e) =
    match T_move l e with
    | (None, l', e1) => (Throw, enter (rep (xs0 ++ [l']) (S k)) o e1)
    | (Some y0, l', e1) =>
        match erase_list y0 (rev (drop i (xs0 ++ [l']))) e1 with
        | (false, r, e2) =>
            (Throw, enter (rep (take i (xs0 ++ [l']) ++ rev (tail r)) (S k)) o
                      (T_destroy (hd y0 r) e2))
        | (true, r, e2) =>
            (Ok tt,
             MkFrame (MkVector ((Some <$> take i (xs0 ++ [l'])) ++ None ::
                                (Some <$> tail (rev r)) ++ replicate k None)
                        (S (length xs0))) [] o
               (T_destroy (hd y0 (rev r)) e2))
        end
    end.
Proof.
  intros Hi.
  unfold st_bind at 1.
  unfold RawMemory_plus at 1, st_bind at 1, gets. norm.
  rewrite rep_capacity, length_app. cbn [length].
  rewrite bool_decide_true by lia. unfold st_ret.
  unfold st_bind at 1. unfold ptr_sub. cbn [base off].
  rewrite bool_decide_true by lia.
  unfold st_ret. unfold st_bind at 1.
  replace (S (length xs0) - 1) with (length xs0) by lia.
  pose proof (construct_move_at_right_eq Data (Some <$> xs0) l (replicate k None)
                (MkFrame (rep (xs0 ++ [l]) (S k)) [] o e) eq_refl) as Hc.
  rewrite length_fmap in Hc. rewrite Hc by slots_tac. clear Hc. norm.
  destruct (T_move l e) as [[[y0|] l'] e1]; [|frame_eq].
  unfold st_bind at 1. unfold try_catch, move_backward.
  unfold st_bind at 1. unfold ptr_diff. cbn [base off].
  rewrite bool_decide_true by done. rewrite bool_decide_true by lia.
  cbn [andb]. unfold st_ret.
  set (xs' := xs0 ++ [l']).
  assert (length xs' = S (length xs0)) as Hlen'
    by (unfold xs'; rewrite length_app; simpl; lia).
  pose proof (move_backward_n_eq Data (drop i xs') eq_refl
                (Some <$> take i xs') y0 (replicate k None)
                (MkFrame (MkVector ((Some <$> xs0) ++ Some l' :: Some y0 :: replicate k None)
                            (size_ (rep (xs0 ++ [l]) (S k)))) [] o e1)) as Hb.
  rewrite length_fmap, length_take, length_drop, Hlen' in Hb.
  replace (i `min` S (length xs0) + (S (length xs0) - i)) with (S (length xs0)) in Hb by lia.
  rewrite Hb.
  2:{ norm. rewrite app_assoc, <- fmap_app, take_drop. unfold xs'.
      by rewrite fmap_app, <- app_assoc. }
  clear Hb. norm.
  destruct (erase_list y0 (rev (drop i xs')) e1) as [[ok r] e2] eqn:Hr.
  destruct (erase_list_nonempty _ _ _ _ _ _ Hr) as (h & r' & -> & Hr').
  rewrite length_rev, length_drop, Hlen' in Hr'.
  cbn [rev hd tail].
  destruct ok.
  - (* the shift completed: the slot at the position is destroyed *)
    destruct (rev r') as [|g rr] eqn:Hrev.
    + (* nothing was shifted: the position is [end()] *)
      apply (f_equal length) in Hrev. rewrite length_rev in Hrev. simpl in Hrev.
      cbn [app hd tail fmap list_fmap].
      rewrite (destroy_at_at Data _ (Some <$> take i xs') h (replicate k None));
        [|done|rewrite length_fmap, length_take; lia|by slots_tac].
      frame_eq.
    + cbn [app hd tail].
      rewrite (destroy_at_at Data _ (Some <$> take i xs') g
                 ((Some <$> rr ++ [h]) ++ replicate k None));
        [|done|rewrite length_fmap, length_take; lia|done].
      frame_eq.
  - (* a move assignment threw: the duplicate of the last element goes *)
    unfold st_bind at 1.
    rewrite (destroy_at_at Data _ ((Some <$> take i xs') ++ (Some <$> rev r')) h
               (replicate k None));
      [|done|rewrite length_app, !length_fmap, length_take, length_rev; lia|by slots_tac].
    norm. unfold throw. frame_eq.
    rewrite length_take, length_rev. lia.
Qed.


Lemma vacated_at xs' tl k i o e :
  length (take i xs') = i →
  MkFrame (MkVector ((Some <$> take i xs') ++ None :: (Some <$> tl) ++ replicate k None)
             (i + length tl)) [] o e =
  vacated (take i xs' ++ tl) k i o e.
Proof.
  intros Hi. unfold vacated.
  rewrite take_app_length', drop_app_length', length_app by done.
  by rewrite Hi.
Qed.

Lemma Emplace_in_place_general_eq (args : Env T U → option T * Env T U) xs0 l k i o e :
  i ≤ S (length xs0) →
  Emplace (begin_ +ₚ i) args (enter (rep (xs0 ++ [l]) (S k)) o e) =
    match T_move l e with
    | (None, l', e1) => (Throw, enter (rep (xs0 ++ [l']) (S k)) o e1)
    | (Some y0, l', e1) =>
        match erase_list y0 (rev (drop i (xs0 ++ [l']))) e1 with
        | (false, r, e2) =>
            (Throw, enter (rep (take i (xs0 ++ [l']) ++ rev (tail r)) (S k)) o
                      (T_destroy (hd y0 r) e2))
        | (true, r, e2) =>
            match args (T_destroy (hd y0 (rev r)) e2) with
            | (Some y, e3) =>
                (Ok (MkPtr Data i),
                 enter (rep (take i (xs0 ++ [l']) ++ y :: tail (rev r)) k) o e3)
            | (None, e3) =>
                (Throw, vacated (take i (xs0 ++ [l']) ++ tail (rev r)) k i o e3)
            end
        end
    end.
Proof.
  intros Hi. unfold Emplace, Emplace_with. unfold st_bind at 1. unfold Size, gets.
  unfold st_bind at 1. unfold Capacity, gets. cbn [enter this].
  rewrite rep_capacity. cbn [rep size_].
  rewrite bool_decide_false by lia.
  unfold EmplaceMove, EmplaceMove_with, begin_, GetAddress, ptr_add.
  cbn [base off Nat.add].
  unfold st_bind at 1. rewrite ptr_diff_begin.
  unfold st_bind at 1. unfold Size, gets. cbn [enter this rep size_].
  rewrite length_app. cbn [length]. replace (length xs0 + 1) with (S (length xs0)) by lia.
  rewrite bool_decide_true by lia.
  unfold st_bind at 1.
  pose proof (EmplaceMove_shift_eq xs0 l k i o e Hi) as Hs.
  rewrite Hs. clear Hs.
  destruct (T_move l e) as [[[y0|] l'] e1]; [|done].
  destruct (erase_list y0 (rev (drop i (xs0 ++ [l']))) e1) as [[ok r] e2] eqn:Hr.
  destruct ok; [|done].
  pose proof (erase_list_length _ _ _ _ _ _ Hr) as Hlen.
  rewrite length_rev, length_drop, length_app in Hlen. cbn [length] in Hlen.
  assert (length (take i (xs0 ++ [l'])) = i) as Hti
    by (rewrite length_take, length_app; simpl; lia).
  assert (length (tail (rev r)) = S (length xs0) - i) as Htl.
  { destruct (rev r) as [|g rr] eqn:Hrev.
    - apply (f_equal length) in Hrev. rewrite length_rev in Hrev. simpl in Hrev. lia.
    - apply (f_equal length) in Hrev. rewrite length_rev in Hrev. simpl in *. lia. }
  replace (S (length xs0)) with (i + length (tail (rev r))) at 1 by lia.
  rewrite (vacated_at _ _ _ _ _ _ Hti).
  pose proof (EmplaceMove_fill_eq args (take i (xs0 ++ [l']) ++ tail (rev r)) k i o
                (T_destroy (hd y0 (rev r)) e2)) as Hf.
  rewrite length_app, Hti, Htl in Hf.
  replace (i + (S (length xs0) - i) + 1) with (S (length xs0) + 1) in Hf by lia.
  rewrite Hf by lia. clear Hf.
  rewrite take_app_length', drop_app_length' by done. done.
Qed.

Lemma Emplace_in_place_empty_eq (args : Env T U → option T * Env T U) k o e :
  Emplace begin_ args (enter (rep [] (S k)) o e) =
    match args e with
    | (Some y, e') => (Ok (MkPtr Data 0), enter (rep [y] k) o e')
    | (None, e') => (Throw, enter (rep [] (S k)) o e')
    end.
Proof.
  unfold Emplace, Emplace_with. unfold st_bind at 1. unfold Size, gets.
  unfold st_bind at 1. unfold Capacity, gets. cbn [enter this].
  rewrite rep_capacity. cbn [rep size_ length].
  rewrite bool_decide_false by lia.
  unfold EmplaceMove, EmplaceMove_with, begin_, GetAddress.
  unfold st_bind at 1. rewrite ptr_diff_begin.
  unfold st_bind at 1. unfold Size, gets. cbn [this size_ length].
  unfold st_bind at 1. rewrite bool_decide_false by (intros Hn; by apply Hn).
  unfold st_ret at 1.
  pose proof (EmplaceMove_fill_eq args [] k 0 o e) as Hf.
  unfold vacated in Hf. cbn [take drop fmap list_fmap app length Nat.add] in Hf.
  unfold enter, rep. cbn [fmap list_fmap app length replicate Nat.add].
  unfold st_bind at 1 in Hf. unfold st_bind at 1.
  destruct (RawMemory_plus Data 0 _) as [[p| |] st1]; try (by apply Hf);
    by rewrite Hf by lia.
Qed.

(** X18: what the in-place path of [Emplace] makes of a non-empty vector,
    for an element type whose moves and move assignments transfer the
    value: the elements before the position, the new element, and the
    elements from the position on, except that the element that was last
    is left in the state in which the move constructor leaves its source
    (null for [unique_ptr], unchanged for [int]).  The vector is well
    formed and one element longer, the capacity is unchanged. *)
Theorem Emplace_in_place_moved_from (args : Env T U → option T * Env T U) xs0 l k i o e :
  moves_faithfully → move_assigns_faithfully → i ≤ S (length xs0) →
  match Emplace (begin_ +ₚ i) args (enter (rep (xs0 ++ [l]) (S k)) o e) with
  | (Ok p, st') =>
      p = MkPtr Data i ∧
      ∃ y e0, args e0 = (Some y, env st') ∧
           let xs' := xs0 ++ [(move_construct l (user e)).1.2] in
           this st' = rep (take i xs' ++ y :: drop i xs') k ∧
           at_ i st' = (Ok y, st')
  | (Throw, st') => size_ (this st') = S (length xs0)
  | (Undef, _) => False
  end ∧
  (nothrow ∨ nothrow_movable → constructs args →
   ∃ st', Emplace (begin_ +ₚ i) args (enter (rep (xs0 ++ [l]) (S k)) o e) =
            (Ok (MkPtr Data i), st')).
Proof.
  intros Hm Hf Hi. rewrite Emplace_in_place_general_eq by done.
  assert ((T_move l e).1.2 = (move_construct l (user e)).1.2) as Hl'.
  { unfold T_move. simpl. by destruct (move_construct l (user e)) as [[? ?] ?]. }
  assert ((∀ d s u, (move_assign (T:=T) (U:=U) d s u).1.1.1 = true) →
          (∀ x u, (move_construct (T:=T) (U:=U) x u).1.1 ≠ None) →
          constructs args →
          ∃ st', match T_move l e with
    | (None, l', e1) => (Throw, enter (rep (xs0 ++ [l']) (S k)) o e1)
    | (Some y0, l', e1) =>
        match erase_list y0 (rev (drop i (xs0 ++ [l']))) e1 with
        | (false, r, e2) =>
            (Throw, enter (rep (take i (xs0 ++ [l']) ++ rev (tail r)) (S k)) o
                      (T_destroy (hd y0 r) e2))
        | (true, r, e2) =>
            match args (T_destroy (hd y0 (rev r)) e2) with
            | (Some y, e3) =>
                (Ok (MkPtr Data i),
                 enter (rep (take i (xs0 ++ [l']) ++ y :: tail (rev r)) k) o e3)
            | (None, e3) =>
                (Throw, vacated (take i (xs0 ++ [l']) ++ tail (rev r)) k i o e3)
            end
        end
    end = (Ok (MkPtr Data i), st')) as Hreturns.
  { intros Hma Hmc Hargs.
    assert ((T_move l e).1.1 ≠ None) as Hy0.
    { unfold T_move. simpl. specialize (Hmc l (user e)).
      by destruct (move_construct l (user e)) as [[? ?] ?]. }
    destruct (T_move l e) as [[[y0|] l'] e1]; [|done].
    pose proof (erase_list_nothrow y0 (rev (drop i (xs0 ++ [l']))) e1 Hma) as Hok.
    destruct (erase_list y0 _ e1) as [[ok r] e2]. simpl in Hok. subst ok.
    specialize (Hargs (T_destroy (hd y0 (rev r)) e2)).
    destruct (args _) as [[y|] e3]; [eauto|done]. }
  split.
  - destruct (T_move l e) as [[[y0|] l'] e1] eqn:Hmv.
    2:{ cbn [enter this rep size_]. rewrite length_app. simpl. lia. }
    simpl in Hl'. subst l'. 
    set (xs' := xs0 ++ [(move_construct l (user e)).1.2]).
    assert (length xs' = S (length xs0)) as Hlen'
      by (unfold xs'; rewrite length_app; simpl; lia).
    destruct (erase_list y0 (rev (drop i xs')) e1) as [[ok r] e2] eqn:Hr.
    pose proof (erase_list_length _ _ _ _ _ _ Hr) as Hlen.
    rewrite length_rev, length_drop, Hlen' in Hlen.
    destruct ok.
    + apply erase_list_faithful in Hr as [z ->]; [|done].
      rewrite rev_app_distr, rev_involutive. cbn [rev app hd tail].
      destruct (args _) as [[y|] e3] eqn:Hargs.
      * split; [done|]. exists y. eexists. cbn [enter this env].
        split; [exact Hargs|]. split; [done|].
        apply (at_rep (take i xs' ++ y :: drop i xs') k); [done|].
        rewrite lookup_app_r by (rewrite length_take; lia).
        rewrite length_take, Nat.min_l by lia. by rewrite Nat.sub_diag.
      * unfold vacated. cbn [this size_]. rewrite length_app, length_take, length_drop. lia.
    + destruct r as [|h r']; [done|]. cbn [tail enter this rep size_].
      simpl in Hlen. rewrite length_app, length_take, length_rev. lia.
  - intros [Hn|Hn] Hargs; apply Hreturns; try done; apply Hn.
Qed.


(** X19: in the in-place path of [Emplace] on a non-empty vector, if the
    constructor of the new element throws, the exception leaves the vector
    with its old size, the elements from the position on already shifted
    one slot to the right, the former last element in its moved-from state
    and no object in the slot at the position: when the position is before
    [end()], a slot below the size holds no object.  Stated for an element
    type whose move operations do not throw and whose move assignment
    transfers the value. *)
Theorem Emplace_in_place_throw (args : Env T U → option T * Env T U) xs0 l k i o e :
  move_assigns_faithfully → nothrow ∨ nothrow_movable →
  i ≤ S (length xs0) → (∀ e0, (args e0).1 = None) →
  ∃ st', Emplace (begin_ +ₚ i) args (enter (rep (xs0 ++ [l]) (S k)) o e) = (Throw, st') ∧
    size_ (this st') = S (length xs0) ∧
    (let xs' := xs0 ++ [(move_construct l (user e)).1.2] in
     data_ (this st') =
       (Some <$> take i xs') ++ None :: (Some <$> drop i xs') ++ replicate k None) ∧
    (i < S (length xs0) → data_ (this st') !! i = Some None ∧ ¬ wf (this st')).
Proof.
  intros Hf Hn Hi Hargs. rewrite Emplace_in_place_general_eq by done.
  assert ((∀ d s u, (move_assign (T:=T) (U:=U) d s u).1.1.1 = true) ∧
          (∀ x u, (move_construct (T:=T) (U:=U) x u).1.1 ≠ None)) as [Hma Hmc]
    by (destruct Hn as [Hn|Hn]; split; apply Hn).
  assert ((T_move l e).1.1 ≠ None ∧ (T_move l e).1.2 = (move_construct l (user e)).1.2)
    as [Hy0 Hl'].
  { unfold T_move. simpl. specialize (Hmc l (user e)).
    by destruct (move_construct l (user e)) as [[? ?] ?]. }
  destruct (T_move l e) as [[[y0|] l'] e1]; [|done]. simpl in Hl'. subst l'.
  set (xs' := xs0 ++ [(move_construct l (user e)).1.2]).
  assert (length xs' = S (length xs0)) as Hlen'
    by (unfold xs'; rewrite length_app; simpl; lia).
  pose proof (erase_list_nothrow y0 (rev (drop i xs')) e1 Hma) as Hok.
  destruct (erase_list y0 (rev (drop i xs')) e1) as [[ok r] e2] eqn:Hr.
  simpl in Hok. subst ok.
  apply erase_list_faithful in Hr as [z ->]; [|done].
  rewrite rev_app_distr, rev_involutive. cbn [rev app hd tail].
  specialize (Hargs (T_destroy z e2)).
  destruct (args (T_destroy z e2)) as [[y|] e3]; [done|].
  eexists. split; [done|]. unfold vacated. cbn [this data_ size_].
  assert (length (take i xs') = i) as Hti by (rewrite length_take; lia).
  rewrite take_app_length', drop_app_length' by done.
  split; [rewrite length_app, length_take, length_drop; lia|].
  split; [done|].
  intros Hlt.
  assert (((Some <$> take i xs') ++ None :: (Some <$> drop i xs') ++ replicate k None)
            !! i = Some (@None T)) as Hslot.
  { rewrite lookup_app_r by (rewrite length_fmap; lia).
    rewrite length_fmap, Hti. by rewrite Nat.sub_diag. }
  split; [done|]. intros (ys & sp & Hv).
  injection Hv as Hd Hs. rewrite Hd in Hslot.
  rewrite length_app, length_take, length_drop in Hs.
  rewrite lookup_app_l in Hslot by (rewrite length_fmap; lia).
  rewrite list_lookup_fmap in Hslot. by destruct (ys !! i).
Qed.

End InPlaceGeneral.

(** ** The representation invariant *)

Section Invariant.
Context {T U : Type} `{!Element T U}.
Implicit Types (st : frame T U) (e : Env T U) (o v : Vector T).
Implicit Types (xs ys zs : list T) (m : machine (T:=T) (U:=U)).

Lemma wf_rep xs k : wf (rep xs k : Vector T).
Proof. by exists xs, k. Qed.

Lemma all_wf_insert a v m e :
  all_wf m → wf v → all_wf (MkMachine (<[a := v]> (objs m)) e).
Proof.
  intros Hm Hv b w. cbn [objs]. rewrite lookup_insert.
  case_decide; [by intros [= <-]|]. apply Hm.
Qed.

Lemma all_wf_world m e : all_wf m → all_wf (MkMachine (objs m) e).
Proof. intros Hm b w. apply Hm. Qed.

Lemma all_wf_delete a m e : all_wf m → all_wf (MkMachine (delete a (objs m)) e).
Proof.
  intros Hm b w. cbn [objs]. rewrite lookup_delete.
  case_decide; [done|]. apply Hm.
Qed.

Lemma method_all_wf {A} a arg (body : St (frame T U) A) (b : bool) (pre : Vector T → Prop) m :
  (∀ xs k e, pre (rep xs k) →
     match body (enter (rep xs k) arg e) with
     | (Ok _, st') => wf (this st')
     | (Throw, st') => b = true → wf (this st')
     | (Undef, _) => True
     end) →
  (∀ v, objs m !! a = Some v → pre v) →
  all_wf m →
  match method a arg body m with
  | (Ok _, m') => all_wf m'
  | (Throw, m') => b = true → all_wf m'
  | (Undef, _) => True
  end.
Proof.
  intros Hbody Hpre Hm. unfold method.
  destruct (objs m !! a) as [v|] eqn:Ha; [|done].
  destruct (Hm a v Ha) as (xs & k & ->).
  specialize (Hbody xs k (world m) (Hpre _ eq_refl)). unfold enter in Hbody.
  destruct (body _) as [[r| |] st']; [| |done].
  - by apply all_wf_insert.
  - intros Hb. by apply all_wf_insert, Hbody.
Qed.

Lemma constructor_all_wf a arg (body : St (frame T U) unit) m :
  match body (MkFrame (MkVector [] 0) [] arg (world m)) with
  | (Ok _, st') => wf (this st')
  | _ => True
  end →
  all_wf m →
  match constructor a arg body m with
  | (Undef, _) => True
  | (_, m') => all_wf m'
  end.
Proof.
  intros Hbody Hm. unfold constructor.
  destruct (body _) as [[r| |] st']; [|by apply all_wf_world|done].
  by apply all_wf_insert.
Qed.

Lemma Swap_all_wf a b m :
  all_wf m →
  match Swap a b m with
  | (Ok _, m') => all_wf m'
  | (Throw, _) => False
  | (Undef, _) => True
  end.
Proof.
  intros Hm. destruct (objs m !! a) as [va|] eqn:Ha.
  - destruct (objs m !! b) as [vb|] eqn:Hb.
    + rewrite (Swap_eq a b va vb m Ha Hb).
      intros c w. cbn [objs]. rewrite !lookup_insert.
      repeat case_decide; [intros [= <-]; eauto..|apply Hm].
    + unfold Swap, st_bind, obj. by rewrite Ha, Hb.
  - unfold Swap, st_bind, obj. by rewrite Ha.
Qed.

Lemma Reserve_wf n xs k o e :
  match Reserve n (enter (rep xs k) o e) with
  | (Undef, _) => True
  | (_, st') => wf (this st')
  end.
Proof.
  rewrite Reserve_eq. case_bool_decide; [apply wf_rep|].
  destruct (can_allocate _ _); [|apply wf_rep].
  destruct (transfer_list xs e) as [[[ys|] old] e1]; apply wf_rep.
Qed.

Lemma Resize_wf n xs k o e :
  match Resize n (enter (rep xs k) o e) with
  | (Undef, _) => True
  | (_, st') => wf (this st')
  end.
Proof.
  rewrite Resize_eq. case_bool_decide; [apply wf_rep|].
  case_bool_decide.
  - destruct (value_list _ _) as [[ds|] e']; apply wf_rep.
  - destruct (can_allocate _ _); [|apply wf_rep].
    destruct (transfer_list xs e) as [[[ys|] old] e1]; [|apply wf_rep].
    destruct (value_list _ _) as [[ds|] e']; apply wf_rep.
Qed.

Lemma EmplaceBack_wf (args : Env T U → option T * Env T U) xs k o e :
  match EmplaceBack args (enter (rep xs k) o e) with
  | (Undef, _) => True
  | (_, st') => wf (this st')
  end.
Proof.
  rewrite EmplaceBack_eq. case_bool_decide.
  - destruct (can_allocate _ _); [|apply wf_rep].
    destruct (args e) as [[y|] e1]; [|apply wf_rep].
    destruct (transfer_list xs e1) as [[[ys|] old] e2]; apply wf_rep.
  - destruct (args e) as [[y|] e1]; apply wf_rep.
Qed.

Lemma PopBack_wf xs k o e :
  match PopBack (enter (rep xs k) o e) with
  | (Ok _, st') => wf (this st')
  | (Throw, _) => False
  | (Undef, _) => True
  end.
Proof.
  destruct xs as [|x xs _] using rev_ind; [done|].
  rewrite PopBack_eq. apply wf_rep.
Qed.

Lemma Erase_wf xs k i o e :
  match Erase (begin_ +ₚ i) (enter (rep xs k) o e) with
  | (Undef, _) => True
  | (_, st') => wf (this st')
  end.
Proof.
  destruct (xs !! i) as [d|] eqn:Hd.
  - rewrite (Erase_at xs k i d o e Hd).
    destruct (erase_list _ _ _) as [[[] r] e']; apply wf_rep.
  - apply lookup_ge_None in Hd.
    pose proof (Erase_out_of_range xs k i o e Hd) as Hu.
    by destruct (Erase _ _) as [[p| |] st'].
Qed.

Lemma Emplace_wf (args : Env T U → option T * Env T U) xs k i o e :
  i ≤ length xs →
  match Emplace (begin_ +ₚ i) args (enter (rep xs k) o e) with
  | (Ok _, st') => wf (this st')
  | _ => True
  end.
Proof.
  intros Hi. destruct k as [|k].
  - rewrite Emplace_full, EmplaceRealloc_at by done.
    destruct (can_allocate _ _); [|done].
    destruct (args e) as [[y|] e1]; [|done].
    destruct (transfer_list (take i xs) e1) as [[[ys1|] old1] e2]; [|done].
    destruct (transfer_list (drop i xs) e2) as [[[ys2|] old2] e3]; [|done].
    apply wf_rep.
  - destruct xs as [|l xs0 _] using rev_ind.
    + simpl in Hi. assert (i = 0) as -> by lia.
      change (begin_ +ₚ 0) with begin_. rewrite Emplace_in_place_empty_eq.
      destruct (args e) as [[y|] e1]; [apply wf_rep|done].
    + rewrite length_app in Hi. simpl in Hi.
      rewrite Emplace_in_place_general_eq by lia.
      destruct (T_move l e) as [[[y0|] l'] e1]; [|done].
      destruct (erase_list _ _ _) as [[[] r] e2]; [|done].
      destruct (args _) as [[y|] e3]; [apply wf_rep|done].
Qed.

Lemma assign_from_other_wf xs k rs rk e :
  match assign_from_other (enter (rep xs k) (rep rs rk) e) with
  | (Ok _, st') => wf (this st')
  | _ => True
  end.
Proof.
  rewrite assign_from_other_eq. case_bool_decide.
  - destruct (can_allocate _ _); [|done].
    destruct (copy_list rs e) as [[cs|] e']; [apply wf_rep|done].
  - case_bool_decide.
    + destruct (assign_list _ _ _ _) as [[[] ds] e']; [apply wf_rep|done].
    + destruct (copy_list _ _) as [[cs|] e1]; [|done].
      destruct (assign_list _ _ _ _) as [[[] ds] e2]; [apply wf_rep|done].
Qed.

Lemma bind_ret_wf {A} (body : St (frame T U) A) st (b : bool) :
  match body st with
  | (Ok _, st') => wf (this st')
  | (Throw, st') => b = true → wf (this st')
  | (Undef, _) => True
  end →
  match (body ;;; st_ret tt) st with
  | (Ok _, st') => wf (this st')
  | (Throw, st') => b = true → wf (this st')
  | (Undef, _) => True
  end.
Proof. unfold st_bind, st_ret. by destruct (body st) as [[r| |] st']. Qed.

(** X20: the representation invariant.  If every vector of a program is
    well formed (the slots below the size hold live objects, the slots from
    the size to the capacity are uninitialised), then so is every vector
    after any call of the interface that returns, for every element type;
    [Emplace] is to be given a position within [[begin(), end()]], and
    [Vector(n)], [Reserve(n)] and [Resize(n)] a number [n] whose byte count
    [n * sizeof(T)] is within [size_t].  The calls other than [Emplace] and
    copy assignment keep the invariant also when they throw. *)
Theorem wf_preserved c m :
  all_wf m → in_contract c m → request_fits c →
  match exec c m with
  | (Ok _, m') => all_wf m'
  | (Throw, m') => keeps_on_throw c = true → all_wf m'
  | (Undef, _) => True
  end.
Proof.
  intros Hm Hc _. destruct c; cbn [exec keeps_on_throw].
  - (* Vector() *)
    pose proof (constructor_all_wf a nobody Vector_default m) as Hk.
    destruct (constructor _ _ _ _) as [[r| |] m']; try done; intros; apply Hk; try done;
      apply (wf_rep [] 0).
  - (* Vector(n) *)
    pose proof (constructor_all_wf a nobody (Vector_sized n) m) as Hk.
    rewrite Vector_sized_eq in Hk.
    assert (match
              (if bool_decide (n ≠ 0) && negb (can_allocate n (user (world m)))
               then (Throw, MkFrame (MkVector [] 0) [] nobody (world m))
               else
                 match value_list n (world m) with
                 | (Some ds, e') => (Ok tt, MkFrame (rep ds 0) [] nobody e')
                 | (None, e') =>
                     (Throw, MkFrame (MkVector (replicate n None) n) [] nobody e')
                 end)
            with
            | (Ok _, st') => wf (this st')
            | _ => True
            end) as Hb.
    { destruct (_ && _); [done|].
      destruct (value_list n (world m)) as [[ds|] e']; [apply wf_rep|done]. }
    specialize (Hk Hb Hm).
    destruct (constructor _ _ _ _) as [[r| |] m']; done.
  - (* Vector(const Vector&) *)
    unfold st_bind, obj. destruct (objs m !! b) as [vb|] eqn:Hb; [|done].
    destruct (Hm b vb Hb) as (rs & rk & ->).
    pose proof (constructor_all_wf a (rep rs rk) Vector_copy m) as Hk.
    rewrite Vector_copy_eq in Hk.
    assert (match
              (if bool_decide (length rs ≠ 0) &&
                  negb (can_allocate (length rs) (user (world m)))
               then (Throw, MkFrame (MkVector [] 0) [] (rep rs rk) (world m))
               else
                 match copy_list rs (world m) with
                 | (Some cs, e') => (Ok tt, MkFrame (rep cs 0) [] (rep rs rk) e')
                 | (None, e') =>
                     (Throw, MkFrame (MkVector (replicate (length rs) None) (length rs))
                               [] (rep rs rk) e')
                 end)
            with
            | (Ok _, st') => wf (this st')
            | _ => True
            end) as Hbody.
    { destruct (_ && _); [done|].
      destruct (copy_list rs (world m)) as [[cs|] e']; [apply wf_rep|done]. }
    specialize (Hk Hbody Hm).
    destruct (constructor _ _ _ _) as [[r| |] m']; done.
  - (* Vector(Vector&&) *)
    unfold Vector_move, st_bind.
    pose proof (constructor_all_wf a (MkVector [] 0) Vector_default m
                  (wf_rep [] 0) Hm) as Hk.
    destruct (constructor _ _ _ _) as [[r| |] m1]; [|by intros _|done].
    pose proof (Swap_all_wf a b m1 Hk) as Hs.
    destruct (Swap a b m1) as [[r'| |] m']; done.
  - (* operator=(const Vector&) *)
    unfold Vector_assign, st_bind, obj.
    destruct (objs m !! a) as [va|] eqn:Ha; [|done].
    destruct (objs m !! b) as [vb|] eqn:Hb; [|done].
    case_bool_decide; [|done].
    destruct (Hm b vb Hb) as (rs & rk & ->).
    pose proof (method_all_wf a (rep rs rk) assign_from_other false (λ _, True) m) as Hk.
    destruct (method _ _ _ _) as [[r| |] m']; try done. apply Hk; try done.
    intros xs k e _. pose proof (assign_from_other_wf xs k rs rk e) as Hw.
    by destruct (assign_from_other _) as [[r'| |] st'].
  - (* operator=(Vector&&) *)
    pose proof (Swap_all_wf a b m Hm) as Hs. unfold Vector_move_assign.
    destruct (Swap a b m) as [[r'| |] m']; done.
  - (* Swap *)
    pose proof (Swap_all_wf a b m Hm) as Hs.
    destruct (Swap a b m) as [[r'| |] m']; done.
  - (* ~Vector() *)
    unfold Vector_delete, st_bind, method, modify.
    destruct (objs m !! a) as [va|] eqn:Ha; [|done].
    destruct (Hm a va Ha) as (xs & k & ->).
    rewrite Vector_destructor_eq. cbn [this env objs world].
    rewrite delete_insert_eq. by apply all_wf_delete.
  - (* Reserve *)
    apply (method_all_wf a nobody (Reserve n) true (λ _, True)); try done.
    intros xs k e _. pose proof (Reserve_wf n xs k nobody e) as Hw.
    by destruct (Reserve _ _) as [[r'| |] st'].
  - (* Resize *)
    apply (method_all_wf a nobody (Resize n) true (λ _, True)); try done.
    intros xs k e _. pose proof (Resize_wf n xs k nobody e) as Hw.
    by destruct (Resize _ _) as [[r'| |] st'].
  - (* EmplaceBack *)
    apply (method_all_wf a nobody (EmplaceBack args ;;; st_ret tt) true (λ _, True));
      try done.
    intros xs k e _. apply bind_ret_wf.
    pose proof (EmplaceBack_wf args xs k nobody e) as Hw.
    by destruct (EmplaceBack _ _) as [[r'| |] st'].
  - (* PopBack *)
    apply (method_all_wf a nobody PopBack true (λ _, True)); try done.
    intros xs k e _. pose proof (PopBack_wf xs k nobody e) as Hw.
    by destruct (PopBack _) as [[r'| |] st'].
  - (* Emplace *)
    pose proof (method_all_wf a nobody (Emplace (begin_ +ₚ index) args ;;; st_ret tt)
                  false (λ v, index ≤ size_ v) m) as Hk.
    destruct (method _ _ _ _) as [[r| |] m']; try done. apply Hk; try done.
    intros xs k e Hi. apply bind_ret_wf. cbn [rep size_] in Hi.
    pose proof (Emplace_wf args xs k index nobody e Hi) as Hw.
    by destruct (Emplace _ _ _) as [[r'| |] st'].
  - (* Erase *)
    apply (method_all_wf a nobody (Erase (begin_ +ₚ index) ;;; st_ret tt) true
             (λ _, True)); try done.
    intros xs k e _. apply bind_ret_wf.
    pose proof (Erase_wf xs k index nobody e) as Hw.
    by destruct (Erase _ _) as [[r'| |] st'].
Qed.

End Invariant.

(** ** The capacity never decreases *)

Section Capacity.
Context {T U : Type} `{!Element T U}.
Implicit Types (st : frame T U) (e : Env T U) (o v : Vector T).
Implicit Types (xs ys zs : list T) (m : machine (T:=T) (U:=U)).

Ltac cap_tac :=
  unfold capacity, enter, vacated; cbn [this data_]; rewrite ?rep_capacity;
  repeat first
    [ rewrite length_app | rewrite length_fmap | rewrite length_replicate
    | rewrite length_take | rewrite length_drop | rewrite length_rev
    | progress cbn [length] ];
  lia.

Lemma transfer_list_lengths xs e r old e' :
  transfer_list xs e = (r, old, e') →
  length old = length xs ∧ match r with Some ys => length ys = length xs | None => True end.
Proof.
  intros Ht. apply transfer_list_length in Ht as [Ho Hr]. split; [done|].
  destruct r; [by apply Hr|done].
Qed.

Lemma Reserve_capacity n xs k o e :
  match Reserve n (enter (rep xs k) o e) with
  | (Undef, _) => True
  | (_, st') => capacity (rep xs k) ≤ capacity (this st')
  end.
Proof.
  rewrite Reserve_eq. case_bool_decide; [cap_tac|].
  destruct (can_allocate _ _); [|cap_tac].
  destruct (transfer_list xs e) as [[r old] e1] eqn:Ht.
  apply transfer_list_lengths in Ht as [Ho Hr]. destruct r as [ys|]; cap_tac.
Qed.

Lemma Resize_capacity n xs k o e :
  match Resize n (enter (rep xs k) o e) with
  | (Undef, _) => True
  | (_, st') => capacity (rep xs k) ≤ capacity (this st')
  end.
Proof.
  rewrite Resize_eq. case_bool_decide; [cap_tac|].
  case_bool_decide.
  - destruct (value_list _ _) as [[ds|] e'] eqn:Hv; [|cap_tac].
    apply value_list_length in Hv. cap_tac.
  - destruct (can_allocate _ _); [|cap_tac].
    destruct (transfer_list xs e) as [[r old] e1] eqn:Ht.
    apply transfer_list_lengths in Ht as [Ho Hr]. destruct r as [ys|]; [|cap_tac].
    destruct (value_list _ _) as [[ds|] e'] eqn:Hv; [|cap_tac].
    apply value_list_length in Hv. cap_tac.
Qed.

Lemma EmplaceBack_capacity (args : Env T U → option T * Env T U) xs k o e :
  match EmplaceBack args (enter (rep xs k) o e) with
  | (Undef, _) => True
  | (_, st') => capacity (rep xs k) ≤ capacity (this st')
  end.
Proof.
  rewrite EmplaceBack_eq. pose proof (grown_gt (length xs)) as Hg. case_bool_decide.
  - destruct (can_allocate _ _); [|cap_tac].
    destruct (args e) as [[y|] e1]; [|cap_tac].
    destruct (transfer_list xs e1) as [[r old] e2] eqn:Ht.
    apply transfer_list_lengths in Ht as [Ho Hr]. destruct r as [ys|]; cap_tac.
  - destruct (args e) as [[y|] e1]; cap_tac.
Qed.

Lemma PopBack_capacity xs k o e :
  match PopBack (enter (rep xs k) o e) with
  | (Undef, _) => True
  | (_, st') => capacity (rep xs k) ≤ capacity (this st')
  end.
Proof.
  destruct xs as [|x xs _] using rev_ind; [done|].
  rewrite PopBack_eq. cap_tac.
Qed.

Lemma Erase_capacity xs k i o e :
  match Erase (begin_ +ₚ i) (enter (rep xs k) o e) with
  | (Undef, _) => True
  | (_, st') => capacity (rep xs k) ≤ capacity (this st')
  end.
Proof.
  destruct (xs !! i) as [d|] eqn:Hd.
  - rewrite (Erase_at xs k i d o e Hd). pose proof (lookup_lt_Some _ _ _ Hd) as Hi.
    destruct (erase_list _ _ _) as [[ok r] e'] eqn:Hr.
    apply erase_list_nonempty in Hr as (h & r' & -> & Hlen).
    rewrite length_drop in Hlen.
    destruct ok.
    + destruct (exists_last (l:=h :: r')) as (r0 & z & Heq); [done|].
      rewrite Heq, removelast_last.
      apply (f_equal length) in Heq. rewrite length_app in Heq. simpl in Heq.
      cap_tac.
    + cap_tac.
  - apply lookup_ge_None in Hd.
    pose proof (Erase_out_of_range xs k i o e Hd) as Hu.
    by destruct (Erase _ _) as [[p| |] st'].
Qed.

Lemma Emplace_capacity (args : Env T U → option T * Env T U) xs k i o e :
  i ≤ length xs →
  match Emplace (begin_ +ₚ i) args (enter (rep xs k) o e) with
  | (Undef, _) => True
  | (_, st') => capacity (rep xs k) ≤ capacity (this st')
  end.
Proof.
  intros Hi. pose proof (grown_gt (length xs)) as Hg. destruct k as [|k].
  - rewrite Emplace_full, EmplaceRealloc_at by done.
    destruct (can_allocate _ _); [|cap_tac].
    destruct (args e) as [[y|] e1]; [|cap_tac].
    destruct (transfer_list (take i xs) e1) as [[r1 old1] e2] eqn:Ht1.
    apply transfer_list_lengths in Ht1 as [Ho1 Hr1]. rewrite length_take in Ho1, Hr1.
    destruct r1 as [ys1|]; [|cap_tac].
    destruct (transfer_list (drop i xs) e2) as [[r2 old2] e3] eqn:Ht2.
    apply transfer_list_lengths in Ht2 as [Ho2 Hr2]. rewrite length_drop in Ho2, Hr2.
    destruct r2 as [ys2|]; cap_tac.
  - destruct xs as [|l xs0 _] using rev_ind.
    + simpl in Hi. assert (i = 0) as -> by lia.
      change (begin_ +ₚ 0) with begin_. rewrite Emplace_in_place_empty_eq.
      destruct (args e) as [[y|] e1]; cap_tac.
    + rewrite length_app in Hi. simpl in Hi.
      rewrite Emplace_in_place_general_eq by lia.
      destruct (T_move l e) as [[[y0|] l'] e1]; [|cap_tac].
      destruct (erase_list _ _ _) as [[ok r] e2] eqn:Hr.
      apply erase_list_nonempty in Hr as (h & r' & -> & Hlen).
      rewrite length_rev, length_drop, length_app in Hlen. simpl in Hlen.
      destruct ok; [|cbn [tail]; cap_tac].
      assert (length (tail (rev (h :: r'))) = length r') as Htl.
      { destruct (rev (h :: r')) as [|g rr] eqn:Hrev;
          apply (f_equal length) in Hrev; rewrite length_rev in Hrev; simpl in *; lia. }
      destruct (args _) as [[y|] e3]; cap_tac.
Qed.

Lemma assign_from_other_capacity xs k rs rk e :
  match assign_from_other (enter (rep xs k) (rep rs rk) e) with
  | (Undef, _) => True
  | (_, st') => capacity (rep xs k) ≤ capacity (this st')
  end.
Proof.
  rewrite assign_from_other_eq. case_bool_decide.
  - destruct (can_allocate _ _); [|cap_tac].
    destruct (copy_list rs e) as [[cs|] e'] eqn:Hc; [|cap_tac].
    apply copy_list_length in Hc. cap_tac.
  - case_bool_decide.
    + destruct (assign_list _ _ _ _) as [[ok ds] e'] eqn:Hd.
      apply assign_list_length in Hd. rewrite length_take in Hd. simpl in Hd.
      destruct ok; cap_tac.
    + destruct (copy_list _ _) as [[cs|] e1] eqn:Hc; [|cap_tac].
      apply copy_list_length in Hc. rewrite length_drop in Hc.
      destruct (assign_list _ _ _ _) as [[ok ds] e2] eqn:Hd.
      apply assign_list_length in Hd. simpl in Hd.
      destruct ok; cap_tac.
Qed.

Lemma method_capacity {A} a0 arg (body : St (frame T U) A) (pre : Vector T → Prop) m a v :
  (∀ xs k e, pre (rep xs k) →
     match body (enter (rep xs k) arg e) with
     | (Undef, _) => True
     | (_, st') => capacity (rep xs k) ≤ capacity (this st')
     end) →
  (∀ v0, objs m !! a0 = Some v0 → pre v0) →
  all_wf m → objs m !! a = Some v →
  match method a0 arg body m with
  | (Undef, _) => True
  | (_, m') => ∃ v', objs m' !! a = Some v' ∧ capacity v ≤ capacity v'
  end.
Proof.
  intros Hbody Hpre Hm Ha. unfold method.
  destruct (objs m !! a0) as [v0|] eqn:Ha0; [|done].
  destruct (Hm a0 v0 Ha0) as (xs & k & ->).
  specialize (Hbody xs k (world m) (Hpre _ eq_refl)). unfold enter in Hbody.
  assert (∀ st' : frame T U, capacity (rep xs k) ≤ capacity (this st') →
            ∃ v', <[a0:=this st']> (objs m) !! a = Some v' ∧ capacity v ≤ capacity v')
    as Hput.
  { intros st' Hcap. rewrite lookup_insert. case_decide as Heq.
    - subst a0. rewrite Ha0 in Ha. injection Ha as <-. eauto.
    - eauto. }
  destruct (body _) as [[r| |] st']; cbn [objs]; eauto.
Qed.

Lemma bind_ret_capacity {A} (body : St (frame T U) A) st (c : nat) :
  match body st with
  | (Undef, _) => True
  | (_, st') => c ≤ capacity (this st')
  end →
  match (body ;;; st_ret tt) st with
  | (Undef, _) => True
  | (_, st') => c ≤ capacity (this st')
  end.
Proof. unfold st_bind, st_ret. by destruct (body st) as [[r| |] st']. Qed.

(** X21: no call of [Reserve], [Resize], [EmplaceBack], [PopBack],
    [Emplace], [Erase] or copy assignment ever lowers the capacity of a
    vector or releases it, whether the call returns or throws: storage is
    only replaced by larger storage.  In particular [Resize(0)] and
    [PopBack] keep the capacity. *)
Theorem capacity_never_shrinks c m a v :
  all_wf m → in_contract c m → keeps_storage c = true →
  objs m !! a = Some v →
  match exec c m with
  | (Undef, _) => True
  | (_, m') => ∃ v', objs m' !! a = Some v' ∧ capacity v ≤ capacity v'
  end.
Proof.
  intros Hm Hc Hk Ha. destruct c; try discriminate Hk; cbn [exec].
  - (* operator=(const Vector&) *)
    unfold Vector_assign, st_bind, obj.
    destruct (objs m !! a0) as [va|] eqn:Ha0; [|done].
    destruct (objs m !! b) as [vb|] eqn:Hb; [|done].
    case_bool_decide; [|by unfold st_ret; eauto].
    destruct (Hm b vb Hb) as (rs & rk & ->).
    apply (method_capacity a0 (rep rs rk) assign_from_other (λ _, True)); try done.
    intros xs k e _. apply assign_from_other_capacity.
  - apply (method_capacity a0 nobody (Reserve n) (λ _, True)); try done.
    intros xs k e _. apply Reserve_capacity.
  - apply (method_capacity a0 nobody (Resize n) (λ _, True)); try done.
    intros xs k e _. apply Resize_capacity.
  - apply (method_capacity a0 nobody (EmplaceBack args ;;; st_ret tt) (λ _, True));
      try done.
    intros xs k e _. apply bind_ret_capacity, EmplaceBack_capacity.
  - apply (method_capacity a0 nobody PopBack (λ _, True)); try done.
    intros xs k e _. apply PopBack_capacity.
  - apply (method_capacity a0 nobody (Emplace (begin_ +ₚ index) args ;;; st_ret tt)
             (λ v0, index ≤ size_ v0)); try done.
    intros xs k e Hi. apply bind_ret_capacity, Emplace_capacity. exact Hi.
  - apply (method_capacity a0 nobody (Erase (begin_ +ₚ index) ;;; st_ret tt)
             (λ _, True)); try done.
    intros xs k e _. apply bind_ret_capacity, Erase_capacity.
Qed.

End Capacity.

(** ** What a failure leaves behind *)

Section Failures.
Context {T U : Type} `{!Element T U}.
Implicit Types (st : frame T U) (e : Env T U) (o v : Vector T).
Implicit Types (xs ys zs cs : list T).

Lemma transfer_list_copy xs e :
  moves_on_realloc = false →
  transfer_list xs e = let '(r, e') := copy_list xs e in (r, xs, e').
Proof. intros Hp. unfold transfer_list. by rewrite Hp. Qed.

(** X22: when [Resize] throws, the elements and the size are what they were,
    for an element type whose copies and moves preserve the value and
    whose transfer is protected; the capacity is either unchanged or
    already raised to the requested size. *)
Theorem Resize_throw_keeps_elements n xs k o e st' :
  copies_faithfully → moves_faithfully → transfer_protected →
  Resize n (enter (rep xs k) o e) = (Throw, st') →
  length xs < n ∧
  (this st' = rep xs k ∨
   (capacity (rep xs k) < n ∧ this st' = rep xs (n - length xs))).
Proof.
  intros Hc Hm Hp. rewrite Resize_eq. unfold capacity. rewrite rep_capacity.
  assert (∀ j e0 e', value_list (T:=T) (U:=U) j e0 = (None, e') → 0 < j) as Hpos
    by (intros [|j] e0 e' Hv; [done|lia]).
  case_bool_decide as Hn; [done|].
  case_bool_decide as Hcap.
  - destruct (value_list _ _) as [[ds|] e'] eqn:Hv; [done|]. intros [= <-].
    apply Hpos in Hv. split; [lia|]. by left.
  - destruct (can_allocate _ _); [|intros [= <-]; split; [lia|by left]].
    destruct (transfer_list xs e) as [[[ys|] old] e1] eqn:Ht.
    + apply transfer_list_faithful in Ht as ->; [|done..].
      destruct (value_list _ _) as [[ds|] e2]; [done|]. intros [= <-].
      split; [lia|]. right. split; [lia|done].
    + apply transfer_list_protected in Ht as [_ ->]; [|done].
      intros [= <-]. split; [lia|by left].
Qed.

(** X23: a growing [EmplaceBack] on an element type that is relocated by
    copy constructs the new element first; if a copy of an old element then
    throws, the copies made so far are destroyed and the vector is as it
    was, but the new element is never destroyed: after the call of its
    constructor there are [j + 1] copy constructor calls and [j] destructor
    calls, those of the [j] copies. *)
Theorem EmplaceBack_throw_in_transfer (args : Env T U → option T * Env T U)
    xs o e y e1 st' :
  moves_on_realloc = false →
  can_allocate (grown (length xs)) (user e) = true →
  args e = (Some y, e1) →
  EmplaceBack args (enter (rep xs 0) o e) = (Throw, st') →
  this st' = rep xs 0 ∧
  ∃ j ys, j < length xs ∧ length ys = j ∧
    trace (env st') = trace e1 ++ (EvCopy <$> take (S j) xs) ++ (EvDestroy <$> ys) ∧
    (copies_faithfully → ys = take j xs).
Proof.
  intros Hp Ha Hy. rewrite EmplaceBack_eq, bool_decide_true, Ha, Hy by done.
  rewrite (transfer_list_copy xs e1 Hp).
  destruct (copy_list xs e1) as [[cs|] e2] eqn:Hcs; [done|].
  intros [= <-]. cbn [enter this env]. split; [done|].
  by apply trace_build_copy_fail in Hcs.
Qed.

(** X24: [Emplace] on a full vector of an element type that is relocated by
    copy constructs the new element first.  If a copy of an element before
    the position throws, the copies made and the new element are destroyed;
    if a copy of an element from the position on throws, the copies made
    are destroyed but the new element is not.  In both cases the vector is
    as it was. *)
Theorem Emplace_full_throw_cleanup (args : Env T U → option T * Env T U) xs i o e y e1 :
  moves_on_realloc = false →
  can_allocate (grown (length xs)) (user e) = true →
  args e = (Some y, e1) → i ≤ length xs →
  match Emplace (begin_ +ₚ i) args (enter (rep xs 0) o e) with
  | (Throw, st') =>
      this st' = rep xs 0 ∧
      ((∃ j ys, j < i ∧ length ys = j ∧
          trace (env st') =
            trace e1 ++ (EvCopy <$> take (S j) xs) ++ (EvDestroy <$> ys) ++
            [EvDestroy y]) ∨
       (∃ cs j ys, length cs = i ∧ i + j < length xs ∧ length ys = j ∧
          trace (env st') =
            trace e1 ++ (EvCopy <$> take i xs) ++ (EvCopy <$> take (S j) (drop i xs)) ++
            (EvDestroy <$> ys) ++ (EvDestroy <$> cs)))
  | _ => True
  end.
Proof.
  intros Hp Ha Hy Hi. rewrite Emplace_full, EmplaceRealloc_at, Ha, Hy by done.
  rewrite (transfer_list_copy (take i xs) e1 Hp).
  destruct (copy_list (take i xs) e1) as [[cs|] e2] eqn:Hcs.
  - rewrite (transfer_list_copy (drop i xs) e2 Hp).
    destruct (copy_list (drop i xs) e2) as [[cs2|] e3] eqn:Hcs2; [done|].
    rewrite Hp, take_drop. cbn [enter this env]. split; [done|]. right.
    pose proof (trace_build_copy _ _ _ _ _ Hcs) as Htr1.
    pose proof (copy_list_length _ _ _ _ Hcs) as Hlen1.
    rewrite length_take in Hlen1.
    apply trace_build_copy_fail in Hcs2 as (j & ys & Hj & Hlen & Htr & _).
    rewrite length_drop in Hj.
    exists cs, j, ys. split; [lia|]. split; [lia|]. split; [done|].
    rewrite trace_destroy_list, Htr, Htr1. simpl. by rewrite <- !app_assoc.
  - rewrite Hp, take_drop. cbn [enter this env]. split; [done|]. left.
    apply trace_build_copy_fail in Hcs as (j & ys & Hj & Hlen & Htr & _).
    rewrite length_take in Hj.
    exists j, ys. split; [lia|]. split; [done|].
    unfold T_destroy, record. cbn [trace user]. rewrite Htr. simpl.
    rewrite take_take, Nat.min_l by lia. by rewrite <- !app_assoc.
Qed.

End Failures.

(** ** The further properties on concrete vectors *)

Lemma ptr_copies_faithfully : copies_faithfully (T:=option nat) (U:=unit).
Proof. intros x u y u' [=]. Qed.

Lemma ptr_moves_faithfully : moves_faithfully (T:=option nat) (U:=unit).
Proof. intros x u y x' u' [= <- _ _]. done. Qed.

Lemma ptr_move_assigns_faithfully : move_assigns_faithfully (T:=option nat) (U:=unit).
Proof. intros d s u d' s' u' [= <- _ _]. done. Qed.

Lemma ptr_nothrow_movable : nothrow_movable (T:=option nat) (U:=unit).
Proof. repeat split; done. Qed.

Lemma int_move_assigns_faithfully : move_assigns_faithfully (T:=nat) (U:=unit).
Proof. intros d s u d' s' u' [= <- _ _]. done. Qed.

Lemma fragile_copies_faithfully : copies_faithfully (T:=nat) (U:=nat).
Proof. intros x [|b] y u' [= <- _]. done. Qed.

Lemma fragile_moves_faithfully : moves_faithfully (T:=nat) (U:=nat).
Proof. intros x [|b] y x' u' [= <- _ _]. done. Qed.

Lemma two_vectors_wf : all_wf two_vectors.
Proof.
  intros a v. unfold two_vectors. cbn [objs]. rewrite !lookup_insert.
  repeat case_decide; [intros [= <-]; by eexists _, _..|by rewrite lookup_empty].
Qed.

Lemma Erase_removes_one_witness :
  move_assigns_faithfully (T:=option nat) (U:=unit) ∧
  ∃ st', Erase (begin_ +ₚ 1) (enter (rep [Some 1; Some 2; Some 3] 0) nobody ptr_env) =
           (Ok (MkPtr Data 1), st') ∧
         this st' = rep [Some 1; Some 3] 1.
Proof.
  split; [exact ptr_move_assigns_faithfully|].
  destruct (Erase_removes_one [Some 1; Some 2; Some 3] 0 1 nobody ptr_env
              ptr_move_assigns_faithfully) as [Hres Hret].
  destruct Hret as [st' Heq]; [done|simpl; lia|].
  rewrite Heq in Hres. exists st'. split; [exact Heq|]. apply Hres.
Defined.

Lemma Vector_sized_builds_witness :
  fits (T:=nat) (U:=unit) 3 ∧
  ∃ m', exec (CSized 5 3) two_vectors = (Ok tt, m') ∧
    ∃ ds, length ds = 3 ∧ objs m' = <[5 := rep ds 0]> (objs two_vectors) ∧
      trace (world m') = trace (world two_vectors) ++ replicate 3 EvValue ∧
      ∀ dflt, value_is (T:=nat) (U:=unit) dflt → ds = replicate 3 dflt.
Proof.
  assert (fits (T:=nat) (U:=unit) 3) as Hfits by (vm_compute; reflexivity).
  split; [exact Hfits|].
  pose proof (Vector_sized_builds 5 3 two_vectors Hfits) as Hres.
  assert (∃ m', exec (CSized 5 3) two_vectors = (Ok tt, m')) as [m' Heq]
    by (eexists; vm_compute; reflexivity).
  rewrite Heq in Hres. exists m'. split; [exact Heq|exact Hres].
Defined.

Lemma Vector_copy_builds_witness :
  objs two_vectors !! 1 = Some (rep [2; 3] 0) ∧
  ∃ m', exec (CCopy 2 1) two_vectors = (Ok tt, m') ∧
        objs m' = <[2 := rep [2; 3] 0]> (objs two_vectors).
Proof.
  split; [reflexivity|].
  pose proof (Vector_copy_builds 2 1 [2; 3] 0 two_vectors eq_refl) as Hres.
  destruct (exec (CCopy 2 1) two_vectors) as [[[]| |] m'] eqn:Heq;
    [|by vm_compute in Heq..].
  exists m'. split; [done|].
  destruct Hres as (cs & _ & -> & _ & _ & Hcs). by rewrite (Hcs int_copies_faithfully).
Defined.

Lemma Vector_delete_destroys_witness :
  objs two_vectors !! 1 = Some (rep [2; 3] 0) ∧
  ∃ m', exec (CDelete 1) two_vectors = (Ok tt, m') ∧
        objs m' = delete 1 (objs two_vectors) ∧
        trace (world m') = [EvDestroy 2; EvDestroy 3].
Proof.
  split; [reflexivity|].
  destruct (Vector_delete_destroys 1 [2; 3] 0 two_vectors eq_refl)
    as (m' & Heq & Hobjs & _ & Htr).
  exists m'. split; [exact Heq|]. split; [exact Hobjs|exact Htr].
Defined.

Lemma Swap_exchanges_witness :
  objs two_vectors !! 0 = Some (rep [1] 0) ∧
  objs two_vectors !! 1 = Some (rep [2; 3] 0) ∧
  (Swap 0 1 ;;; Swap 0 1) two_vectors = (Ok tt, two_vectors) ∧
  Swap 1 0 two_vectors = Swap 0 1 two_vectors.
Proof.
  split; [reflexivity|]. split; [reflexivity|].
  destruct (Swap_exchanges 0 1 (rep [1] 0) (rep [2; 3] 0) two_vectors eq_refl eq_refl)
    as (_ & Hinv & Hsym & _).
  split; [exact Hinv|exact Hsym].
Defined.

Lemma Reserve_keeps_elements_witness :
  fits (T:=option nat) (U:=unit) 5 ∧
  copies_faithfully (T:=option nat) (U:=unit) ∧
  moves_faithfully (T:=option nat) (U:=unit) ∧
  ∃ st', Reserve 5 (enter (rep [Some 1; Some 2] 0) nobody ptr_env) = (Ok tt, st') ∧
         this st' = rep [Some 1; Some 2] 3 ∧ capacity (this st') = 5.
Proof.
  assert (fits (T:=option nat) (U:=unit) 5) as Hfits by (vm_compute; reflexivity).
  split; [exact Hfits|].
  split; [exact ptr_copies_faithfully|]. split; [exact ptr_moves_faithfully|].
  destruct (Reserve_keeps_elements 5 [Some 1; Some 2] 0 nobody ptr_env Hfits
              ptr_copies_faithfully ptr_moves_faithfully) as [Hres Hret].
  destruct (Hret (or_intror ptr_nothrow_movable)) as [st' Heq].
  rewrite Heq in Hres. exists st'. split; [exact Heq|]. apply Hres.
Defined.

Lemma PushBack_then_PopBack_witness :
  copies_faithfully (T:=nat) (U:=unit) ∧ moves_faithfully (T:=nat) (U:=unit) ∧
  ∃ st', (PushBack 9 ;;; PopBack) (enter (rep [1; 2] 0) nobody int_env) = (Ok tt, st') ∧
         this st' = rep [1; 2] 2.
Proof.
  split; [exact int_copies_faithfully|]. split; [exact int_moves_faithfully|].
  destruct (PushBack_then_PopBack 9 [1; 2] 0 nobody int_env
              int_copies_faithfully int_moves_faithfully) as [Hres Hret].
  destruct (Hret int_nothrow) as [st' Heq].
  rewrite Heq in Hres. exists st'. split; [exact Heq|]. apply Hres.
Defined.

Lemma Emplace_full_inserts_witness :
  copies_faithfully (T:=option nat) (U:=unit) ∧
  moves_faithfully (T:=option nat) (U:=unit) ∧
  1 ≤ length [Some 1; Some 2; Some 3] ∧
  ∃ p st', Insert_move (begin_ +ₚ 1) (Some 99)
             (enter (rep [Some 1; Some 2; Some 3] 0) nobody ptr_env) = (Ok p, st') ∧
           p = MkPtr Data 1 ∧
           this st' = rep [Some 1; Some 99; Some 2; Some 3] 2.
Proof.
  split; [exact ptr_copies_faithfully|]. split; [exact ptr_moves_faithfully|].
  assert (1 ≤ length [Some 1; Some 2; Some 3]) as Hi by (simpl; lia).
  split; [exact Hi|]. unfold Insert_move.
  destruct (Emplace_full_inserts (by_move (Some 99)) [Some 1; Some 2; Some 3] 1
              nobody ptr_env ptr_copies_faithfully ptr_moves_faithfully Hi)
    as [Hres Hret].
  destruct (Hret (or_intror ptr_nothrow_movable)
              (by_move_movable (Some 99) (or_intror ptr_nothrow_movable)))
    as (p & st' & Heq).
  rewrite Heq in Hres. exists p, st'. split; [exact Heq|].
  destruct Hres as (Hp & y & Hy & Hthis & _). split; [exact Hp|].
  injection Hy as <-. exact Hthis.
Defined.

Lemma Insert_in_place_plain_witness :
  moves_are_copies (T:=nat) (U:=unit) ∧ copies_faithfully (T:=nat) (U:=unit) ∧
  0 ≤ length [1; 2; 3] ∧ 2 < length [1; 2; 3] ∧
  (* v.Insert(v.begin(), v[2]) on [1, 2, 3] inserts 2, not 3 *)
  ∃ st', Insert (begin_ +ₚ 0) (Inside 2) (enter (rep [1; 2; 3] 1) nobody int_env) =
           (Ok (MkPtr Data 0), st') ∧
         this st' = rep [2; 1; 2; 3] 0.
Proof.
  split; [exact int_moves_are_copies|]. split; [exact int_copies_faithfully|].
  assert (0 ≤ length [1; 2; 3]) as Hi by (simpl; lia).
  assert (2 < length [1; 2; 3]) as Hj by (simpl; lia).
  split; [exact Hi|]. split; [exact Hj|].
  destruct (Insert_in_place_plain (Inside 2) [1; 2; 3] 0 0 nobody int_env
              int_moves_are_copies int_copies_faithfully Hi Hj) as (Hres & _ & Hret & _).
  assert (Inside (T:=nat) 2 ≠ Inside 0) as Hne by (intros [=]).
  destruct (Hret int_nothrow Hne) as [st' Heq].
  rewrite Heq in Hres. exists st'. split; [exact Heq|].
  destruct Hres as (_ & _ & y & Hthis & [[Hlt _]|[_ Hy]]).
  - exfalso. lia.
  - injection Hy as <-. exact Hthis.
Defined.

Lemma Emplace_in_place_throw_witness :
  move_assigns_faithfully (T:=option nat) (U:=unit) ∧
  (nothrow (T:=option nat) (U:=unit) ∨ nothrow_movable (T:=option nat) (U:=unit)) ∧
  1 ≤ S (length [Some 1; Some 2]) ∧
  (∀ e0 : Env (option nat) unit, (@None (option nat), e0).1 = None) ∧
  ∃ st', Emplace (begin_ +ₚ 1) (λ e0, (None, e0))
           (enter (rep ([Some 1; Some 2] ++ [Some 3]) 1) nobody ptr_env) = (Throw, st') ∧
         size_ (this st') = 3 ∧
         data_ (this st') = [Some (Some 1); None; Some (Some 2); Some None] ∧
         ¬ wf (this st').
Proof.
  split; [exact ptr_move_assigns_faithfully|].
  split; [exact (or_intror ptr_nothrow_movable)|].
  assert (1 ≤ S (length [Some 1; Some 2])) as Hi by (simpl; lia).
  split; [exact Hi|]. split; [done|].
  destruct (Emplace_in_place_throw (λ e0, (None, e0)) [Some 1; Some 2] (Some 3) 0 1
              nobody ptr_env ptr_move_assigns_faithfully (or_intror ptr_nothrow_movable)
              Hi (λ _, eq_refl))
    as (st' & Heq & Hsize & Hdata & Hhole).
  exists st'. split; [exact Heq|]. split; [exact Hsize|]. split; [exact Hdata|].
  apply Hhole. simpl. lia.
Defined.

Lemma PushBack_move_round_trip_witness :
  copies_faithfully (T:=option nat) (U:=unit) ∧
  moves_faithfully (T:=option nat) (U:=unit) ∧
  ∃ st', PushBack_move_all [Some 1; Some 2; Some 3]
           (enter (MkVector [] 0) nobody ptr_env) = (Ok tt, st') ∧
         (∃ k', this st' = rep [Some 1; Some 2; Some 3] k') ∧
         at_ 2 st' = (Ok (Some 3), st').
Proof.
  split; [exact ptr_copies_faithfully|]. split; [exact ptr_moves_faithfully|].
  destruct (PushBack_move_round_trip [Some 1; Some 2; Some 3] nobody ptr_env
              ptr_copies_faithfully ptr_moves_faithfully) as [Hres Hret].
  destruct (Hret (or_intror ptr_nothrow_movable)) as [st' Heq].
  rewrite Heq in Hres. exists st'. split; [exact Heq|].
  destruct Hres as [Hrep Hat]. split; [exact Hrep|]. by apply Hat.
Defined.

Lemma Reserve_then_append_witness :
  fits (T:=nat) (U:=unit) 4 ∧
  ∃ st1, Reserve 4 (enter (rep [1; 2] 0) nobody int_env) = (Ok tt, st1) ∧
         length [1; 2] + length [7; 8] ≤ 4 ∧
         capacity (this st1) = 4 ∧
         ∃ st', PushBack_all [7; 8] st1 = (Ok tt, st') ∧
                capacity (this st') = 4 ∧
                trace (env st') = trace (env st1) ++ [EvCopy 7; EvCopy 8].
Proof.
  assert (fits (T:=nat) (U:=unit) 4) as Hfits by (vm_compute; reflexivity).
  split; [exact Hfits|].
  destruct (Reserve_returns 4 [1; 2] 0 nobody int_env int_nothrow) as [st1 Heq1].
  exists st1. split; [exact Heq1|].
  assert (length [1; 2] + length [7; 8] ≤ 4) as Hn by (simpl; lia).
  split; [exact Hn|].
  destruct (Reserve_then_append 4 [7; 8] [1; 2] 0 nobody int_env st1 Hfits Heq1 Hn)
    as [Hcap Hres].
  split; [exact Hcap|].
  destruct (PushBack_all [7; 8] st1) as [[[]| |] st'] eqn:Heq.
  - exists st'. split; [done|]. destruct Hres as (_ & Hc & Htr & _).
    split; [by rewrite Hc|exact Htr].
  - exfalso. rewrite Reserve_eq in Heq1. vm_compute in Heq1.
    injection Heq1 as <-. vm_compute in Heq. discriminate Heq.
  - destruct Hres.
Defined.

Lemma Emplace_then_Erase_witness :
  move_assigns_faithfully (T:=option nat) (U:=unit) ∧
  1 ≤ length [Some 1; Some 2; Some 3] ∧
  copies_faithfully (T:=option nat) (U:=unit) ∧
  moves_faithfully (T:=option nat) (U:=unit) ∧
  ∃ q st',
    (p <- Emplace (begin_ +ₚ 1) (by_move (Some 99)) ;; Erase p)
      (enter (rep [Some 1; Some 2; Some 3] 0) nobody ptr_env) = (Ok q, st') ∧
    q = MkPtr Data 1 ∧ this st' = rep [Some 1; Some 2; Some 3] 3.
Proof.
  split; [exact ptr_move_assigns_faithfully|].
  assert (1 ≤ length [Some 1; Some 2; Some 3]) as Hi by (simpl; lia).
  split; [exact Hi|].
  split; [exact ptr_copies_faithfully|]. split; [exact ptr_moves_faithfully|].
  destruct (Emplace_then_Erase (by_move (Some 99)) [Some 1; Some 2; Some 3] 1
              nobody ptr_env ptr_move_assigns_faithfully Hi) as [Hfull _].
  specialize (Hfull ptr_copies_faithfully ptr_moves_faithfully).
  assert (∃ q st',
    (p <- Emplace (begin_ +ₚ 1) (by_move (Some 99)) ;; Erase p)
      (enter (rep [Some 1; Some 2; Some 3] 0) nobody ptr_env) = (Ok q, st'))
    as (q & st' & Heq) by (eexists _, _; vm_compute; reflexivity).
  rewrite Heq in Hfull. exists q, st'. split; [exact Heq|]. exact Hfull.
Defined.

Lemma assign_reuses_storage_witness :
  copies_faithfully (T:=nat) (U:=unit) ∧ assigns_faithfully (T:=nat) (U:=unit) ∧
  1 ≠ 0 ∧ objs two_vectors !! 1 = Some (rep [2; 3] 0) ∧
  objs two_vectors !! 0 = Some (rep [1] 0) ∧
  ∃ m', Vector_assign 1 0 two_vectors = (Ok tt, m') ∧
        objs m' = <[1 := rep [1] 1]> (objs two_vectors) ∧
        trace (world m') = [EvDestroy 3; EvCopyAssign 2 1].
Proof.
  split; [exact int_copies_faithfully|]. split; [exact int_assigns_faithfully|].
  assert (1 ≠ 0) as Hne by done.
  split; [exact Hne|]. split; [reflexivity|]. split; [reflexivity|].
  pose proof (assign_reuses_storage 1 0 [2; 3] 0 [1] 0 two_vectors
                int_copies_faithfully int_assigns_faithfully Hne eq_refl eq_refl) as Hres.
  destruct (Vector_assign 1 0 two_vectors) as [[[]| |] m'] eqn:Heq;
    [|by vm_compute in Heq..].
  exists m'. split; [done|]. destruct Hres as (_ & Hobjs & Htr).
  split; [exact Hobjs|exact Htr].
Defined.

Lemma assign_throw_after_destroy_witness :
  0 ≠ 1 ∧
  objs stubborn_vectors !! 0 = Some (rep [1; 2] 0) ∧
  objs stubborn_vectors !! 1 = Some (rep [3] 0) ∧
  length [3] < length [1; 2] ∧
  ∃ m', Vector_assign 0 1 stubborn_vectors = (Throw, m') ∧
    ∃ v', objs m' !! 0 = Some v' ∧ size_ v' = 2 ∧ data_ v' !! 1 = Some None ∧ ¬ wf v'.
Proof.
  assert (0 ≠ 1) as Hne by done. split; [exact Hne|].
  split; [reflexivity|]. split; [reflexivity|].
  assert (length [3] < length [1; 2]) as Hlt by (simpl; lia).
  split; [exact Hlt|].
  assert (∃ m', Vector_assign 0 1 stubborn_vectors = (Throw, m')) as [m' Heq]
    by (eexists; vm_compute; reflexivity).
  exists m'. split; [exact Heq|].
  destruct (assign_throw_after_destroy 0 1 [1; 2] 0 [3] 0 stubborn_vectors m'
              Hne eq_refl eq_refl Hlt Heq)
    as (v' & Hv & Hsize & _ & Hslot & Hwf & _).
  exists v'. split; [exact Hv|]. split; [exact Hsize|]. split; [exact Hslot|exact Hwf].
Defined.

Lemma Emplace_in_place_moved_from_witness :
  moves_faithfully (T:=option nat) (U:=unit) ∧
  move_assigns_faithfully (T:=option nat) (U:=unit) ∧
  1 ≤ S (length [Some 1; Some 2]) ∧
  ∃ st', Emplace (begin_ +ₚ 1) (by_move (Some 99))
           (enter (rep ([Some 1; Some 2] ++ [Some 3]) 1) nobody ptr_env) =
           (Ok (MkPtr Data 1), st') ∧
         this st' = rep [Some 1; Some 99; Some 2; None] 0.
Proof.
  split; [exact ptr_moves_faithfully|]. split; [exact ptr_move_assigns_faithfully|].
  assert (1 ≤ S (length [Some 1; Some 2])) as Hi by (simpl; lia).
  split; [exact Hi|].
  destruct (Emplace_in_place_moved_from (by_move (Some 99)) [Some 1; Some 2] (Some 3) 0 1
              nobody ptr_env ptr_moves_faithfully ptr_move_assigns_faithfully Hi)
    as [Hres Hret].
  destruct (Hret (or_intror ptr_nothrow_movable)
              (by_move_movable (Some 99) (or_intror ptr_nothrow_movable)))
    as (st' & Heq).
  rewrite Heq in Hres. exists st'. split; [exact Heq|].
  destruct Hres as (_ & y & e0 & Hy & Hthis & _).
  apply by_move_faithful in Hy as ->; [|exact ptr_moves_faithfully].
  exact Hthis.
Defined.

Lemma wf_preserved_witness :
  all_wf two_vectors ∧
  (in_contract (CEmplace 1 1 (by_copy 9)) two_vectors ∧
   request_fits (CEmplace 1 1 (by_copy 9)) ∧
   match exec (CEmplace 1 1 (by_copy 9)) two_vectors with
   | (Ok _, m') => all_wf m'
   | (Throw, m') => keeps_on_throw (CEmplace 1 1 (by_copy 9)) = true → all_wf m'
   | (Undef, _) => True
   end ∧
   (exec (CEmplace 1 1 (by_copy 9)) two_vectors).1 = Ok tt) ∧
  (in_contract (CReserve 1 8) two_vectors ∧
   request_fits (T:=nat) (U:=unit) (CReserve 1 8) ∧
   match exec (CReserve 1 8) two_vectors with
   | (Ok _, m') => all_wf m'
   | (Throw, m') => keeps_on_throw (CReserve (T:=nat) (U:=unit) 1 8) = true → all_wf m'
   | (Undef, _) => True
   end ∧
   (exec (CReserve 1 8) two_vectors).1 = Ok tt).
Proof.
  assert (in_contract (CEmplace 1 1 (by_copy 9)) two_vectors) as Hc.
  { intros v Hv. vm_compute in Hv. injection Hv as <-. simpl. lia. }
  assert (request_fits (T:=nat) (U:=unit) (CReserve 1 8)) as Hfits
    by (vm_compute; reflexivity).
  split; [exact two_vectors_wf|]. split.
  - split; [exact Hc|]. split; [exact I|].
    split; [|vm_compute; reflexivity].
    exact (wf_preserved (CEmplace 1 1 (by_copy 9)) two_vectors two_vectors_wf Hc I).
  - split; [exact I|]. split; [exact Hfits|].
    split; [|vm_compute; reflexivity].
    exact (wf_preserved (CReserve 1 8) two_vectors two_vectors_wf I Hfits).
Defined.

Lemma Resize_throw_keeps_elements_witness :
  copies_faithfully (T:=nat) (U:=nat) ∧ moves_faithfully (T:=nat) (U:=nat) ∧
  transfer_protected (T:=nat) (U:=nat) ∧
  ∃ st', Resize 3 (enter (rep [7] 0) nobody (fragile_env 1)) = (Throw, st') ∧
         length [7] < 3 ∧
         (this st' = rep [7] 0 ∨
          (capacity (rep [7] 0) < 3 ∧ this st' = rep [7] (3 - length [7]))).
Proof.
  split; [exact fragile_copies_faithfully|]. split; [exact fragile_moves_faithfully|].
  split; [exact fragile_transfer_protected|].
  assert (∃ st', Resize 3 (enter (rep [7] 0) nobody (fragile_env 1)) = (Throw, st'))
    as [st' Heq] by (eexists; vm_compute; reflexivity).
  exists st'. split; [exact Heq|].
  exact (Resize_throw_keeps_elements 3 [7] 0 nobody (fragile_env 1) st'
           fragile_copies_faithfully fragile_moves_faithfully
           fragile_transfer_protected Heq).
Defined.

Lemma EmplaceBack_throw_in_transfer_witness :
  moves_on_realloc (T:=nat) (U:=nat) = false ∧
  can_allocate (T:=nat) (grown (length [7; 8])) (user (fragile_env 2)) = true ∧
  by_copy 9 (fragile_env 2) = (Some 9, MkEnv 1 [EvCopy 9]) ∧
  ∃ st', EmplaceBack (by_copy 9) (enter (rep [7; 8] 0) nobody (fragile_env 2)) =
           (Throw, st') ∧
         this st' = rep [7; 8] 0 ∧
         trace (env st') = [EvCopy 9; EvCopy 7; EvCopy 8; EvDestroy 7].
Proof.
  split; [reflexivity|]. split; [reflexivity|]. split; [reflexivity|].
  assert (∃ st', EmplaceBack (by_copy 9) (enter (rep [7; 8] 0) nobody (fragile_env 2)) =
                   (Throw, st')) as [st' Heq] by (eexists; vm_compute; reflexivity).
  exists st'. split; [exact Heq|].
  assert (moves_on_realloc (T:=nat) (U:=nat) = false) as Hp by reflexivity.
  assert (can_allocate (T:=nat) (grown (length [7; 8])) (user (fragile_env 2)) = true)
    as Ha by reflexivity.
  assert (by_copy 9 (fragile_env 2) = (Some 9, MkEnv 1 [EvCopy 9])) as Hy by reflexivity.
  destruct (EmplaceBack_throw_in_transfer (by_copy 9) [7; 8] nobody
              (fragile_env 2) 9 (MkEnv 1 [EvCopy 9]) st' Hp Ha Hy Heq)
    as (Hthis & j & ys & Hj & Hlen & Htr & Hys).
  split; [exact Hthis|].
  vm_compute in Heq. injection Heq as <-. reflexivity.
Defined.

Lemma Emplace_full_throw_cleanup_witness :
  moves_on_realloc (T:=nat) (U:=nat) = false ∧
  can_allocate (T:=nat) (grown (length [7; 8])) (user (fragile_env 2)) = true ∧
  by_copy 9 (fragile_env 2) = (Some 9, MkEnv 1 [EvCopy 9]) ∧
  1 ≤ length [7; 8] ∧
  ∃ st', Emplace (begin_ +ₚ 1) (by_copy 9) (enter (rep [7; 8] 0) nobody (fragile_env 2)) =
           (Throw, st') ∧
         this st' = rep [7; 8] 0 ∧
         trace (env st') = [EvCopy 9; EvCopy 7; EvCopy 8; EvDestroy 7].
Proof.
  split; [reflexivity|]. split; [reflexivity|]. split; [reflexivity|].
  assert (1 ≤ length [7; 8]) as Hi by (simpl; lia).
  split; [exact Hi|].
  assert (moves_on_realloc (T:=nat) (U:=nat) = false) as Hp by reflexivity.
  assert (can_allocate (T:=nat) (grown (length [7; 8])) (user (fragile_env 2)) = true)
    as Ha by reflexivity.
  assert (by_copy 9 (fragile_env 2) = (Some 9, MkEnv 1 [EvCopy 9])) as Hy by reflexivity.
  pose proof (Emplace_full_throw_cleanup (by_copy 9) [7; 8] 1 nobody (fragile_env 2)
                9 (MkEnv 1 [EvCopy 9]) Hp Ha Hy Hi) as Hres.
  assert (∃ st', Emplace (begin_ +ₚ 1) (by_copy 9)
                   (enter (rep [7; 8] 0) nobody (fragile_env 2)) = (Throw, st'))
    as [st' Heq] by (eexists; vm_compute; reflexivity).
  rewrite Heq in Hres. exists st'. split; [exact Heq|].
  destruct Hres as [Hthis _]. split; [exact Hthis|].
  vm_compute in Heq. injection Heq as <-. reflexivity.
Defined.

Lemma capacity_never_shrinks_witness :
  all_wf two_vectors ∧ in_contract (CResize 1 0) two_vectors ∧
  keeps_storage (CResize (T:=nat) (U:=unit) 1 0) = true ∧
  objs two_vectors !! 1 = Some (rep [2; 3] 0) ∧
  ∃ m' v', exec (CResize 1 0) two_vectors = (Ok tt, m') ∧
           objs m' !! 1 = Some v' ∧ capacity (rep [2; 3] 0) ≤ capacity v' ∧
           size_ v' = 0.
Proof.
  split; [exact two_vectors_wf|]. split; [exact I|]. split; [reflexivity|].
  split; [reflexivity|].
  pose proof (capacity_never_shrinks (CResize 1 0) two_vectors 1 (rep [2; 3] 0)
                two_vectors_wf I eq_refl eq_refl) as Hres.
  assert (∃ m', exec (CResize 1 0) two_vectors = (Ok tt, m')) as [m' Heq]
    by (eexists; vm_compute; reflexivity).
  rewrite Heq in Hres. destruct Hres as (v' & Hv & Hcap).
  exists m', v'. split; [exact Heq|]. split; [exact Hv|]. split; [exact Hcap|].
  revert Hv. vm_compute in Heq. injection Heq as <-. vm_compute. by intros [= <-].
Defined.
